(** * PARCA resolution and integrity engine: a shallow embedding

    The development follows the TypeScript sources of the PARCA VS Code
    extension: [assetResolver.ts] (install, resolveAll, resolveAsset),
    [cacheManager.ts], [lockfileManager.ts], [configLoader.ts],
    [manifestResolver.ts], [workspaceMapper.ts] and [publisher.ts].

    Conventions.
    - A JavaScript string is a [string] of bytes, its UTF-8 encoding; the
      order of [Array.prototype.sort], which compares UTF-16 code units, is
      [JS.leb].
    - A plain JavaScript object used as a dictionary is an association list in
      insertion order with pairwise distinct keys ([Obj]). [JS.get] looks
      at own properties; [JS.member] also sees the members every object
      inherits from [Object.prototype] and is used where the publisher tests
      [o[k]] on a name the maintainer types. The theorems about the
      consumer side say where they take a key not to be such a name
      ([JS.inherited]).
    - Paths are POSIX paths. [path.join] and [path.relative] are modelled on
      paths in normal form ([normal_path], [plain_segment]), which they only
      concatenate; the theorems that depend on it say so.
    - A method that touches the file system, the network or the progress sink
      is a function in the monad [M], which threads the [World] and may
      throw an [Error]; a thrown error keeps every write made before it.
    - The libraries the sources import ([semver], [js-yaml], [JSON], [URL],
      [crypto]) are not part of the repository: [semver] and SHA-256 are
      modelled from their public definitions, the parsers and printers are
      parameters of the development (class [Libs]). *)

From Stdlib Require Import String Ascii List Bool NArith Arith Lia.
From Stdlib Require Import OrderedTypeEx Permutation Sorted.
Import ListNotations.
Open Scope string_scope.
Open Scope list_scope.

Set Implicit Arguments.

(* ================================================================== *)
(** * JavaScript values: strings, truthiness, arrays, objects          *)
(* ================================================================== *)

Module JS.

(** The double-quote character (code 34), needed by the error messages. *)
Definition dquote : string := String (ascii_of_nat 34) EmptyString.

(** The line feed and the backslash. *)
Definition nl : string := String (ascii_of_nat 10) EmptyString.
Definition backslash : string := String (ascii_of_nat 92) EmptyString.

Definition quoted (s : string) : string := (dquote ++ s ++ dquote)%string.

(** [!!s] for a string that may be [undefined] or [null]: the empty string is
    falsy as well. *)
Definition truthy (s : option string) : bool :=
  match s with
  | Some s => negb (s =? "")%string
  | None => false
  end.

(** [a || b] on possibly-undefined strings. *)
Definition or_else (a b : option string) : option string :=
  if truthy a then a else b.

(** [a || b] where [b] is a string. *)
Definition or_default (a : option string) (b : string) : string :=
  match a with
  | Some s => if (s =? "")%string then b else s
  | None => b
  end.

(** [arr.join(sep)]. *)
Definition join (sep : string) (arr : list string) : string :=
  String.concat sep arr.

(** [s.includes(sub)]. *)
Definition includes (s sub : string) : bool :=
  match String.index 0 sub s with
  | Some _ => true
  | None => (sub =? "")%string
  end.

Fixpoint string_rev_onto (s acc : string) : string :=
  match s with
  | EmptyString => acc
  | String c r => string_rev_onto r (String c acc)
  end.

Definition string_rev (s : string) : string := string_rev_onto s EmptyString.

Definition is_space (c : ascii) : bool :=
  let n := nat_of_ascii c in
  ((9 <=? n)%nat && (n <=? 13)%nat) || (n =? 32)%nat.

Fixpoint trim_start (s : string) : string :=
  match s with
  | String c r => if is_space c then trim_start r else s
  | EmptyString => EmptyString
  end.

(** [s.trim()], on ASCII white space. *)
Definition trim (s : string) : string :=
  string_rev (trim_start (string_rev (trim_start s))).

(** [s.endsWith(suffix)]. *)
Definition endsWith (s suffix : string) : bool :=
  String.prefix (string_rev suffix) (string_rev s).

Definition lower_char (c : ascii) : ascii :=
  let n := nat_of_ascii c in
  if (65 <=? n)%nat && (n <=? 90)%nat then ascii_of_nat (n + 32) else c.

(** [s.replace(/suffix$/, '')] for a literal suffix. *)
Definition strip_suffix (s suffix : string) : string :=
  if endsWith s suffix
  then String.substring 0 (String.length s - String.length suffix) s
  else s.

(** [s.indexOf(sub)]. *)
Definition indexOf (s sub : string) : option nat :=
  match String.index 0 sub s with
  | Some n => Some n
  | None => if (sub =? "")%string then Some 0 else None
  end.

(** [s.toLowerCase()], on ASCII letters. *)
Fixpoint toLowerCase (s : string) : string :=
  match s with
  | EmptyString => EmptyString
  | String c r => String (lower_char c) (toLowerCase r)
  end.

(** [s.replace(/\r\n/g, '\n')]. *)
Fixpoint replace_crlf (s : string) : string :=
  match s with
  | EmptyString => EmptyString
  | String c r =>
      match r with
      | String d r' =>
          if (Ascii.eqb c "013" && Ascii.eqb d "010")%bool
          then String "010" (replace_crlf r')
          else String c (replace_crlf r)
      | EmptyString => String c EmptyString
      end
  end.

(** [s.split(c)] for a one-character separator. *)
Fixpoint split (c : ascii) (s : string) : list string :=
  match s with
  | EmptyString => [EmptyString]
  | String d r =>
      if Ascii.eqb d c then EmptyString :: split c r
      else match split c r with
           | [] => [String d EmptyString]
           | w :: ws => String d w :: ws
           end
  end.

Definition is_digit (c : ascii) : bool :=
  let n := nat_of_ascii c in (48 <=? n)%nat && (n <=? 57)%nat.

Fixpoint digits_value (acc : N) (s : string) : option N :=
  match s with
  | EmptyString => Some acc
  | String c r =>
      if is_digit c
      then digits_value (acc * 10 + (N_of_ascii c - 48))%N r
      else None
  end.

(** A decimal numeral without leading zeros: the regular expression
    [0|[1-9]\d*]. *)
Definition canonical_numeral (s : string) : option N :=
  match s with
  | EmptyString => None
  | String c r =>
      if (Ascii.eqb c "0" && negb (r =? "")%string)%bool then None
      else digits_value 0 s
  end.

(** ** Sorting *)

Section Sorting.
Variable A : Type.
Variable leb : A -> A -> bool.

Fixpoint insert_sorted (x : A) (l : list A) : list A :=
  match l with
  | [] => [x]
  | y :: r => if leb x y then x :: l else y :: insert_sorted x r
  end.

Fixpoint sort_by (l : list A) : list A :=
  match l with
  | [] => []
  | x :: r => insert_sorted x (sort_by r)
  end.

End Sorting.

(** The default comparison of strings, by UTF-16 code units. On the UTF-8
    encoding this is the byte order, except that the characters U+E000 to
    U+FFFF (lead bytes [EE] and [EF]), one code unit each, come after the
    characters above U+FFFF (lead bytes [F0] to [F4]), which are surrogate
    pairs. [unit_rank] moves these lead bytes accordingly and leaves the
    other bytes alone. *)
Definition unit_rank (c : ascii) : ascii :=
  let n := N_of_ascii c in
  if (n =? 238)%N then ascii_of_N 243
  else if (n =? 239)%N then ascii_of_N 244
  else if ((240 <=? n) && (n <=? 244))%N then ascii_of_N (n - 2)
  else c.

Fixpoint unit_ranks (s : string) : string :=
  match s with
  | EmptyString => EmptyString
  | String c r => String (unit_rank c) (unit_ranks r)
  end.

(** [a <= b] on strings. *)
Definition leb (a b : string) : bool :=
  String.leb (unit_ranks a) (unit_ranks b).

(** [arr.sort()] on an array of strings (default comparison). *)
Definition sort (arr : list string) : list string := sort_by leb arr.

(** [arr.reverse()]. *)
Definition reverse (arr : list string) : list string := rev arr.

(** [s.replace(/\\/g, '/')]. *)
Fixpoint slashes (s : string) : string :=
  match s with
  | EmptyString => EmptyString
  | String c r =>
      String (if Ascii.eqb c (ascii_of_nat 92) then "/"%char else c) (slashes r)
  end.

(** ** Objects as dictionaries *)

Definition Obj (V : Type) : Type := list (string * V).

(** [o[k]] for an own property [k] of [o]; [None] when [o] has no own
    property [k]. *)
Fixpoint get {V} (o : Obj V) (k : string) : option V :=
  match o with
  | [] => None
  | (k', v) :: r => if (k' =? k)%string then Some v else get r k
  end.

(** [o[k] = v]: an existing property keeps its place, a new one is added
    last. (An assignment to the name [__proto__] that is no own property
    sets the prototype instead; the callers are stated for other names.) *)
Fixpoint set {V} (o : Obj V) (k : string) (v : V) : Obj V :=
  match o with
  | [] => [(k, v)]
  | (k', v') :: r =>
      if (k' =? k)%string then (k, v) :: r else (k', v') :: set r k v
  end.

(** The names of the members a plain object inherits from
    [Object.prototype]; each is truthy. *)
Definition prototype_members : list string :=
  ["constructor"; "__proto__"; "hasOwnProperty"; "isPrototypeOf";
   "propertyIsEnumerable"; "toLocaleString"; "toString"; "valueOf";
   "__defineGetter__"; "__defineSetter__"; "__lookupGetter__";
   "__lookupSetter__"].

Definition inherited (k : string) : bool :=
  existsb (String.eqb k) prototype_members.

(** What [o[k]] finds: an own property, else a member inherited from
    [Object.prototype], else [undefined]. *)
Inductive Member (V : Type) : Type :=
| Own (v : V)
| Inherited
| Absent.
Arguments Own {V} v.
Arguments Inherited {V}.
Arguments Absent {V}.

Definition member {V} (o : Obj V) (k : string) : Member V :=
  match get o k with
  | Some v => Own v
  | None => if inherited k then Inherited else Absent
  end.

(** A property name is an array index when it is the canonical numeral of an
    integer below [2^32 - 1]. *)
Definition array_index (k : string) : option N :=
  match canonical_numeral k with
  | Some n => if (n <? 4294967295)%N then Some n else None
  | None => None
  end.

Definition is_array_index (k : string) : bool :=
  match array_index k with Some _ => true | None => false end.

Definition index_keys (ks : list string) : list (N * string) :=
  flat_map (fun k => match array_index k with
                     | Some n => [(n, k)]
                     | None => []
                     end) ks.

(** [Object.keys(o)]: the array indices in ascending order, then the other
    names in insertion order. *)
Definition keys {V} (o : Obj V) : list string :=
  let ks := map fst o in
  map snd (sort_by (fun a b => (fst a <=? fst b)%N) (index_keys ks))
  ++ filter (fun k => negb (is_array_index k)) ks.

(** [Object.entries(o)]. *)
Definition entries {V} (o : Obj V) : list (string * V) :=
  flat_map (fun k => match get o k with
                     | Some v => [(k, v)]
                     | None => []
                     end) (keys o).

(** [delete o[k]]. *)
Fixpoint delete {V} (o : Obj V) (k : string) : Obj V :=
  match o with
  | [] => []
  | (k', v) :: r =>
      if (k' =? k)%string then delete r k else (k', v) :: delete r k
  end.

(** [arr.indexOf(x)] on an array of strings; [None] is [-1]. *)
Fixpoint array_indexOf (arr : list string) (x : string) : option nat :=
  match arr with
  | [] => None
  | y :: r =>
      if (y =? x)%string then Some 0
      else option_map S (array_indexOf r x)
  end.

(** The decimal digits of [n] in front of [acc], least significant digit
    first; [fuel] bounds the number of digits. *)
Fixpoint digits_onto (fuel : nat) (n : N) (acc : string) : string :=
  match fuel with
  | O => acc
  | S fuel' =>
      let acc' := String (ascii_of_N (48 + n mod 10)) acc in
      if (n / 10 =? 0)%N then acc' else digits_onto fuel' (n / 10) acc'
  end.

(** [String(n)] for a non-negative integer. *)
Definition number_to_string (n : N) : string :=
  digits_onto (S (N.to_nat (N.log2 n))) n EmptyString.

End JS.

(* ================================================================== *)
(** * The [semver] package                                             *)
(* ================================================================== *)

(** Modelled from the spec: the npm package [semver] is an external
    dependency of the repository. The model follows Semantic Versioning 2.0.0
    and the package's (non-loose) behaviour: [valid], the precedence order of
    [compare], and [maxSatisfying]. Build metadata is parsed and ignored; a
    version with a prerelease tag does not satisfy the range [*]. The
    grammar of the other ranges is the parameter [rangeTest]. *)
Module Semver.

Inductive Identifier : Type :=
| NumId (n : N)
| AlphaId (s : string).

Record SemVer : Type := mkSemVer {
  major : N;
  minor : N;
  patch : N;
  prerelease : list Identifier
}.

Definition MAX_LENGTH : nat := 256.
Definition MAX_SAFE_INTEGER : N := 9007199254740991.

(** [s] cut at the first occurrence of [c]. *)
Fixpoint cut (c : ascii) (s : string) : string * option string :=
  match s with
  | EmptyString => (EmptyString, None)
  | String d r =>
      if Ascii.eqb d c then (EmptyString, Some r)
      else let (a, b) := cut c r in (String d a, b)
  end.

Definition is_ident_char (c : ascii) : bool :=
  let n := nat_of_ascii c in
  JS.is_digit c
  || ((65 <=? n)%nat && (n <=? 90)%nat)
  || ((97 <=? n)%nat && (n <=? 122)%nat)
  || (n =? 45)%nat.

Fixpoint all_chars (p : ascii -> bool) (s : string) : bool :=
  match s with
  | EmptyString => true
  | String c r => p c && all_chars p r
  end.

(** A build identifier: [[0-9A-Za-z-]+]. *)
Definition build_identifier (s : string) : bool :=
  negb (s =? "")%string && all_chars is_ident_char s.

(** A prerelease identifier: a canonical numeral, or [[0-9A-Za-z-]+] with a
    character that is no digit. *)
Definition prerelease_identifier (s : string) : option Identifier :=
  if all_chars JS.is_digit s then
    match JS.canonical_numeral s with
    | Some n => Some (NumId n)
    | None => None
    end
  else if all_chars is_ident_char s then Some (AlphaId s)
  else None.

Fixpoint all_some {A} (l : list (option A)) : option (list A) :=
  match l with
  | [] => Some []
  | Some x :: r =>
      match all_some r with
      | Some xs => Some (x :: xs)
      | None => None
      end
  | None :: _ => None
  end.

Definition main_number (s : string) : option N :=
  match JS.canonical_numeral s with
  | Some n => if (n <=? MAX_SAFE_INTEGER)%N then Some n else None
  | None => None
  end.

(** [new SemVer(version)]: [None] where the constructor throws. *)
Definition parse (version : string) : option SemVer :=
  if (MAX_LENGTH <? String.length version)%nat then None
  else
    let s := JS.trim version in
    let s := match s with
             | String c r => if Ascii.eqb c "v" then r else s
             | EmptyString => s
             end in
    let (front, build) := cut "+" s in
    let build_ok := match build with
                    | Some b => forallb build_identifier (JS.split "." b)
                    | None => true
                    end in
    let (main, pre) := cut "-" front in
    let pre_ids := match pre with
                   | Some p => all_some (map prerelease_identifier (JS.split "." p))
                   | None => Some []
                   end in
    match JS.split "." main, pre_ids with
    | [a; b; c], Some ids =>
        match main_number a, main_number b, main_number c with
        | Some x, Some y, Some z =>
            if build_ok then Some (mkSemVer x y z ids) else None
        | _, _, _ => None
        end
    | _, _ => None
    end.

(** [semver.valid(v)], as a truth value. *)
Definition valid (v : string) : bool :=
  match parse v with Some _ => true | None => false end.

(** ** Precedence *)

Definition lex (c d : comparison) : comparison :=
  match c with Eq => d | _ => c end.

Definition compareIdentifiers (a b : Identifier) : comparison :=
  match a, b with
  | NumId x, NumId y => (x ?= y)%N
  | NumId _, AlphaId _ => Lt
  | AlphaId _, NumId _ => Gt
  | AlphaId x, AlphaId y => String.compare x y
  end.

Fixpoint compareIds (a b : list Identifier) : comparison :=
  match a, b with
  | [], [] => Eq
  | [], _ :: _ => Lt
  | _ :: _, [] => Gt
  | x :: a', y :: b' => lex (compareIdentifiers x y) (compareIds a' b')
  end.

(** [comparePre]: a version without prerelease tag comes after every
    prerelease of the same triple. *)
Definition comparePre (a b : list Identifier) : comparison :=
  match a, b with
  | [], [] => Eq
  | _ :: _, [] => Lt
  | [], _ :: _ => Gt
  | _, _ => compareIds a b
  end.

Definition compareMain (a b : SemVer) : comparison :=
  lex (major a ?= major b)%N
      (lex (minor a ?= minor b)%N (patch a ?= patch b)%N).

(** [a.compare(b)]. *)
Definition compare (a b : SemVer) : comparison :=
  lex (compareMain a b) (comparePre (prerelease a) (prerelease b)).

(** ** Ranges *)

Section Ranges.

(** [rangeTest range v]: whether the parsed version [v] satisfies [range],
    for the ranges other than [*]; false for a range that does not parse. *)
Variable rangeTest : string -> SemVer -> bool.

(** [new Range(range).test(v)]. *)
Definition testRange (range : string) (v : SemVer) : bool :=
  if (range =? "*")%string
  then match prerelease v with [] => true | _ :: _ => false end
  else rangeTest range v.

(** [semver.satisfies(version, range)]. *)
Definition satisfies (version range : string) : bool :=
  match parse version with
  | Some v => testRange range v
  | None => false
  end.

(** The loop of [maxSatisfying]: [best] is the pair [(max, maxSV)]. *)
Fixpoint maxSatisfying_from (best : option (string * SemVer))
    (versions : list string) (range : string) : option (string * SemVer) :=
  match versions with
  | [] => best
  | v :: rest =>
      let best' :=
        match parse v with
        | Some sv =>
            if testRange range sv then
              match best with
              | None => Some (v, sv)
              | Some (_, maxSV) =>
                  match compare maxSV sv with
                  | Lt => Some (v, sv)
                  | _ => best
                  end
              end
            else best
        | None => best
        end in
      maxSatisfying_from best' rest range
  end.

(** [semver.maxSatisfying(versions, range)]; [None] is [null]. *)
Definition maxSatisfying (versions : list string) (range : string)
  : option string :=
  option_map fst (maxSatisfying_from None versions range).

End Ranges.

(** A range semantics for the exact-version ranges such as [1.0.0]: the
    version equals the range's version, build metadata apart. *)
Definition exactRangeTest (range : string) (v : SemVer) : bool :=
  match parse range with
  | Some r => match compare v r with Eq => true | _ => false end
  | None => false
  end.

(** ** Increments *)

(** The release types [proposeNextVersion] passes to [semver.inc]. *)
Inductive ReleaseType : Type := patch_release | minor_release | major_release.

(** [v.inc(release)] for the three plain release types: a prerelease of the
    next version is completed rather than passed over. *)
Definition inc_version (v : SemVer) (release : ReleaseType) : SemVer :=
  let pre := match prerelease v with [] => false | _ :: _ => true end in
  match release with
  | major_release =>
      if (negb (minor v =? 0)%N || negb (patch v =? 0)%N || negb pre)%bool
      then mkSemVer (major v + 1) 0 0 []
      else mkSemVer (major v) 0 0 []
  | minor_release =>
      if (negb (patch v =? 0)%N || negb pre)%bool
      then mkSemVer (major v) (minor v + 1) 0 []
      else mkSemVer (major v) (minor v) 0 []
  | patch_release =>
      if pre then mkSemVer (major v) (minor v) (patch v) []
      else mkSemVer (major v) (minor v) (patch v + 1) []
  end.

(** [v.format()] of a version without prerelease tag. *)
Definition format_main (v : SemVer) : string :=
  (JS.number_to_string (major v) ++ "." ++ JS.number_to_string (minor v)
   ++ "." ++ JS.number_to_string (patch v))%string.

(** [semver.inc(version, release)]; [None] is [null]. *)
Definition inc (version : string) (release : ReleaseType) : option string :=
  match parse version with
  | Some v => Some (format_main (inc_version v release))
  | None => None
  end.

End Semver.

(* ================================================================== *)
(** * SHA-256 ([crypto.createHash('sha256')])                          *)
(* ================================================================== *)

(** Modelled from the spec: the hash function of Node's [crypto] module is
    external to the repository; this is SHA-256 as FIPS 180-4 defines it, on
    the bytes of the string, with the digest printed in lower-case
    hexadecimal ([digest('hex')]). *)
Module Sha256.
Local Open Scope N_scope.

Definition w32 (x : N) : N := N.land x 0xFFFFFFFF.
Definition add32 (x y : N) : N := w32 (x + y).
Definition rotr (n x : N) : N :=
  N.lor (N.shiftr x n) (w32 (N.shiftl x (32 - n))).
Definition not32 (x : N) : N := N.lxor x 0xFFFFFFFF.

Definition Ch (x y z : N) : N := N.lxor (N.land x y) (N.land (not32 x) z).
Definition Maj (x y z : N) : N :=
  N.lxor (N.lxor (N.land x y) (N.land x z)) (N.land y z).
Definition Sigma0 (x : N) : N := N.lxor (N.lxor (rotr 2 x) (rotr 13 x)) (rotr 22 x).
Definition Sigma1 (x : N) : N := N.lxor (N.lxor (rotr 6 x) (rotr 11 x)) (rotr 25 x).
Definition sigma0 (x : N) : N := N.lxor (N.lxor (rotr 7 x) (rotr 18 x)) (N.shiftr x 3).
Definition sigma1 (x : N) : N := N.lxor (N.lxor (rotr 17 x) (rotr 19 x)) (N.shiftr x 10).

(** The constants are derived as the standard defines them, from the
    first primes. *)
Definition is_prime (n : N) : bool :=
  (1 <? n) && forallb (fun d => negb (n mod d =? 0))
                (map N.of_nat (seq 2 (N.to_nat n - 2))).

Definition primes : list N :=
  Eval vm_compute in filter is_prime (map N.of_nat (seq 2 310)).

(** The integer cube root of a number below [2^132], bit by bit. *)
Fixpoint cube_root_bits (bits : nat) (n r : N) : N :=
  match bits with
  | O => r
  | S b =>
      let t := r + N.shiftl 1 (N.of_nat b) in
      cube_root_bits b n (if t * t * t <=? n then t else r)
  end.

Definition cube_root (n : N) : N := cube_root_bits 44 n 0.

(** The first 32 bits of the fractional parts of the cube roots of the
    first 64 primes. *)
Definition K : list N :=
  Eval vm_compute in
    map (fun p => w32 (cube_root (N.shiftl p 96))) (firstn 64 primes).

(** The first 32 bits of the fractional parts of the square roots of the
    first 8 primes. *)
Definition H0 : list N :=
  Eval vm_compute in
    map (fun p => w32 (N.sqrt (N.shiftl p 64))) (firstn 8 primes).

Fixpoint bytes_of_string (s : string) : list N :=
  match s with
  | EmptyString => []
  | String c r => N_of_ascii c :: bytes_of_string r
  end.

(** The big-endian bytes of [x], [n] of them. *)
Fixpoint be_bytes (n : nat) (x : N) : list N :=
  match n with
  | O => []
  | S m => N.land (N.shiftr x (8 * N.of_nat m)) 0xFF :: be_bytes m x
  end.

(** Padding: a one bit, zeros up to 56 modulo 64, the length in bits. *)
Definition pad (msg : list N) : list N :=
  let len := N.of_nat (List.length msg) in
  let zeros := N.to_nat ((119 - (len mod 64)) mod 64) in
  msg ++ [0x80] ++ repeat 0 zeros ++ be_bytes 8 (8 * len).

Fixpoint words_of_bytes (fuel : nat) (bs : list N) : list N :=
  match fuel, bs with
  | S f, a :: b :: c :: d :: r =>
      (N.shiftl a 24 + N.shiftl b 16 + N.shiftl c 8 + d) :: words_of_bytes f r
  | _, _ => []
  end.

Fixpoint chunks (fuel : nat) (ws : list N) : list (list N) :=
  match fuel, ws with
  | S f, _ :: _ => firstn 16 ws :: chunks f (skipn 16 ws)
  | _, _ => []
  end.

(** The message schedule, kept most recent word first. *)
Fixpoint extend (n : nat) (rev_ws : list N) : list N :=
  match n with
  | O => rev_ws
  | S m =>
      let w := add32 (add32 (sigma1 (nth 1 rev_ws 0)) (nth 6 rev_ws 0))
                     (add32 (sigma0 (nth 14 rev_ws 0)) (nth 15 rev_ws 0)) in
      extend m (w :: rev_ws)
  end.

Definition schedule (block : list N) : list N :=
  rev (extend 48 (rev block)).

Definition State : Type := (N * N * N * N * N * N * N * N)%type.

Definition round (s : State) (kw : N * N) : State :=
  let '(a, b, c, d, e, f, g, h) := s in
  let t1 := add32 (add32 (add32 h (Sigma1 e)) (add32 (Ch e f g) (fst kw))) (snd kw) in
  let t2 := add32 (Sigma0 a) (Maj a b c) in
  (add32 t1 t2, a, b, c, add32 d t1, e, f, g).

Definition compress (s : State) (block : list N) : State :=
  let '(a, b, c, d, e, f, g, h) := s in
  let '(a', b', c', d', e', f', g', h') :=
    fold_left round (combine K (schedule block)) s in
  (add32 a a', add32 b b', add32 c c', add32 d d',
   add32 e e', add32 f f', add32 g g', add32 h h').

Definition initial : State :=
  match H0 with
  | [a; b; c; d; e; f; g; h] => (a, b, c, d, e, f, g, h)
  | _ => (0, 0, 0, 0, 0, 0, 0, 0)
  end.

Definition digest_words (msg : list N) : list N :=
  let padded := pad msg in
  let n := List.length padded in
  let '(a, b, c, d, e, f, g, h) :=
    fold_left compress (chunks n (words_of_bytes n padded)) initial in
  [a; b; c; d; e; f; g; h].

Definition hex_digit (n : N) : ascii :=
  if n <? 10 then ascii_of_N (48 + n) else ascii_of_N (87 + n).

Fixpoint hex_of_bytes (bs : list N) : string :=
  match bs with
  | [] => EmptyString
  | b :: r =>
      String (hex_digit (N.shiftr b 4))
        (String (hex_digit (N.land b 0xF)) (hex_of_bytes r))
  end.

(** [crypto.createHash('sha256').update(s, 'utf-8').digest('hex')]. *)
Definition hex (s : string) : string :=
  hex_of_bytes (flat_map (be_bytes 4) (digest_words (bytes_of_string s))).

End Sha256.


(* ================================================================== *)
(** * Core types ([types.ts])                                          *)
(* ================================================================== *)

Inductive AssetKind : Type := prompt | skill | instruction.

Inductive Provider : Type := github | azure.

(** ** Consumer configuration ([.parca-assets.yaml]) *)

Record ParcaSource : Type := mkSource {
  source_provider : Provider;
  source_url : string
}.

Record ParcaAssetEntry : Type := mkEntry {
  entry_id : string;
  entry_source : string;
  entry_version : string;
  entry_mapping : option string
}.

Record ParcaConfig : Type := mkConfig {
  config_schema : string;
  config_sources : JS.Obj ParcaSource;
  config_assets : list ParcaAssetEntry
}.

(** ** Source manifest ([parca-manifest.yaml]) *)

Record ParcaManifestVersion : Type := mkVersion {
  version_ref : option string;
  version_path : string;
  version_runtime : option string
}.

Record ParcaManifestAsset : Type := mkAsset {
  asset_kind : AssetKind;
  asset_description : option string;
  asset_versions : JS.Obj ParcaManifestVersion
}.

Record ParcaManifest : Type := mkManifest {
  manifest_schema : string;
  manifest_versionStrategy : option (option string);
  manifest_assets : JS.Obj ParcaManifestAsset
}.

(** ** Lockfile ([.parca-assets.lock]) *)

Record ParcaLockedAsset : Type := mkLocked {
  locked_id : string;
  locked_version : string;
  locked_source : string;
  locked_commit : string;
  locked_sha256 : string;
  locked_manifestHash : string;
  locked_resolvedAt : string
}.

Record ParcaLockfile : Type := mkLockfile {
  lockfile_assets : list ParcaLockedAsset
}.

(** ** Resolution results *)

Record ResolvedAsset : Type := mkResolved {
  resolved_id : string;
  resolved_version : string;
  resolved_source : string;
  resolved_commit : string;
  resolved_sha256 : string;
  resolved_content : string;
  resolved_cachePath : string;
  resolved_mapping : option string
}.

(** The two shapes [install] returns. *)
Inductive InstallResult : Type :=
| Installed (resolved : ResolvedAsset)
| AlreadyInstalled (existing : ParcaAssetEntry) (selectedVersion : string).

(** ** Remote listing *)

Record RemoteAssetInfo : Type := mkInfo {
  info_id : string;
  info_kind : AssetKind;
  info_description : string;
  info_latestVersion : string;
  info_versions : list string;
  info_resolvedCommit : option string
}.

Record GitDirectoryFile : Type := mkFile {
  file_path : string;
  file_content : string
}.

Definition kind_eqb (a b : AssetKind) : bool :=
  match a, b with
  | prompt, prompt | skill, skill | instruction, instruction => true
  | _, _ => false
  end.

(* ================================================================== *)
(** * Errors, the outside world and the monad                          *)
(* ================================================================== *)

(** The errors the engine throws, with the data their messages print. *)
Inductive Error : Type :=
| AssetNotFound (assetId : string) (available : list string)
| NoMatchingVersion (versionRange assetId : string) (versions : list string)
| AssetNotInManifest (assetId : string)
| VersionNotFound (version assetId : string)
| MissingSkillEntry (assetId path : string)
| IntegrityMismatch (assetId version expected actual : string)
| ConfigNotFound (configPath : string)
| ConfigInvalid (message : string)
| ManifestInvalid (message : string)
| DuplicateVersion (version assetId : string)
| ExternalError (message : string).

(** [err.message]. *)
Definition message (e : Error) : string :=
  match e with
  | AssetNotFound assetId available =>
      "Asset " ++ JS.quoted assetId ++ " not found in manifest. Available: "
      ++ JS.join ", " available
  | NoMatchingVersion versionRange assetId versions =>
      "No version matching " ++ JS.quoted versionRange
      ++ " found for asset " ++ JS.quoted assetId ++ ". Available: "
      ++ JS.join ", " versions
  | AssetNotInManifest assetId =>
      "Asset " ++ JS.quoted assetId ++ " not found in manifest."
  | VersionNotFound version assetId =>
      "Version " ++ JS.quoted version ++ " not found for asset "
      ++ JS.quoted assetId ++ "."
  | MissingSkillEntry assetId path =>
      "Skill " ++ JS.quoted assetId ++ " is missing SKILL.md in " ++ path
  | IntegrityMismatch assetId version expected actual =>
      "Integrity mismatch for " ++ JS.quoted (assetId ++ "@" ++ version)
      ++ ": expected SHA-256 " ++ expected ++ ", got " ++ actual ++ ". "
      ++ "This may indicate the content of the version changed in the source registry. "
      ++ "Run " ++ JS.quoted "PARCA: Install" ++ " again and choose "
      ++ JS.quoted "Replace" ++ " to accept the new content."
  | ConfigNotFound configPath =>
      "PARCA config not found at " ++ configPath
      ++ ". Run 'PARCA: Install Asset' to create one."
  | ConfigInvalid m => m
  | ManifestInvalid m => m
  | DuplicateVersion version assetId =>
      "Version " ++ version ++ " of asset " ++ assetId
      ++ " is already defined in the manifest."
  | ExternalError m => m
  end%string.

(** The answer of an external collaborator: a value, or a rejection with the
    message of its error. *)
Inductive Reply (A : Type) : Type :=
| Found (a : A)
| Failed (message : string).
Arguments Found {A} a.
Arguments Failed {A} message.

(** A remote source repository as the Git host serves it. *)
Record Repository : Type := mkRepository {
  repo_resolveRef : string -> Reply string;
  repo_fetchFile : string -> string -> Reply string;
  repo_fetchDirectory : string -> string -> Reply (list GitDirectoryFile)
}.

(** What a run finds around it: the remote repositories by URL, the clock,
    the two directories it works in (absolute paths in normal form), and
    the paths that exist outside the cache, which a run does not change. *)
Class Env : Type := mkEnv {
  remote : string -> Repository;
  now : string;
  cacheRoot : string;
  workspaceRoot : string;
  outside : string -> bool
}.

(** The library functions the sources call and the repository does not
    define. *)
Class Libs : Type := mkLibs {
  (** [new Range(r).test(v)] of [semver], for the ranges other than [*] *)
  rangeTest : string -> Semver.SemVer -> bool;
  (** [yaml.load] on the text of a manifest *)
  yaml_load_manifest : string -> Reply ParcaManifest;
  (** [JSON.stringify] on a manifest and on a configuration entry *)
  JSON_stringify : ParcaManifest -> string;
  JSON_stringify_entry : ParcaAssetEntry -> string;
  (** [new URL(url).pathname]; [None] where the constructor throws *)
  URL_pathname : string -> option string
}.

(** A call the engine makes to the outside, or a report to the progress
    sink. *)
Inductive Event : Type :=
| ResolveRef (url ref : string)
| FetchFile (url path ref : string)
| FetchDirectory (url path ref : string)
| AssetStart (id version : string)
| AssetDone (id version : string)
| AssetError (id error : string).

Definition CacheKey : Type := (string * string * string)%type.

(** A directory of the cache: its files by relative path. *)
Definition Dir : Type := JS.Obj string.

(** The mutable state: the files of the consumer workspace, the cache, and
    the log of the calls made so far (oldest first). [symlinks] are the
    symbolic links of the workspace with their destinations, by their path
    relative to the workspace root; the workspace holds nothing else at the
    paths the engine links. *)
Record World : Type := mkWorld {
  configFile : option ParcaConfig;
  lockfileFile : option ParcaLockfile;
  cache : list (CacheKey * Dir);
  symlinks : JS.Obj string;
  gitignore : option string;
  trace : list Event
}.

Inductive Result (A : Type) : Type :=
| Ok (a : A)
| Throw (e : Error).
Arguments Ok {A} a.
Arguments Throw {A} e.

Definition M (A : Type) : Type := World -> Result A * World.

Definition ret {A} (a : A) : M A := fun w => (Ok a, w).

Definition throw {A} (e : Error) : M A := fun w => (Throw e, w).

Definition bind {A B} (c : M A) (k : A -> M B) : M B :=
  fun w =>
    match c w with
    | (Ok a, w') => k a w'
    | (Throw e, w') => (Throw e, w')
    end.

(** [try { c } catch (err) { h err }]. *)
Definition try_catch {A} (c : M A) (h : Error -> M A) : M A :=
  fun w =>
    match c w with
    | (Ok a, w') => (Ok a, w')
    | (Throw e, w') => h e w'
    end.

Declare Scope monad_scope.
Delimit Scope monad_scope with monad.
Notation "x <- c ;; k" := (bind c (fun x => k))
  (at level 61, c at next level, right associativity) : monad_scope.
Notation "c ;;; k" := (bind c (fun _ => k))
  (at level 61, right associativity) : monad_scope.
Open Scope monad_scope.

Definition get_world : M World := fun w => (Ok w, w).

Definition modify (f : World -> World) : M unit := fun w => (Ok tt, f w).

Definition add_event (e : Event) (w : World) : World :=
  mkWorld (configFile w) (lockfileFile w) (cache w) (symlinks w) (gitignore w)
    (trace w ++ [e]).

Definition log (e : Event) : M unit := modify (add_event e).

Definition set_configFile (c : option ParcaConfig) (w : World) : World :=
  mkWorld c (lockfileFile w) (cache w) (symlinks w) (gitignore w) (trace w).

Definition set_lockfileFile (l : option ParcaLockfile) (w : World) : World :=
  mkWorld (configFile w) l (cache w) (symlinks w) (gitignore w) (trace w).

Definition set_cache (c : list (CacheKey * Dir)) (w : World) : World :=
  mkWorld (configFile w) (lockfileFile w) c (symlinks w) (gitignore w) (trace w).

Definition set_symlinks (s : JS.Obj string) (w : World) : World :=
  mkWorld (configFile w) (lockfileFile w) (cache w) s (gitignore w) (trace w).

Definition set_gitignore (g : option string) (w : World) : World :=
  mkWorld (configFile w) (lockfileFile w) (cache w) (symlinks w) g (trace w).

(** An awaited call to a collaborator: a rejection is thrown. *)
Definition await {A} (r : Reply A) : M A :=
  match r with
  | Found a => ret a
  | Failed m => throw (ExternalError m)
  end.

(** [path.join], on segments that need no normalisation. *)
Definition path_join (segments : list string) : string :=
  JS.join "/" segments.

(** A path segment that [path.join] and [path.relative] leave as it is: not
    empty, not [.] or [..], and without separator (the backslash, which
    separates on Windows and is replaced where the sources normalise, is
    left out as well). *)
Definition plain_segment (s : string) : bool :=
  negb (s =? "")%string && negb (s =? ".")%string && negb (s =? "..")%string
  && negb (JS.includes s "/") && negb (JS.includes s JS.backslash).

(** A relative path in normal form: plain segments separated by [/]. *)
Definition normal_path (p : string) : bool :=
  forallb plain_segment (JS.split "/" p).

(* ================================================================== *)
(** * GitProvider ([gitProvider.ts])                                   *)
(* ================================================================== *)

(** The transport (REST calls, credentials) is outside the model: a call
    is logged and answered by the [Repository] of the environment. *)
Module GitProvider.

Record t : Type := mk {
  provider : Provider;
  repoUrl : string
}.

Section Calls.
Context {env : Env}.

Definition resolveRef (git : t) (ref : string) : M string :=
  log (ResolveRef (repoUrl git) ref) ;;;
  await (repo_resolveRef (remote (repoUrl git)) ref).

Definition fetchFile (git : t) (filePath ref : string) : M string :=
  log (FetchFile (repoUrl git) filePath ref) ;;;
  await (repo_fetchFile (remote (repoUrl git)) filePath ref).

Definition fetchDirectory (git : t) (dirPath ref : string)
  : M (list GitDirectoryFile) :=
  log (FetchDirectory (repoUrl git) dirPath ref) ;;;
  await (repo_fetchDirectory (remote (repoUrl git)) dirPath ref).

End Calls.

(** ** The repository named by the URL *)

Section Urls.
Context {L : Libs}.

(** [pathname.split('/').filter(Boolean)]. *)
Definition segments (pathname : string) : list string :=
  filter (fun p => negb (p =? "")%string) (JS.split "/" pathname).

(** [parseGitHubRepo]: the owner and the repository, the first two segments
    of the path. The error of the [URL] constructor is an [ExternalError]. *)
Definition parseGitHubRepo (git : t) : Result (string * string) :=
  match URL_pathname (repoUrl git) with
  | None => Throw (ExternalError "Invalid URL")
  | Some pathname =>
      let parts := segments (JS.strip_suffix pathname ".git") in
      if (List.length parts <? 2)%nat
      then Throw (ExternalError ("Invalid GitHub URL: " ++ repoUrl git))
      else Ok (nth 0 parts EmptyString, nth 1 parts EmptyString)
  end.

(** [parseAzureRepo], for the format
    [https://dev.azure.com/{org}/{project}/_git/{repo}]: the organisation,
    the project, and the segment after [_git], which is [undefined] when
    [_git] comes last. *)
Definition parseAzureRepo (git : t)
  : Result (string * string * option string) :=
  match URL_pathname (repoUrl git) with
  | None => Throw (ExternalError "Invalid URL")
  | Some pathname =>
      let parts := segments pathname in
      match JS.array_indexOf parts "_git" with
      | None => Throw (ExternalError ("Invalid Azure DevOps URL: " ++ repoUrl git))
      | Some gitIdx =>
          if (gitIdx <? 2)%nat
          then Throw (ExternalError ("Invalid Azure DevOps URL: " ++ repoUrl git))
          else Ok (nth 0 parts EmptyString, nth 1 parts EmptyString,
                   nth_error parts (gitIdx + 1))
      end
  end.

End Urls.
End GitProvider.

(* ================================================================== *)
(** * ManifestResolver ([manifestResolver.ts])                         *)
(* ================================================================== *)

Module ManifestResolver.

Definition MANIFEST_FILENAME : string := "parca-manifest.yaml".

Section Calls.
Context {env : Env} {L : Libs}.

(** The checks on [kind] and [versions] hold by typing. *)
Definition validate (manifest : ParcaManifest) : M unit :=
  if (manifest_schema manifest =? "")%string
  then throw (ManifestInvalid ("Manifest missing " ++ JS.quoted "schema" ++ " field."))
  else ret tt.

Definition fetchManifest (gitProvider : GitProvider.t) (ref : string)
  : M ParcaManifest :=
  content <- GitProvider.fetchFile gitProvider MANIFEST_FILENAME ref ;;
  manifest <- await (yaml_load_manifest content) ;;
  validate manifest ;;;
  ret manifest.

End Calls.

(** [versions[versions.length - 1]]. *)
Definition last_version (versions : list string) : option string :=
  match versions with
  | [] => None
  | _ :: _ => nth_error versions (List.length versions - 1)
  end.

(** List all assets from a manifest, optionally filtered by kind. The
    commit of the listing is filled in by the caller. *)
Definition listAssets (manifest : ParcaManifest) (kindFilter : option AssetKind)
  : list RemoteAssetInfo :=
  flat_map
    (fun e : string * ParcaManifestAsset =>
       let (id, asset) := e in
       if match kindFilter with
          | Some k => negb (kind_eqb (asset_kind asset) k)
          | None => false
          end
       then []
       else
         let versions := JS.sort (JS.keys (asset_versions asset)) in
         [mkInfo id (asset_kind asset)
            (JS.or_default (asset_description asset) EmptyString)
            (JS.or_default (last_version versions) "unknown")
            versions None])
    (JS.entries (manifest_assets manifest)).

End ManifestResolver.

(* ================================================================== *)
(** * CacheManager ([cacheManager.ts])                                 *)
(* ================================================================== *)

Module CacheManager.

(** A path below the cache root: the directory of an asset version, or a
    file inside it. A cache directory is the map from the relative paths of
    its files to their contents. The directories of two keys are taken to
    be apart, and a write to find its parent directory and no directory in
    its place: this is so for keys of plain segments ([plain_key]) and for
    files that form a tree ([tree_paths]), and the theorems about the
    writes are stated for these. *)
Inductive CachePath : Type :=
| DirPath (key : CacheKey)
| FilePath (key : CacheKey) (name : string).

Definition plain_key (k : CacheKey) : bool :=
  let '(s, i, v) := k in
  plain_segment s && plain_segment i && plain_segment v.

(** A cache whose directories all lie under keys of plain segments: the
    model of a cache directory in which every asset version has a directory
    of its own, three levels below the root. *)
Definition plain_cache (c : list (CacheKey * Dir)) : Prop :=
  forall k d, In (k, d) c -> plain_key k = true.

(** Relative paths in normal form of which none lies below another. *)
Definition tree_paths (paths : list string) : Prop :=
  (forall p, In p paths -> normal_path p = true) /\
  (forall p q, In p paths -> In q paths ->
               String.prefix (p ++ "/") q = false).

Definition key_eqb (a b : CacheKey) : bool :=
  let '(s, i, v) := a in
  let '(s', i', v') := b in
  ((s =? s') && (i =? i') && (v =? v'))%string.

Fixpoint lookup_dir (c : list (CacheKey * Dir)) (k : CacheKey) : option Dir :=
  match c with
  | [] => None
  | (k', d) :: r => if key_eqb k' k then Some d else lookup_dir r k
  end.

Fixpoint store_dir (c : list (CacheKey * Dir)) (k : CacheKey) (d : Dir)
  : list (CacheKey * Dir) :=
  match c with
  | [] => [(k, d)]
  | (k', d') :: r =>
      if key_eqb k' k then (k, d) :: r else (k', d') :: store_dir r k d
  end.

(** The first segment of a relative path. *)
Definition top_name (p : string) : string := fst (Semver.cut "/" p).

(** [fs.readdirSync(dir)]: the names directly inside the directory. *)
Definition readdir (d : Dir) : list string :=
  nodup string_dec (map (fun f => top_name (fst f)) d).

(** [fs.existsSync]. *)
Definition existsSync (w : World) (p : CachePath) : bool :=
  match p with
  | DirPath k =>
      match lookup_dir (cache w) k with Some _ => true | None => false end
  | FilePath k name =>
      match lookup_dir (cache w) k with
      | Some d => match JS.get d name with Some _ => true | None => false end
      | None => false
      end
  end.

(** [fs.readFileSync(p, 'utf-8')] of a file of the cache. *)
Definition readFileSync (w : World) (k : CacheKey) (name : string)
  : option string :=
  match lookup_dir (cache w) k with
  | Some d => JS.get d name
  | None => None
  end.

Section Calls.
Context {env : Env}.

Definition path_string (p : CachePath) : string :=
  match p with
  | DirPath (s, i, v) => path_join [cacheRoot; s; i; v]
  | FilePath (s, i, v) name => path_join [cacheRoot; s; i; v; name]
  end.

(** [fs.existsSync] of a path given as a string, such as the destination
    of a link: the directory of a cached asset version, a file in it, a
    directory on the way to one of them, or a path that exists outside the
    cache. *)
Definition leads_to (p full : string) : bool :=
  (full =? p)%string || String.prefix (p ++ "/") full.

Definition existsPath (w : World) (p : string) : bool :=
  (negb (p =? "")%string
   && existsb
        (fun e : CacheKey * Dir =>
           leads_to p (path_string (DirPath (fst e)))
           || existsb (fun f : string * string =>
                         leads_to p (path_string (FilePath (fst e) (fst f))))
                (snd e))
        (cache w))
  || outside p.

(** The cache directory of an asset version. *)
Definition getAssetDir (sourceAlias assetId version : string) : CacheKey :=
  (sourceAlias, assetId, version).

(** The path of a cached asset: the directory itself for a skill, the file
    [<assetId>.md] inside it otherwise. *)
Definition getAssetPath (sourceAlias assetId version : string)
    (kind : AssetKind) : CachePath :=
  let dir := getAssetDir sourceAlias assetId version in
  match kind with
  | skill => DirPath dir
  | _ => FilePath dir (assetId ++ ".md")
  end.

(** [computeHashFromString]: SHA-256 of the LF-normalised text. *)
Definition computeHashFromString (content : string) : string :=
  Sha256.hex (JS.replace_crlf content).

(** [computeDirectoryHash]: the files in the order of their paths; for each
    the relative path with [/] for every backslash, then the normalised
    content. *)
Definition computeDirectoryHash (d : Dir) : string :=
  let files := JS.sort_by (fun a b => JS.leb (fst a) (fst b)) d in
  Sha256.hex
    (String.concat EmptyString
       (map (fun f => (JS.slashes (fst f) ++ JS.replace_crlf (snd f))%string)
          files)).

(** [computeHash(targetPath)] of an existing path; [None] where [statSync]
    or [readFileSync] throws. *)
Definition computeHash (w : World) (p : CachePath) : option string :=
  match p with
  | DirPath k => option_map computeDirectoryHash (lookup_dir (cache w) k)
  | FilePath k name => option_map computeHashFromString (readFileSync w k name)
  end.

(** Whether a cached copy exists and matches the expected hash. An absent or
    empty [expectedSha256] skips the comparison. *)
Definition isCached (w : World) (sourceAlias assetId version : string)
    (kind : AssetKind) (expectedSha256 : option string) : bool :=
  let assetPath := getAssetPath sourceAlias assetId version kind in
  if negb (existsSync w assetPath) then false
  else if (match kind with
           | skill =>
               match lookup_dir (cache w)
                       (getAssetDir sourceAlias assetId version) with
               | Some d =>
                   negb (existsb (fun f => (JS.toLowerCase f =? "skill.md")%string)
                           (readdir d))
               | None => true
               end
           | _ => false
           end) then false
  else if JS.truthy expectedSha256 then
    match computeHash w assetPath, expectedSha256 with
    | Some actualHash, Some expected => (actualHash =? expected)%string
    | _, _ => false
    end
  else true.

(** [fs.mkdirSync(dir, { recursive: true })]. *)
Definition mkdir (k : CacheKey) : M unit :=
  modify (fun w =>
    match lookup_dir (cache w) k with
    | Some _ => w
    | None => set_cache (store_dir (cache w) k []) w
    end).

(** [fs.writeFileSync] of a file of a cache directory. *)
Definition writeFile (k : CacheKey) (name content : string) : M unit :=
  modify (fun w =>
    match lookup_dir (cache w) k with
    | Some d => set_cache (store_dir (cache w) k (JS.set d name content)) w
    | None => set_cache (store_dir (cache w) k [(name, content)]) w
    end).

(** [fs.rmSync(dir, { recursive: true, force: true })]. *)
Definition rmdir (k : CacheKey) : M unit :=
  modify (fun w =>
    set_cache (filter (fun e => negb (key_eqb (fst e) k)) (cache w)) w).

(** Write a single file to the cache; returns its path and hash. *)
Definition writeToCache (sourceAlias assetId version content : string)
  : M (string * string) :=
  let dir := getAssetDir sourceAlias assetId version in
  mkdir dir ;;;
  let normalized := JS.replace_crlf content in
  let filePath := getAssetPath sourceAlias assetId version prompt in
  writeFile dir (assetId ++ ".md") normalized ;;;
  let sha256 := computeHashFromString normalized in
  ret (path_string filePath, sha256).

Fixpoint writeFiles (dir : CacheKey) (files : list GitDirectoryFile) : M unit :=
  match files with
  | [] => ret tt
  | file :: rest =>
      writeFile dir (file_path file) (JS.replace_crlf (file_content file)) ;;;
      writeFiles dir rest
  end.

(** Write a directory of files to the cache, replacing what was there;
    returns its path and hash. *)
Definition writeDirectoryToCache (sourceAlias assetId version : string)
    (files : list GitDirectoryFile) : M (string * string) :=
  let dir := getAssetDir sourceAlias assetId version in
  rmdir dir ;;;
  mkdir dir ;;;
  writeFiles dir files ;;;
  w <- get_world ;;
  match computeHash w (DirPath dir) with
  | Some sha256 => ret (path_string (DirPath dir), sha256)
  | None => throw (ExternalError "ENOENT")
  end.

(** Read a cached asset: the file, or for a skill its [SKILL.md]. *)
Definition readFromCache (w : World) (sourceAlias assetId version : string)
    (kind : AssetKind) : option string :=
  let assetPath := getAssetPath sourceAlias assetId version kind in
  if negb (existsSync w assetPath) then None
  else
    let dir := getAssetDir sourceAlias assetId version in
    match kind with
    | skill =>
        match lookup_dir (cache w) dir with
        | Some d =>
            match find (fun f => (JS.toLowerCase f =? "skill.md")%string)
                    (readdir d) with
            | Some skillFile => readFileSync w dir skillFile
            | None => None
            end
        | None => None
        end
    | _ => readFileSync w dir (assetId ++ ".md")
    end.

(** Clear the entire cache. *)
Definition clearAll : M unit := modify (set_cache []).

End Calls.
End CacheManager.

(* ================================================================== *)
(** * LockfileManager ([lockfileManager.ts])                           *)
(* ================================================================== *)

Module LockfileManager.

(** Load the lockfile; an absent file is the empty lockfile. *)
Definition load : M ParcaLockfile :=
  w <- get_world ;;
  match lockfileFile w with
  | Some l => ret l
  | None => ret (mkLockfile [])
  end.

Definition save (lockfile : ParcaLockfile) : M unit :=
  modify (set_lockfileFile (Some lockfile)).

Definition same_key (id source : string) (a : ParcaLockedAsset) : bool :=
  ((locked_id a =? id) && (locked_source a =? source))%string.

(** Find a locked asset by id and source. *)
Definition findAsset (lockfile : ParcaLockfile) (id source : string)
  : option ParcaLockedAsset :=
  find (same_key id source) (lockfile_assets lockfile).

(** Update or add a locked asset entry. *)
Definition upsertAsset (lockfile : ParcaLockfile) (entry : ParcaLockedAsset)
  : ParcaLockfile :=
  mkLockfile
    (filter (fun a => negb (same_key (locked_id entry) (locked_source entry) a))
       (lockfile_assets lockfile)
     ++ [entry]).

(** Remove a locked asset entry. *)
Definition removeAsset (lockfile : ParcaLockfile) (id source : string)
  : ParcaLockfile :=
  mkLockfile
    (filter (fun a => negb (same_key id source a)) (lockfile_assets lockfile)).

End LockfileManager.

(* ================================================================== *)
(** * ConfigLoader ([configLoader.ts])                                 *)
(* ================================================================== *)

Module ConfigLoader.

Definition CONFIG_FILENAME : string := ".parca-assets.yaml".

(** Infer the Git provider from a URL. *)
Definition inferProvider (url : string) : Provider :=
  if JS.includes url "dev.azure.com" || JS.includes url "visualstudio.com"
  then azure else github.

Section Calls.
Context {env : Env} {L : Libs}.

Definition configPath : string := path_join [workspaceRoot; CONFIG_FILENAME].

Definition exists_ (w : World) : bool :=
  match configFile w with Some _ => true | None => false end.

(** The first complaint of [validate] about the assets, if any. *)
Fixpoint check_assets (config : ParcaConfig) (assets : list ParcaAssetEntry)
  : option Error :=
  match assets with
  | [] => None
  | asset :: rest =>
      if ((entry_id asset =? "") || (entry_source asset =? "")
          || (entry_version asset =? ""))%string
      then Some (ConfigInvalid
                   ("PARCA asset entry missing required fields (id, source, version): "
                    ++ JSON_stringify_entry asset))
      else
        match JS.get (config_sources config) (entry_source asset) with
        | None =>
            Some (ConfigInvalid
                    ("PARCA asset " ++ JS.quoted (entry_id asset)
                     ++ " references undefined source "
                     ++ JS.quoted (entry_source asset) ++ "."))
        | Some _ => check_assets config rest
        end
  end.

(** The error [validate] throws, if any. The checks on the types of
    [sources] and [assets] hold by typing. *)
Definition check (config : ParcaConfig) : option Error :=
  if (config_schema config =? "")%string
  then Some (ConfigInvalid
               ("PARCA config missing " ++ JS.quoted "schema" ++ " field."))
  else check_assets config (config_assets config).

Definition validate (config : ParcaConfig) : M unit :=
  match check config with
  | Some e => throw e
  | None => ret tt
  end.

(** Load and parse the config. Returns a validated [ParcaConfig]. *)
Definition load : M ParcaConfig :=
  w <- get_world ;;
  match configFile w with
  | None => throw (ConfigNotFound configPath)
  | Some parsed => validate parsed ;;; ret parsed
  end.

(** Write a [ParcaConfig] back to disk. *)
Definition save (config : ParcaConfig) : M unit :=
  modify (set_configFile (Some config)).

(** Create a fresh config file with empty sources and assets. *)
Definition init : M ParcaConfig :=
  let config := mkConfig "1.0" [] [] in
  save config ;;;
  ret config.

(** Derive an alias from the URL: the organisation segment of its path. *)
Definition deriveAlias (url : string) : string :=
  match URL_pathname url with
  | Some pathname =>
      let parts :=
        filter (fun p => negb (p =? "")%string)
          (JS.split "/" (JS.strip_suffix pathname ".git")) in
      if (2 <=? List.length parts)%nat
      then nth (List.length parts - 2) parts EmptyString
      else match JS.or_else (nth_error parts 0) (Some "default") with
           | Some a => a
           | None => "default"
           end
  | None => "default"
  end.

(** Add a source if not already registered. Returns the config and the
    alias used. *)
Definition ensureSource (url : string) (provider : Provider)
  : M (ParcaConfig * string) :=
  config <- try_catch load (fun _ => init) ;;
  match find (fun e => (source_url (snd e) =? url)%string)
          (JS.entries (config_sources config)) with
  | Some (alias, _) => ret (config, alias)
  | None =>
      let alias := deriveAlias url in
      let config :=
        mkConfig (config_schema config)
          (JS.set (config_sources config) alias (mkSource provider url))
          (config_assets config) in
      save config ;;;
      ret (config, alias)
  end.

(** Add an asset entry, replacing an existing entry for the same id and
    source. Returns the updated config. *)
Definition addAsset (config : ParcaConfig) (entry : ParcaAssetEntry)
  : M ParcaConfig :=
  let config :=
    mkConfig (config_schema config) (config_sources config)
      (filter (fun a => negb ((entry_id a =? entry_id entry)
                              && (entry_source a =? entry_source entry))%string)
         (config_assets config)
       ++ [entry]) in
  save config ;;;
  ret config.

(** Get all installed asset entries. *)
Definition getInstalledAssets : M (list ParcaAssetEntry) :=
  w <- get_world ;;
  if negb (exists_ w) then ret []
  else config <- load ;; ret (config_assets config).

End Calls.
End ConfigLoader.

(* ================================================================== *)
(** * WorkspaceMapper ([workspaceMapper.ts])                           *)
(* ================================================================== *)

Module WorkspaceMapper.

Definition marker : string := "# PARCA managed assets".

(** The link target, relative to the workspace root ([path.join] on a
    mapping in normal form). *)
Definition targetPath (mapping assetId : string) (kind : AssetKind) : string :=
  if JS.endsWith mapping "/" || JS.endsWith mapping JS.backslash then
    let dir := if JS.endsWith mapping "/" then mapping
               else (mapping ++ "/")%string in
    match kind with
    | skill => (dir ++ assetId)%string
    | _ => (dir ++ assetId ++ ".md")%string
    end
  else mapping.

(** Ensure a path is listed in the workspace [.gitignore], under the PARCA
    marker. [targetPath] is given relative to the workspace root, as
    [path.relative] returns it for a path in normal form. *)
Definition ensureGitignored (targetPath : string) : M unit :=
  let relativePath := JS.slashes targetPath in
  w <- get_world ;;
  let content := match gitignore w with Some c => c | None => EmptyString end in
  if JS.includes content relativePath then ret tt
  else
    let content :=
      if JS.includes content marker then content
      else (content ++ JS.nl ++ marker ++ JS.nl)%string in
    let markerIdx := match JS.indexOf content marker with
                     | Some n => n
                     | None => 0
                     end in
    let insertPos := markerIdx + String.length marker in
    let before := String.substring 0 insertPos content in
    let after := String.substring insertPos (String.length content - insertPos)
                   content in
    modify (set_gitignore (Some (before ++ JS.nl ++ relativePath ++ after)%string)).

Section Calls.
Context {env : Env}.

(** [fs.existsSync] of a path of the workspace. It follows links: a link
    whose destination is gone does not exist. *)
Definition existsSync (w : World) (target : string) : bool :=
  match JS.get (symlinks w) target with
  | Some destination => CacheManager.existsPath w destination
  | None => false
  end.

(** [fs.symlinkSync(cachedPath, targetPath)]: refused when the target path
    is taken. *)
Definition symlink (cachedPath target : string) : M unit :=
  w <- get_world ;;
  match JS.get (symlinks w) target with
  | Some _ =>
      throw (ExternalError
               ("EEXIST: file already exists, symlink '" ++ cachedPath
                ++ "' -> '" ++ path_join [workspaceRoot; target] ++ "'"))
  | None => modify (set_symlinks (JS.set (symlinks w) target cachedPath))
  end.

(** [fs.unlinkSync]. *)
Definition unlink (target : string) : M unit :=
  modify (fun w => set_symlinks (JS.delete (symlinks w) target) w).

(** Create a symlink from the cached file or directory to the mapping
    location. What [existsSync] finds at the target is removed first; a
    link whose destination is gone is not found, and then the link cannot
    be made. Returns the absolute path of the link. *)
Definition createSymlink (cachedPath mapping assetId : string)
    (kind : AssetKind) : M string :=
  let target := targetPath mapping assetId kind in
  w <- get_world ;;
  (if existsSync w target then unlink target else ret tt) ;;;
  symlink cachedPath target ;;;
  ensureGitignored target ;;;
  ret (path_join [workspaceRoot; target]).



End Calls.

End WorkspaceMapper.

(* ================================================================== *)
(** * AssetResolver ([assetResolver.ts])                               *)
(* ================================================================== *)

Module AssetResolver.

Section Calls.
Context {env : Env} {L : Libs}.

(** Credentials are part of the transport and not modelled. *)
Definition createGitProvider (provider : Provider) (url : string)
  : GitProvider.t :=
  GitProvider.mk provider url.

Definition getDefaultMapping (kind : AssetKind) (assetId : string) : string :=
  match kind with
  | prompt => ".github/prompts/" ++ assetId ++ ".prompt.md"
  | instruction => ".github/instructions/" ++ assetId ++ ".instructions.md"
  | skill => ".github/skills/" ++ assetId ++ "/SKILL.md"
  end%string.

(** The version selection of [install]: the selected version, and the array
    [versions] as the selection leaves it ([sort] and [reverse] work in
    place, and only run when [maxSatisfying] finds nothing). *)
Definition selectVersion (versions : list string) (versionRange : string)
  : option string * list string :=
  if (versionRange =? "latest")%string then
    let best := Semver.maxSatisfying rangeTest versions "*" in
    if JS.truthy best then (best, versions)
    else
      let sorted := JS.reverse (JS.sort versions) in
      (nth_error sorted 0, sorted)
  else (Semver.maxSatisfying rangeTest versions versionRange, versions).

(** The version matcher of [install]: the selected version, or the error
    thrown when the selection is falsy. *)
Definition pickVersion (assetId : string) (versions : list string)
    (versionRange : string) : Result string :=
  let '(selectedVersion, versions) := selectVersion versions versionRange in
  if negb (JS.truthy selectedVersion)
  then Throw (NoMatchingVersion versionRange assetId versions)
  else Ok (JS.or_default selectedVersion EmptyString).

(** [versionMeta.ref || manifestRef]: the explicit ref of the version, else
    the ref the manifest was fetched at. *)
Definition effectiveRef (versionMeta : ParcaManifestVersion)
    (manifestRef : string) : string :=
  JS.or_default (version_ref versionMeta) manifestRef.

(** The condition of the fast path: locked at this version and commit, no
    update allowed, and the cache matches the locked hash. *)
Definition fastPath (w : World) (locked : option ParcaLockedAsset)
    (entry : ParcaAssetEntry) (commit : string) (kind : AssetKind)
    (allowUpdate : bool) : bool :=
  match locked with
  | Some l =>
      (locked_version l =? entry_version entry)%string
      && (locked_commit l =? commit)%string
      && negb allowUpdate
      && CacheManager.isCached w (entry_source entry) (entry_id entry)
           (entry_version entry) kind (Some (locked_sha256 l))
  | None => false
  end.

(** [if (entry.mapping) this.workspaceMapper.createSymlink(...)]. *)
Definition linkIfMapped (entry : ParcaAssetEntry) (cachedPath : string)
    (kind : AssetKind) : M unit :=
  match entry_mapping entry with
  | Some mapping =>
      if (mapping =? "")%string then ret tt
      else WorkspaceMapper.createSymlink cachedPath mapping (entry_id entry) kind
           ;;; ret tt
  | None => ret tt
  end.

(** The fetch of the slow path: the content is fetched at [ref] and written
    to the cache; returns the hash, the cache path and the content. *)
Definition fetchAndCache (git : GitProvider.t) (entry : ParcaAssetEntry)
    (kind : AssetKind) (versionMeta : ParcaManifestVersion) (ref : string)
  : M (string * string * string) :=
  match kind with
  | skill =>
      files <- GitProvider.fetchDirectory git (version_path versionMeta) ref ;;
      match find (fun f => (JS.toLowerCase (file_path f) =? "skill.md")%string)
              files with
      | None =>
          throw (MissingSkillEntry (entry_id entry) (version_path versionMeta))
      | Some skillFile =>
          cacheResult <- CacheManager.writeDirectoryToCache (entry_source entry)
                           (entry_id entry) (entry_version entry) files ;;
          ret (snd cacheResult, fst cacheResult, file_content skillFile)
      end
  | _ =>
      content <- GitProvider.fetchFile git (version_path versionMeta) ref ;;
      cacheResult <- CacheManager.writeToCache (entry_source entry)
                       (entry_id entry) (entry_version entry) content ;;
      ret (snd cacheResult, fst cacheResult, content)
  end.

(** The integrity check against the lockfile. *)
Definition integrityGate (locked : option ParcaLockedAsset)
    (entry : ParcaAssetEntry) (sha256 : string) (allowUpdate : bool) : M unit :=
  match locked with
  | Some l =>
      if JS.truthy (Some (locked_sha256 l))
         && negb (locked_sha256 l =? sha256)%string
         && negb allowUpdate
      then throw (IntegrityMismatch (entry_id entry) (entry_version entry)
                    (locked_sha256 l) sha256)
      else ret tt
  | None => ret tt
  end.

Definition resolveAsset (entry : ParcaAssetEntry) (manifest : ParcaManifest)
    (git : GitProvider.t) (manifestRef : string) (allowUpdate : bool)
  : M ResolvedAsset :=
  match JS.get (manifest_assets manifest) (entry_id entry) with
  | None => throw (AssetNotInManifest (entry_id entry))
  | Some assetMeta =>
  match JS.get (asset_versions assetMeta) (entry_version entry) with
  | None => throw (VersionNotFound (entry_version entry) (entry_id entry))
  | Some versionMeta =>
      let ref := effectiveRef versionMeta manifestRef in
      commit <- GitProvider.resolveRef git ref ;;
      lockfile <- LockfileManager.load ;;
      let locked :=
        LockfileManager.findAsset lockfile (entry_id entry) (entry_source entry) in
      let kind := asset_kind assetMeta in
      w <- get_world ;;
      if fastPath w locked entry commit kind allowUpdate then
        let cachedPath :=
          CacheManager.path_string
            (CacheManager.getAssetPath (entry_source entry) (entry_id entry)
               (entry_version entry) kind) in
        linkIfMapped entry cachedPath kind ;;;
        w' <- get_world ;;
        ret (mkResolved (entry_id entry) (entry_version entry)
               (entry_source entry) commit
               (match locked with
                | Some l => locked_sha256 l
                | None => EmptyString
                end)
               (JS.or_default
                  (CacheManager.readFromCache w' (entry_source entry)
                     (entry_id entry) (entry_version entry) kind)
                  EmptyString)
               cachedPath (entry_mapping entry))
      else
        fetched <- fetchAndCache git entry kind versionMeta ref ;;
        let '(sha256, cachedPath, content) := fetched in
        integrityGate locked entry sha256 allowUpdate ;;;
        let manifestHash :=
          CacheManager.computeHashFromString (JSON_stringify manifest) in
        let lockedEntry :=
          mkLocked (entry_id entry) (entry_version entry) (entry_source entry)
            commit sha256 manifestHash now in
        LockfileManager.save (LockfileManager.upsertAsset lockfile lockedEntry) ;;;
        linkIfMapped entry cachedPath kind ;;;
        ret (mkResolved (entry_id entry) (entry_version entry)
               (entry_source entry) commit sha256 content cachedPath
               (entry_mapping entry))
  end
  end.

(** Install an asset from a remote source URL. Adds to config and
    resolves. *)
Definition install (url assetId versionRange : string) (forceReinstall : bool)
  : M InstallResult :=
  let provider := ConfigLoader.inferProvider url in
  let git := createGitProvider provider url in
  registryCommit <- GitProvider.resolveRef git "main" ;;
  manifest <- ManifestResolver.fetchManifest git registryCommit ;;
  match JS.get (manifest_assets manifest) assetId with
  | None =>
      throw (AssetNotFound assetId (JS.keys (manifest_assets manifest)))
  | Some assetMeta =>
      let versions := JS.keys (asset_versions assetMeta) in
      match pickVersion assetId versions versionRange with
      | Throw e => throw e
      | Ok version =>
          config <- ConfigLoader.load ;;
          let existing :=
            find (fun a => (entry_id a =? assetId)%string) (config_assets config) in
          match existing, forceReinstall with
          | Some existing, false => ret (AlreadyInstalled existing version)
          | _, _ =>
              sourced <- ConfigLoader.ensureSource url provider ;;
              let '(updatedConfig, alias) := sourced in
              let defaultMapping :=
                getDefaultMapping (asset_kind assetMeta) assetId in
              let entry := mkEntry assetId alias version (Some defaultMapping) in
              resolved <- resolveAsset entry manifest git registryCommit true ;;
              ConfigLoader.addAsset updatedConfig entry ;;;
              ret (Installed resolved)
          end
      end
  end.

(** ** Resolve all *)

Fixpoint pushGroup (bySource : list (string * list ParcaAssetEntry))
    (asset : ParcaAssetEntry) : list (string * list ParcaAssetEntry) :=
  match bySource with
  | [] => [(entry_source asset, [asset])]
  | (alias, assets) :: rest =>
      if (alias =? entry_source asset)%string
      then (alias, assets ++ [asset]) :: rest
      else (alias, assets) :: pushGroup rest asset
  end.

(** The [Map] from source alias to the assets declared for it, in the order
    the aliases first occur. *)
Definition groupBySource (assets : list ParcaAssetEntry)
  : list (string * list ParcaAssetEntry) :=
  fold_left pushGroup assets [].

(** The manifest revision of one asset: the locked commit when the lockfile
    pins the declared version, else [main]. *)
Definition manifestRefFor (lockfile : ParcaLockfile) (asset : ParcaAssetEntry)
  : string :=
  match LockfileManager.findAsset lockfile (entry_id asset) (entry_source asset) with
  | Some locked =>
      if (locked_version locked =? entry_version asset)%string
      then locked_commit locked else "main"
  | None => "main"
  end.

(** The body of the loop over the assets of one source. *)
Definition resolveOne (git : GitProvider.t) (lockfile : ParcaLockfile)
    (asset : ParcaAssetEntry) (results : list ResolvedAsset)
  : M (list ResolvedAsset) :=
  log (AssetStart (entry_id asset) (entry_version asset)) ;;;
  try_catch
    (let manifestRef := manifestRefFor lockfile asset in
     manifest <- ManifestResolver.fetchManifest git manifestRef ;;
     resolved <- resolveAsset asset manifest git manifestRef false ;;
     log (AssetDone (entry_id asset) (entry_version asset)) ;;;
     ret (results ++ [resolved]))
    (fun err =>
       log (AssetError (entry_id asset) (message err)) ;;;
       ret results).

Fixpoint resolveEach (git : GitProvider.t) (lockfile : ParcaLockfile)
    (assets : list ParcaAssetEntry) (results : list ResolvedAsset)
  : M (list ResolvedAsset) :=
  match assets with
  | [] => ret results
  | asset :: rest =>
      results <- resolveOne git lockfile asset results ;;
      resolveEach git lockfile rest results
  end.

Fixpoint reportUndefined (sourceAlias : string) (assets : list ParcaAssetEntry)
  : M unit :=
  match assets with
  | [] => ret tt
  | a :: rest =>
      log (AssetError (entry_id a)
             ("Source " ++ JS.quoted sourceAlias ++ " not defined.")) ;;;
      reportUndefined sourceAlias rest
  end.

Fixpoint resolveGroups (config : ParcaConfig) (lockfile : ParcaLockfile)
    (bySource : list (string * list ParcaAssetEntry))
    (results : list ResolvedAsset) : M (list ResolvedAsset) :=
  match bySource with
  | [] => ret results
  | (sourceAlias, assets) :: rest =>
      match JS.get (config_sources config) sourceAlias with
      | None =>
          reportUndefined sourceAlias assets ;;;
          resolveGroups config lockfile rest results
      | Some source =>
          let git := createGitProvider (source_provider source) (source_url source) in
          results <- resolveEach git lockfile assets results ;;
          resolveGroups config lockfile rest results
      end
  end.

(** Resolve all assets of the configuration, respecting the lockfile. The
    progress sink is the log. *)
Definition resolveAll : M (list ResolvedAsset) :=
  config <- ConfigLoader.load ;;
  lockfile <- LockfileManager.load ;;
  resolveGroups config lockfile (groupBySource (config_assets config)) [].

(** Get the list of currently installed assets. *)
Definition listInstalled : M (list ParcaAssetEntry) :=
  ConfigLoader.getInstalledAssets.

(** List assets from a remote source URL, optionally filtered by kind. *)
Definition listRemote (url : string) (kindFilter : option AssetKind)
  : M (list RemoteAssetInfo) :=
  let provider := ConfigLoader.inferProvider url in
  let git := createGitProvider provider url in
  registryCommit <- GitProvider.resolveRef git "main" ;;
  manifest <- ManifestResolver.fetchManifest git registryCommit ;;
  ret (map (fun a =>
              mkInfo (info_id a) (info_kind a) (info_description a)
                (info_latestVersion a) (info_versions a) (Some registryCommit))
         (ManifestResolver.listAssets manifest kindFilter)).

End Calls.
End AssetResolver.

(* ================================================================== *)
(** * Publisher ([publisher.ts])                                       *)
(* ================================================================== *)

Module Publisher.

(** The maintainer's side: the manifest object the caller holds, which
    [publishVersion] changes in place, and the file [parca-manifest.yaml]. *)
Record State : Type := mkState {
  manifestObject : ParcaManifest;
  manifestFile : option ParcaManifest
}.

Definition set_assets (manifest : ParcaManifest)
    (assets : JS.Obj ParcaManifestAsset) : ParcaManifest :=
  mkManifest (manifest_schema manifest) (manifest_versionStrategy manifest) assets.

Definition set_versions (asset : ParcaManifestAsset)
    (versions : JS.Obj ParcaManifestVersion) : ParcaManifestAsset :=
  mkAsset (asset_kind asset) (asset_description asset) versions.

Definition set_ref (v : ParcaManifestVersion) (ref : string)
  : ParcaManifestVersion :=
  mkVersion (Some ref) (version_path v) (version_runtime v).

Section Calls.
Context {L : Libs}.

(** [Object.keys(versions).filter(v => semver.valid(v))]. *)
Definition existingVersions (asset : ParcaManifestAsset) : list string :=
  filter Semver.valid (JS.keys (asset_versions asset)).

(** [semver.maxSatisfying(existing, '*') || existing.sort().reverse()[0]]. *)
Definition previousVersion (existing : list string) : option string :=
  JS.or_else (Semver.maxSatisfying rangeTest existing "*")
    (nth_error (JS.reverse (JS.sort existing)) 0).

(** Checkpointing: pin the previous version to the current HEAD.
    [head] is the output of [git rev-parse HEAD], [None] when the command
    fails (the failure is caught and only warned about). *)
Definition checkpoint (head : option string) (asset : ParcaManifestAsset)
  : ParcaManifestAsset :=
  let existing := existingVersions asset in
  if (0 <? List.length existing)%nat then
    match previousVersion existing with
    | Some previous =>
        match JS.get (asset_versions asset) previous with
        | Some previousMeta =>
            if negb (JS.truthy (version_ref previousMeta)) then
              match head with
              | Some output =>
                  set_versions asset
                    (JS.set (asset_versions asset) previous
                       (set_ref previousMeta (JS.trim output)))
              | None => asset
              end
            else asset
        | None => asset
        end
    | None => asset
    end
  else asset.

(** [if (!manifest.assets[assetId]) manifest.assets[assetId] = {...}]: the
    manifest with an asset under the id. A name inherited from
    [Object.prototype] is truthy, and no asset is created for it. *)
Definition ensureAsset (manifest : ParcaManifest) (assetId : string)
    (kind : AssetKind) : ParcaManifest :=
  match JS.member (manifest_assets manifest) assetId with
  | JS.Absent =>
      set_assets manifest
        (JS.set (manifest_assets manifest) assetId (mkAsset kind None []))
  | _ => manifest
  end.

(** The [TypeError] of reading a property of [undefined]. *)
Definition undefinedProperty (name : string) : Error :=
  ExternalError
    ("Cannot read properties of undefined (reading '" ++ name ++ "')").

(** Publish a new version of an asset. The result is the manifest as
    changed in place and saved, or the error thrown. The duplicate check
    reads [versions[version]], which is truthy for a declared version and
    for a name inherited from [Object.prototype]; under an inherited asset
    id there is no [versions] to read. *)
Definition publishVersion (head : option string) (manifest : ParcaManifest)
    (assetId version filePath : string) (kind : AssetKind)
  : Result ParcaManifest :=
  let manifest := ensureAsset manifest assetId kind in
  match JS.member (manifest_assets manifest) assetId with
  | JS.Own asset =>
      match JS.member (asset_versions asset) version with
      | JS.Absent =>
          let asset := checkpoint head asset in
          let asset :=
            set_versions asset
              (JS.set (asset_versions asset) version
                 (mkVersion None filePath None)) in
          Ok (set_assets manifest (JS.set (manifest_assets manifest) assetId asset))
      | _ => Throw (DuplicateVersion version assetId)
      end
  | _ => Throw (undefinedProperty version)
  end.

(** [publishVersion] on the state: the object is changed in place and, when
    the call returns, written to [parca-manifest.yaml]. An asset created
    for the id stays in the object when the call throws. *)
Definition publish (head : option string)
    (assetId version filePath : string) (kind : AssetKind) (s : State)
  : Result unit * State :=
  match publishVersion head (manifestObject s) assetId version filePath kind with
  | Ok m => (Ok tt, mkState m (Some m))
  | Throw e =>
      (Throw e,
       mkState (ensureAsset (manifestObject s) assetId kind) (manifestFile s))
  end.

(** ** The manifest file *)

(** Check if this workspace is a source repository. *)
Definition isSourceRepo (s : State) : bool :=
  match manifestFile s with Some _ => true | None => false end.

(** Load the manifest; [manifestPath] is the path the error names. *)
Definition loadManifest (manifestPath : string) (s : State)
  : Result ParcaManifest :=
  match manifestFile s with
  | Some m => Ok m
  | None =>
      Throw (ExternalError ("PARCA manifest not found at " ++ manifestPath ++ "."))
  end.

(** Save the manifest. *)
Definition saveManifest (manifest : ParcaManifest) (s : State) : State :=
  mkState (manifestObject s) (Some manifest).

(** Initialize a new source repository manifest. *)
Definition initManifest (s : State) : ParcaManifest * State :=
  let manifest := mkManifest "1.0" (Some (Some "v{{version}}")) [] in
  (manifest, saveManifest manifest s).

(** Propose the next version for an asset. Under an id inherited from
    [Object.prototype] the asset is truthy and has no [versions]:
    [Object.keys(undefined)] throws. *)
Definition proposeNextVersion (manifest : ParcaManifest) (assetId : string)
    (level : Semver.ReleaseType) : Result string :=
  match JS.member (manifest_assets manifest) assetId with
  | JS.Absent => Ok "1.0.0"
  | JS.Inherited =>
      Throw (ExternalError "Cannot convert undefined or null to object")
  | JS.Own asset =>
      let versions := existingVersions asset in
      if (List.length versions =? 0)%nat then Ok "1.0.0"
      else
        match previousVersion versions with
        | Some latest => Ok (JS.or_default (Semver.inc latest level) "1.0.0")
        | None => Ok "1.0.0"
        end
  end.

End Calls.
End Publisher.

(* ================================================================== *)
(** * A concrete scenario                                              *)
(* ================================================================== *)

(** The setting of the repository's baseline integration test: one source
    repository at [https://github.com/test/repo] whose manifest declares
    the prompt [test-asset] at version [1.0.0], and a workspace whose
    configuration registers that repository as [test-source]. Variations of
    it (a moved branch, a second asset, a populated lockfile) instantiate
    the theorems below. *)
Module Scenario.

Definition url : string := "https://github.com/test/repo".

Definition manifest_v1 : ParcaManifest :=
  mkManifest "1.0" None
    [("test-asset",
      mkAsset prompt (Some "Test prompt")
        [("1.0.0", mkVersion None "prompts/test.md" None)])].

(** The same asset with its version pinned to the branch [stable]. *)
Definition manifest_branch : ParcaManifest :=
  mkManifest "1.0" None
    [("test-asset",
      mkAsset prompt (Some "Test prompt")
        [("1.0.0", mkVersion (Some "stable") "prompts/test.md" None)])].

(** Two assets of the same source. *)
Definition manifest_two : ParcaManifest :=
  mkManifest "1.0" None
    [("test-asset",
      mkAsset prompt (Some "Test prompt")
        [("1.0.0", mkVersion None "prompts/test.md" None)]);
     ("other-asset",
      mkAsset instruction None
        [("1.0.0", mkVersion None "instructions/other.md" None)])].

(** The manifest documents, by their text. *)
Definition documents : list (string * ParcaManifest) :=
  [("manifest v1", manifest_v1);
   ("manifest branch", manifest_branch);
   ("manifest two", manifest_two)].

(** The path of a URL of the shape [scheme://host/path]. *)
Definition pathname (u : string) : option string :=
  match JS.indexOf u "://" with
  | Some n =>
      let rest := String.substring (n + 3) (String.length u - (n + 3)) u in
      match snd (Semver.cut "/" rest) with
      | Some p => Some ("/" ++ p)%string
      | None => Some "/"
      end
  | None => None
  end.

#[export] Instance libs : Libs := {|
  rangeTest := Semver.exactRangeTest;
  yaml_load_manifest := fun text =>
    match JS.get documents text with
    | Some m => Found m
    | None => Failed "YAMLException"
    end;
  JSON_stringify := fun m => JS.join "," (JS.keys (manifest_assets m));
  JSON_stringify_entry := entry_id;
  URL_pathname := pathname
|}.

(** A repository serving [document] as its manifest and [text] as every
    content file, with every ref resolving to [commit]. *)
Definition repository (document commit text : string) : Repository :=
  mkRepository
    (fun _ => Found commit)
    (fun path _ =>
       if (path =? ManifestResolver.MANIFEST_FILENAME)%string then Found document
       else if JS.endsWith path ".md" then Found text
       else Failed ("File not found: " ++ path)%string)
    (fun path _ => Failed ("Not a directory: " ++ path)%string).

Definition environment (r : Repository) : Env :=
  mkEnv (fun _ => r) "2026-01-01T00:00:00.000Z" "/home/dev/.parca-cache" "/work"
    (fun _ => false).

(** The remote as the integration test mocks it. *)
Definition env_v1 : Env :=
  environment (repository "manifest v1" "mock-sha-123" "# Hello Test").


Definition env_two : Env :=
  environment (repository "manifest two" "mock-sha-123" "# Hello Test").

Definition sources : JS.Obj ParcaSource :=
  [("test-source", mkSource github url)].

Definition entry_v1 : ParcaAssetEntry :=
  mkEntry "test-asset" "test-source" "1.0.0"
    (Some ".github/prompts/test-asset.prompt.md").

Definition other_entry : ParcaAssetEntry :=
  mkEntry "other-asset" "test-source" "1.0.0" None.

(** An entry for the same asset id under another source alias. *)
Definition mirror_entry : ParcaAssetEntry :=
  mkEntry "test-asset" "mirror" "0.9.0" None.

Definition git : GitProvider.t := GitProvider.mk github url.

Definition hello_sha : string :=
  Eval vm_compute in Sha256.hex "# Hello Test".

Definition locked_v1 : ParcaLockedAsset :=
  mkLocked "test-asset" "1.0.0" "test-source" "mock-sha-123" hello_sha
    "manifest-hash" "2025-12-31T00:00:00.000Z".

Definition cache_v1 : list (CacheKey * Dir) :=
  [(("test-source", "test-asset", "1.0.0"), [("test-asset.md", "# Hello Test")])].

(** A fresh workspace: the configuration registers the source, nothing is
    installed, locked or cached. *)
Definition fresh : World :=
  mkWorld (Some (mkConfig "1.0" sources [])) None [] [] None [].

(** The workspace after [test-asset@1.0.0] was installed. *)
Definition installed : World :=
  mkWorld (Some (mkConfig "1.0" sources [entry_v1]))
    (Some (mkLockfile [locked_v1])) cache_v1
    [(".github/prompts/test-asset.prompt.md",
      "/home/dev/.parca-cache/test-source/test-asset/1.0.0/test-asset.md")]
    None [].

(** The installed workspace, in which the link of the asset still points
    at the cache directory of an earlier version, which is gone. *)
Definition stale_link : World :=
  mkWorld (Some (mkConfig "1.0" sources [entry_v1]))
    (Some (mkLockfile [locked_v1])) cache_v1
    [(".github/prompts/test-asset.prompt.md",
      "/home/dev/.parca-cache/test-source/test-asset/0.9.0/test-asset.md")]
    None [].

(** Two assets of the same source declared, none resolved yet. *)
Definition two_declared : World :=
  mkWorld (Some (mkConfig "1.0" sources [entry_v1; other_entry]))
    None [] [] None [].

(** The asset id is declared, but under the alias [mirror]. *)
Definition mirrored : World :=
  mkWorld
    (Some (mkConfig "1.0"
             (sources ++ [("mirror", mkSource github "https://github.com/mirror/repo")])
             [mirror_entry]))
    None [] [] None [].

(** The refs at which the manifest of [url] was fetched, in the order of
    the log. *)
Definition manifestFetches (url : string) (events : list Event) : list string :=
  flat_map (fun e =>
              match e with
              | FetchFile u path ref =>
                  if ((u =? url) && (path =? ManifestResolver.MANIFEST_FILENAME))%string
                  then [ref] else []
              | _ => []
              end) events.

End Scenario.
(* ================================================================== *)
(** * Sanity checks of the library models                              *)
(* ================================================================== *)

Example semver_parse_plain :
  Semver.parse "1.2.3" = Some (Semver.mkSemVer 1 2 3 []).
Proof. reflexivity. Qed.

Example semver_parse_prerelease :
  Semver.parse " v2.0.0-beta.11+exp.sha " =
  Some (Semver.mkSemVer 2 0 0 [Semver.AlphaId "beta"; Semver.NumId 11]).
Proof. reflexivity. Qed.

Example semver_invalid_examples :
  map Semver.valid ["1.2"; "01.2.3"; "1.2.3-01"; "1.2.3-"; "zzz"; ""; "1.2.3+"]
  = [false; false; false; false; false; false; false].
Proof. reflexivity. Qed.

Example semver_maxSatisfying_star :
  Semver.maxSatisfying Semver.exactRangeTest ["1.0.0"; "2.0.0-beta"; "1.5.0"] "*"
  = Some "1.5.0".
Proof. reflexivity. Qed.


Example sha256_empty :
  Sha256.hex EmptyString =
  "e3b0c44298fc1c149afbf4c8996fb92427ae41e4649b934ca495991b7852b855".
Proof. vm_compute. reflexivity. Qed.

Example sha256_abc :
  Sha256.hex "abc" =
  "ba7816bf8f01cfea414140de5dae2223b00361a396177a9cb410ff61f20015ad".
Proof. vm_compute. reflexivity. Qed.

Example sha256_two_blocks :
  Sha256.hex "abcdbcdecdefdefgefghfghighijhijkijkljklmklmnlmnomnopnopq" =
  "248d6a61d20638b8e5c026930c3e6039a33ce45964ff2167f6ecedd419db06c1".
Proof. vm_compute. reflexivity. Qed.
(* ================================================================== *)
(** * Order facts about version precedence and string sorting          *)
(* ================================================================== *)

Module OrderFacts.

(** A comparison function that decides a strict total order. *)
Record is_order {A} (cmp : A -> A -> comparison) : Prop := {
  ord_eq : forall a b, cmp a b = Eq <-> a = b;
  ord_opp : forall a b, cmp b a = CompOpp (cmp a b);
  ord_lt_trans : forall a b c, cmp a b = Lt -> cmp b c = Lt -> cmp a c = Lt
}.

Lemma N_order : is_order N.compare.
Proof.
  split.
  - intros a b. apply N.compare_eq_iff.
  - intros a b. apply N.compare_antisym.
  - intros a b c. rewrite !N.compare_lt_iff. lia.
Qed.

Lemma string_order : is_order String.compare.
Proof.
  split.
  - intros a b. split.
    + apply String.compare_eq_iff.
    + intros ->. destruct (String.compare b b) eqn:E; trivial.
      * pose proof (String.compare_antisym b b) as H. rewrite E in H. discriminate.
      * pose proof (String.compare_antisym b b) as H. rewrite E in H. discriminate.
  - intros a b. apply String.compare_antisym.
  - intros a b c H1 H2.
    apply String_as_OT.cmp_lt. apply String_as_OT.cmp_lt in H1, H2.
    eapply String_as_OT.lt_trans; eassumption.
Qed.

Lemma order_refl {A} (cmp : A -> A -> comparison) (H : is_order cmp) a :
  cmp a a = Eq.
Proof. now apply (ord_eq H). Qed.

Lemma order_gt_lt {A} (cmp : A -> A -> comparison) (H : is_order cmp) a b :
  cmp a b = Gt <-> cmp b a = Lt.
Proof.
  rewrite (ord_opp H a b). destruct (cmp a b); simpl; split; congruence.
Qed.

Section Lexicographic.
Variables (A B : Type).
Variable cmpA : A -> A -> comparison.
Variable cmpB : B -> B -> comparison.
Hypothesis HA : is_order cmpA.
Hypothesis HB : is_order cmpB.

Definition cmp_pair (x y : A * B) : comparison :=
  Semver.lex (cmpA (fst x) (fst y)) (cmpB (snd x) (snd y)).

Lemma pair_order : is_order cmp_pair.
Proof.
  split.
  - intros [a b] [a' b']. unfold cmp_pair. simpl.
    destruct (cmpA a a') eqn:E; simpl.
    + apply (ord_eq HA) in E. subst a'. rewrite (ord_eq HB). split.
      * now intros ->.
      * now inversion 1.
    + split; [discriminate|]. inversion 1; subst.
      rewrite (order_refl HA) in E. discriminate.
    + split; [discriminate|]. inversion 1; subst.
      rewrite (order_refl HA) in E. discriminate.
  - intros [a b] [a' b']. unfold cmp_pair. simpl.
    rewrite (ord_opp HA a a'), (ord_opp HB b b').
    now destruct (cmpA a a').
  - intros [a b] [a' b'] [a'' b'']. unfold cmp_pair. simpl.
    destruct (cmpA a a') eqn:E1; simpl; try discriminate.
    + apply (ord_eq HA) in E1. subst a'.
      destruct (cmpA a a'') eqn:E2; simpl; trivial.
      apply (ord_lt_trans HB).
    + intros _. destruct (cmpA a' a'') eqn:E2; simpl; try discriminate.
      * apply (ord_eq HA) in E2. subst a''. now rewrite E1.
      * intros _. now rewrite (ord_lt_trans HA _ _ _ E1 E2).
Qed.

End Lexicographic.

Lemma order_image {A B} (f : A -> B) (cmp : B -> B -> comparison) :
  (forall a b, f a = f b -> a = b) ->
  is_order cmp -> is_order (fun a b => cmp (f a) (f b)).
Proof.
  intros Hinj H. split.
  - intros a b. rewrite (ord_eq H). split; [apply Hinj | now intros ->].
  - intros a b. apply (ord_opp H).
  - intros a b c. apply (ord_lt_trans H).
Qed.

Lemma order_ext {A} (cmp cmp' : A -> A -> comparison) :
  (forall a b, cmp a b = cmp' a b) -> is_order cmp -> is_order cmp'.
Proof.
  intros E H. split.
  - intros a b. rewrite <- E. apply (ord_eq H).
  - intros a b. rewrite <- !E. apply (ord_opp H).
  - intros a b c. rewrite <- !E. apply (ord_lt_trans H).
Qed.

Lemma identifier_order : is_order Semver.compareIdentifiers.
Proof.
  split.
  - intros [x|x] [y|y]; simpl.
    + rewrite N.compare_eq_iff. split; [now intros -> | now inversion 1].
    + split; discriminate.
    + split; discriminate.
    + rewrite (ord_eq string_order). split; [now intros -> | now inversion 1].
  - intros [x|x] [y|y]; simpl; trivial.
    + apply N.compare_antisym.
    + apply String.compare_antisym.
  - intros [x|x] [y|y] [z|z]; simpl; trivial; try discriminate.
    + apply (ord_lt_trans N_order).
    + apply (ord_lt_trans string_order).
Qed.

Lemma ids_order : is_order Semver.compareIds.
Proof.
  pose proof identifier_order as HI.
  split.
  - induction a as [|x a IH]; intros [|y b]; simpl.
    + tauto.
    + split; discriminate.
    + split; discriminate.
    + destruct (Semver.compareIdentifiers x y) eqn:E; simpl.
      * apply (ord_eq HI) in E. subst y. rewrite IH.
        split; [now intros -> | now inversion 1].
      * split; [discriminate|]. inversion 1; subst.
        rewrite (order_refl HI) in E. discriminate.
      * split; [discriminate|]. inversion 1; subst.
        rewrite (order_refl HI) in E. discriminate.
  - induction a as [|x a IH]; intros [|y b]; simpl; trivial.
    rewrite (ord_opp HI x y), IH.
    now destruct (Semver.compareIdentifiers x y).
  - induction a as [|x a IH]; intros [|y b] [|z c]; simpl; trivial;
      try discriminate.
    destruct (Semver.compareIdentifiers x y) eqn:E1; simpl; try discriminate.
    + apply (ord_eq HI) in E1. subst y.
      destruct (Semver.compareIdentifiers x z); simpl; trivial. apply IH.
    + intros _.
      destruct (Semver.compareIdentifiers y z) eqn:E2; simpl; try discriminate.
      * apply (ord_eq HI) in E2. subst z. now rewrite E1.
      * intros _. now rewrite (ord_lt_trans HI _ _ _ E1 E2).
Qed.

Lemma pre_order : is_order Semver.comparePre.
Proof.
  pose proof ids_order as HI.
  split.
  - intros [|x a] [|y b]; simpl; try tauto; try (split; discriminate).
    apply (ord_eq HI (x :: a) (y :: b)).
  - intros [|x a] [|y b]; simpl; trivial.
    apply (ord_opp HI (x :: a) (y :: b)).
  - intros [|x a] [|y b] [|z c]; simpl; trivial; try discriminate.
    apply (ord_lt_trans HI (x :: a) (y :: b) (z :: c)).
Qed.

Definition semver_key (v : Semver.SemVer)
  : N * (N * (N * list Semver.Identifier)) :=
  (Semver.major v, (Semver.minor v, (Semver.patch v, Semver.prerelease v))).

Theorem compare_order : is_order Semver.compare.
Proof.
  eapply order_ext;
    [| apply (order_image semver_key
                (cmp := cmp_pair N.compare
                          (cmp_pair N.compare
                             (cmp_pair N.compare Semver.comparePre))))].
  - intros a b. unfold Semver.compare, Semver.compareMain, cmp_pair, semver_key.
    simpl.
    destruct (Semver.major a ?= Semver.major b)%N; simpl; trivial.
    destruct (Semver.minor a ?= Semver.minor b)%N; simpl; trivial.
  - intros [x y z p] [x' y' z' p']. unfold semver_key. simpl. congruence.
  - repeat apply pair_order; auto using N_order, pre_order.
Qed.

(** [a <= b] in precedence. *)
Definition le (a b : Semver.SemVer) : Prop := Semver.compare a b <> Gt.

Lemma le_refl a : le a a.
Proof. unfold le. now rewrite (order_refl compare_order). Qed.

Lemma le_trans a b c : le a b -> le b c -> le a c.
Proof.
  pose proof compare_order as H. unfold le. intros H1 H2.
  destruct (Semver.compare a b) eqn:E1; try congruence.
  - apply (ord_eq H) in E1. now subst b.
  - destruct (Semver.compare b c) eqn:E2; try congruence.
    + apply (ord_eq H) in E2. subst c. now rewrite E1.
    + now rewrite (ord_lt_trans H _ _ _ E1 E2).
Qed.

Lemma lt_le a b : Semver.compare a b = Lt -> le a b.
Proof. unfold le. congruence. Qed.

Lemma not_lt_le a b : Semver.compare a b <> Lt -> le b a.
Proof.
  unfold le. rewrite (order_gt_lt compare_order). auto.
Qed.

End OrderFacts.

Module SortFacts.
Import OrderFacts.

Lemma order_le_trans {A} (cmp : A -> A -> comparison) (H : is_order cmp) a b c :
  cmp a b <> Gt -> cmp b c <> Gt -> cmp a c <> Gt.
Proof.
  intros H1 H2.
  destruct (cmp a b) eqn:E1; try congruence.
  - apply (ord_eq H) in E1. now subst b.
  - destruct (cmp b c) eqn:E2; try congruence.
    + apply (ord_eq H) in E2. subst c. now rewrite E1.
    + now rewrite (ord_lt_trans H _ _ _ E1 E2).
Qed.

(** The inverse of [JS.unit_rank]. *)
Definition unit_unrank (c : ascii) : ascii :=
  let n := N_of_ascii c in
  if (n =? 243)%N then ascii_of_N 238
  else if (n =? 244)%N then ascii_of_N 239
  else if ((238 <=? n) && (n <=? 242))%N then ascii_of_N (n + 2)
  else c.

Lemma unit_unrank_rank c : unit_unrank (JS.unit_rank c) = c.
Proof. destruct c as [[] [] [] [] [] [] [] []]; reflexivity. Qed.

Lemma unit_ranks_inj a : forall b, JS.unit_ranks a = JS.unit_ranks b -> a = b.
Proof.
  induction a as [|c a IH]; intros [|d b]; simpl; try discriminate; trivial.
  intros [= Hc Hr]. f_equal; [|now apply IH].
  rewrite <- (unit_unrank_rank c), <- (unit_unrank_rank d). now rewrite Hc.
Qed.

(** On ASCII text the order is the byte order. *)
Lemma unit_ranks_ascii s :
  Semver.all_chars (fun c => (N_of_ascii c <? 128)%N) s = true ->
  JS.unit_ranks s = s.
Proof.
  induction s as [|c s IH]; simpl; trivial.
  intros H. apply andb_true_iff in H. destruct H as [Hc Hs].
  rewrite (IH Hs). f_equal.
  destruct c as [[] [] [] [] [] [] [] []]; try reflexivity; discriminate.
Qed.

(** The three-way comparison behind [JS.leb]. *)
Definition unit_compare (a b : string) : comparison :=
  String.compare (JS.unit_ranks a) (JS.unit_ranks b).

Lemma unit_order : is_order unit_compare.
Proof.
  apply (order_image JS.unit_ranks (cmp := String.compare));
    [intros a b; apply unit_ranks_inj|apply string_order].
Qed.

Lemma leb_le a b : JS.leb a b = true <-> unit_compare a b <> Gt.
Proof.
  unfold JS.leb, String.leb, unit_compare.
  destruct (String.compare _ _); split; congruence.
Qed.

Lemma leb_refl a : JS.leb a a = true.
Proof. apply leb_le. now rewrite (order_refl unit_order). Qed.

Lemma leb_trans a b c :
  JS.leb a b = true -> JS.leb b c = true -> JS.leb a c = true.
Proof. rewrite !leb_le. apply (order_le_trans unit_order). Qed.

Lemma leb_false a b : JS.leb a b = false -> JS.leb b a = true.
Proof.
  intros H. apply leb_le. intros Hgt.
  apply (order_gt_lt unit_order) in Hgt.
  assert (JS.leb a b = true) by (apply leb_le; congruence). congruence.
Qed.

Lemma leb_antisym a b : JS.leb a b = true -> JS.leb b a = true -> a = b.
Proof.
  rewrite !leb_le. intros H1 H2.
  apply (ord_eq unit_order).
  rewrite (ord_opp unit_order) in H2.
  destruct (unit_compare a b); simpl in *; congruence.
Qed.

Section InsertionSort.
Variable A : Type.
Variable leb : A -> A -> bool.

Lemma in_insert_sorted x y l :
  In x (JS.insert_sorted leb y l) <-> x = y \/ In x l.
Proof.
  induction l as [|z l IH]; simpl.
  - intuition.
  - destruct (leb y z); simpl; rewrite ?IH; intuition.
Qed.

Lemma in_sort_by x l : In x (JS.sort_by leb l) <-> In x l.
Proof.
  induction l as [|y l IH]; simpl.
  - tauto.
  - rewrite in_insert_sorted, IH. intuition.
Qed.

End InsertionSort.

(** [ascending l]: every element is below the ones after it. *)
Inductive ascending : list string -> Prop :=
| asc_nil : ascending []
| asc_cons x l :
    (forall y, In y l -> JS.leb x y = true) -> ascending l ->
    ascending (x :: l).

Lemma insert_ascending x l :
  ascending l -> ascending (JS.insert_sorted JS.leb x l).
Proof.
  induction 1 as [|y l Hy Hl IH]; simpl.
  - constructor; [intros ? []|constructor].
  - destruct (JS.leb x y) eqn:E.
    + constructor; [|now constructor].
      intros z [<-|Hz]; trivial. eapply leb_trans; eauto.
    + constructor; trivial.
      intros z Hz. apply in_insert_sorted in Hz as [->|Hz]; auto.
      now apply leb_false.
Qed.

Lemma sort_ascending l : ascending (JS.sort l).
Proof.
  induction l as [|x l IH]; simpl.
  - constructor.
  - now apply insert_ascending.
Qed.

Lemma ascending_last l m :
  ascending l -> hd_error (rev l) = Some m ->
  In m l /\ forall x, In x l -> JS.leb x m = true.
Proof.
  induction 1 as [|x l Hx Hl IH]; simpl; [discriminate|].
  destruct (rev l) as [|y r] eqn:E; simpl.
  - assert (l = []) as ->.
    { apply (f_equal (@rev _)) in E. now rewrite rev_involutive in E. }
    intros [= <-]. split; [now left|]. intros z [<-|[]]. apply leb_refl.
  - intros [= ->]. destruct IH as [Hm Hmax]; trivial.
    split; [now right|]. intros z [<-|Hz]; auto.
Qed.

(** [versions.sort().reverse()[0]] is the greatest string of the array. *)
Lemma sort_reverse_first l m :
  nth_error (JS.reverse (JS.sort l)) 0 = Some m ->
  In m l /\ forall x, In x l -> JS.leb x m = true.
Proof.
  intros H.
  assert (hd_error (rev (JS.sort l)) = Some m) as H'.
  { unfold JS.reverse in H. now destruct (rev (JS.sort l)). }
  destruct (ascending_last (sort_ascending l) H') as [Hm Hmax].
  unfold JS.sort in *.
  split.
  - now apply in_sort_by in Hm.
  - intros x Hx. apply Hmax. now apply in_sort_by.
Qed.

Lemma sort_reverse_first_some l :
  l <> [] -> exists m, nth_error (JS.reverse (JS.sort l)) 0 = Some m.
Proof.
  intros Hl. unfold JS.reverse.
  destruct (rev (JS.sort l)) as [|m r] eqn:E.
  - apply (f_equal (@rev _)) in E. rewrite rev_involutive in E. simpl in E.
    destruct l as [|x l]; [congruence|].
    assert (In x (JS.sort (x :: l))) as Hin
        by (apply in_sort_by; now left).
    rewrite E in Hin. destruct Hin.
  - now exists m.
Qed.

Lemma sort_reverse_first_nil :
  nth_error (JS.reverse (JS.sort [])) 0 = None.
Proof. reflexivity. Qed.

End SortFacts.

Module SemverFacts.
Import OrderFacts.

Section WithRanges.
Variable rangeTest : string -> Semver.SemVer -> bool.

(** [v] is a greatest element of [versions] among those satisfying
    [range]. *)
Definition max_satisfying (versions : list string) (range v : string) : Prop :=
  In v versions /\
  exists sv, Semver.parse v = Some sv /\
    Semver.testRange rangeTest range sv = true /\
    forall w sw, In w versions -> Semver.parse w = Some sw ->
      Semver.testRange rangeTest range sw = true -> le sw sv.

Lemma maxSatisfying_from_spec range : forall versions best,
  (forall m msv, best = Some (m, msv) ->
     Semver.parse m = Some msv /\ Semver.testRange rangeTest range msv = true) ->
  match Semver.maxSatisfying_from rangeTest best versions range with
  | Some (v, sv) =>
      Semver.parse v = Some sv /\
      Semver.testRange rangeTest range sv = true /\
      (In v versions \/ exists msv, best = Some (v, msv)) /\
      (forall m msv, best = Some (m, msv) -> le msv sv) /\
      (forall w sw, In w versions -> Semver.parse w = Some sw ->
         Semver.testRange rangeTest range sw = true -> le sw sv)
  | None =>
      best = None /\
      forall w, In w versions -> Semver.satisfies rangeTest w range = false
  end.
Proof.
  induction versions as [|v rest IH]; intros best Hbest.
  - simpl. destruct best as [[m msv]|].
    + destruct (Hbest m msv eq_refl) as [Hp Ht].
      repeat split; trivial.
      * right. now exists msv.
      * intros m' msv' [= <- <-]. apply le_refl.
      * intros w sw [].
    + split; trivial. intros w [].
  - cbn [Semver.maxSatisfying_from].
    set (best' := match Semver.parse v with
                  | Some sv => _
                  | None => best
                  end).
    assert (Hbest' : forall m msv, best' = Some (m, msv) ->
              Semver.parse m = Some msv /\
              Semver.testRange rangeTest range msv = true).
    { subst best'. intros m msv.
      destruct (Semver.parse v) as [sv|] eqn:Ep; [|apply Hbest].
      destruct (Semver.testRange rangeTest range sv) eqn:Et; [|apply Hbest].
      destruct best as [[m0 msv0]|].
      - destruct (Semver.compare msv0 sv); try apply Hbest.
        now intros [= <- <-].
      - now intros [= <- <-]. }
    assert (Hstep :
      (forall m msv, best = Some (m, msv) ->
         exists m' msv', best' = Some (m', msv') /\ le msv msv') /\
      (forall sv, Semver.parse v = Some sv ->
         Semver.testRange rangeTest range sv = true ->
         exists m' msv', best' = Some (m', msv') /\ le sv msv') /\
      (forall m' msv', best' = Some (m', msv') ->
         m' = v \/ best = Some (m', msv')) /\
      (best' = None -> best = None /\
         Semver.satisfies rangeTest v range = false)).
    { subst best'. unfold Semver.satisfies.
      destruct (Semver.parse v) as [sv|] eqn:Ep.
      - destruct (Semver.testRange rangeTest range sv) eqn:Et.
        + destruct best as [[m0 msv0]|].
          * destruct (Semver.compare msv0 sv) eqn:Ec.
            -- repeat split.
               ++ intros m msv [= <- <-]. exists m0, msv0. split; trivial.
                  apply le_refl.
               ++ intros sv' [= <-] _. exists m0, msv0. split; trivial.
                  apply not_lt_le.
                  apply (ord_eq compare_order) in Ec. subst sv.
                  rewrite (order_refl compare_order). discriminate.
               ++ intros m' msv' H. now right.
               ++ discriminate.
               ++ discriminate.
            -- repeat split.
               ++ intros m msv [= <- <-]. exists v, sv. split; trivial.
                  now apply lt_le.
               ++ intros sv' [= <-] _. exists v, sv. split; trivial.
                  apply le_refl.
               ++ intros m' msv' [= <- <-]. now left.
               ++ discriminate.
               ++ discriminate.
            -- repeat split.
               ++ intros m msv [= <- <-]. exists m0, msv0. split; trivial.
                  apply le_refl.
               ++ intros sv' [= <-] _. exists m0, msv0. split; trivial.
                  apply not_lt_le.
                  rewrite Ec. discriminate.
               ++ intros m' msv' H. now right.
               ++ discriminate.
               ++ discriminate.
          * repeat split; try discriminate.
            -- intros sv' [= <-] _. exists v, sv. split; trivial. apply le_refl.
            -- intros m' msv' [= <- <-]. now left.
        + repeat split; trivial.
          * intros m msv ->. exists m, msv. split; trivial. apply le_refl.
          * intros sv' [= <-] Ht. congruence.
          * intros m' msv' H. now right.
      - repeat split; trivial.
        + intros m msv ->. exists m, msv. split; trivial. apply le_refl.
        + discriminate.
        + intros m' msv' H. now right. }
    destruct Hstep as (Hold & Hnew & Horigin & Hnone).
    specialize (IH best' Hbest').
    destruct (Semver.maxSatisfying_from rangeTest best' rest range)
      as [[r rsv]|].
    + destruct IH as (Hp & Ht & Hin & Hge & Hmax).
      repeat split; trivial.
      * destruct Hin as [Hin|[msv Hb]].
        -- left. now right.
        -- destruct (Horigin _ _ Hb) as [->|Hb'].
           ++ left. now left.
           ++ right. now exists msv.
      * intros m msv Hb. destruct (Hold _ _ Hb) as (m' & msv' & Hb' & Hle).
        eapply le_trans; [exact Hle|]. eapply Hge; eassumption.
      * intros w sw [<-|Hw] Hpw Htw.
        -- destruct (Hnew _ Hpw Htw) as (m' & msv' & Hb' & Hle).
           eapply le_trans; [exact Hle|]. eapply Hge; eassumption.
        -- eapply Hmax; eassumption.
    + destruct IH as (Hb' & Hall). destruct (Hnone Hb') as [Hb Hv].
      split; trivial. intros w [<-|Hw]; auto.
Qed.

Lemma maxSatisfying_some versions range v :
  Semver.maxSatisfying rangeTest versions range = Some v ->
  max_satisfying versions range v.
Proof.
  unfold Semver.maxSatisfying. intros H.
  pose proof (@maxSatisfying_from_spec range versions None) as S.
  destruct (Semver.maxSatisfying_from rangeTest None versions range)
    as [[r rsv]|]; [|discriminate].
  injection H as ->.
  destruct S as (Hp & Ht & Hin & _ & Hmax); [discriminate|].
  split.
  - destruct Hin as [Hin|[msv Hb]]; [trivial|discriminate].
  - exists rsv. auto.
Qed.

Lemma maxSatisfying_none versions range :
  Semver.maxSatisfying rangeTest versions range = None <->
  forall w, In w versions -> Semver.satisfies rangeTest w range = false.
Proof.
  unfold Semver.maxSatisfying.
  pose proof (@maxSatisfying_from_spec range versions None) as S.
  destruct (Semver.maxSatisfying_from rangeTest None versions range)
    as [[r rsv]|]; simpl.
  - destruct S as (Hp & Ht & Hin & _ & _); [discriminate|].
    split; [discriminate|]. intros Hall.
    destruct Hin as [Hin|[msv Hb]]; [|discriminate].
    specialize (Hall _ Hin). unfold Semver.satisfies in Hall.
    rewrite Hp in Hall. congruence.
  - split; trivial. intros _. apply S. discriminate.
Qed.

Lemma satisfies_valid v range :
  Semver.satisfies rangeTest v range = true -> Semver.valid v = true.
Proof.
  unfold Semver.satisfies, Semver.valid. now destruct (Semver.parse v).
Qed.

Lemma valid_nonempty v : Semver.valid v = true -> v <> EmptyString.
Proof. intros H ->. discriminate. Qed.

End WithRanges.

End SemverFacts.


(* ================================================================== *)
(** * Reasoning about computations in [M]                              *)
(* ================================================================== *)

Module Frame.

Lemma bind_ok {A B} (c : M A) (k : A -> M B) w a w1 :
  c w = (Ok a, w1) -> bind c k w = k a w1.
Proof. unfold bind. now intros ->. Qed.

Lemma bind_throw {A B} (c : M A) (k : A -> M B) w e w1 :
  c w = (Throw e, w1) -> bind c k w = (Throw e, w1).
Proof. unfold bind. now intros ->. Qed.

Lemma bind_inv {A B} (c : M A) (k : A -> M B) w r w' :
  bind c k w = (r, w') ->
  (exists a w1, c w = (Ok a, w1) /\ k a w1 = (r, w'))
  \/ (exists e, c w = (Throw e, w') /\ r = Throw e).
Proof.
  unfold bind. destruct (c w) as [[a|e] w1].
  - intros H. left. now exists a, w1.
  - intros [= <- <-]. right. now exists e.
Qed.

(** [preserves R c]: every run of [c] relates the world before to the world
    after, whether it returns or throws. *)
Definition preserves {A} (R : World -> World -> Prop) (c : M A) : Prop :=
  forall w r w', c w = (r, w') -> R w w'.

(** A relation fit for framing: reflexive and transitive. *)
Record framing (R : World -> World -> Prop) : Prop := {
  framing_refl : forall w, R w w;
  framing_trans : forall w1 w2 w3, R w1 w2 -> R w2 w3 -> R w1 w3
}.

(** The component [f] of the world is left as it was. *)
Definition keeps {X} (f : World -> X) (w w' : World) : Prop := f w' = f w.


(** The log only grows. *)
Definition trace_grows (w w' : World) : Prop :=
  exists es, trace w' = trace w ++ es.

Lemma trace_grows_framing : framing trace_grows.
Proof.
  split.
  - intros w. exists []. now rewrite app_nil_r.
  - intros w1 w2 w3 [es1 H1] [es2 H2]. exists (es1 ++ es2).
    now rewrite H2, H1, app_assoc.
Qed.

(** The files of the workspace and the cache are as they were. *)
Definition same_files (w w' : World) : Prop :=
  configFile w' = configFile w /\ lockfileFile w' = lockfileFile w /\
  cache w' = cache w /\ symlinks w' = symlinks w /\
  gitignore w' = gitignore w.

(** Nothing but the log changes, and the log only grows. *)
Definition only_logs (w w' : World) : Prop :=
  same_files w w' /\ trace_grows w w'.

Lemma only_logs_framing : framing only_logs.
Proof.
  split; unfold only_logs, same_files.
  - intros w. split; [tauto|apply (framing_refl trace_grows_framing)].
  - intros w1 w2 w3 [(?&?&?&?&?) Ht] [(?&?&?&?&?) Ht'].
    split; [repeat split; congruence|].
    eapply (framing_trans trace_grows_framing); eassumption.
Qed.

(** Neither the files of the workspace nor the log change: only the cache
    may. *)
Definition only_cache (w w' : World) : Prop :=
  configFile w' = configFile w /\ lockfileFile w' = lockfileFile w /\
  symlinks w' = symlinks w /\ gitignore w' = gitignore w /\
  trace w' = trace w.

Lemma only_cache_framing : framing only_cache.
Proof.
  split; unfold only_cache.
  - tauto.
  - intros w1 w2 w3 (?&?&?&?&?) (?&?&?&?&?). repeat split; congruence.
Qed.

(** Only the links of the workspace and its [.gitignore] change. *)
Definition only_links (w w' : World) : Prop :=
  configFile w' = configFile w /\ lockfileFile w' = lockfileFile w /\
  cache w' = cache w /\ trace w' = trace w.

Lemma only_links_framing : framing only_links.
Proof.
  split; unfold only_links.
  - tauto.
  - intros w1 w2 w3 (?&?&?&?) (?&?&?&?). repeat split; congruence.
Qed.

Section Rules.
Variable R : World -> World -> Prop.
Hypothesis HR : framing R.

Lemma preserves_ret {A} (a : A) : preserves R (ret a).
Proof. intros w r w' [= <- <-]. apply (framing_refl HR). Qed.

Lemma preserves_throw {A} e : preserves R (@throw A e).
Proof. intros w r w' [= <- <-]. apply (framing_refl HR). Qed.

Lemma preserves_get_world : preserves R get_world.
Proof. intros w r w' [= <- <-]. apply (framing_refl HR). Qed.

Lemma preserves_await {A} (r : Reply A) : preserves R (await r).
Proof. destruct r; [apply preserves_ret | apply preserves_throw]. Qed.

Lemma preserves_modify f : (forall w, R w (f w)) -> preserves R (modify f).
Proof. intros H w r w' [= <- <-]. apply H. Qed.

Lemma preserves_bind {A B} (c : M A) (k : A -> M B) :
  preserves R c -> (forall a, preserves R (k a)) -> preserves R (bind c k).
Proof.
  intros Hc Hk w r w' H.
  apply bind_inv in H as [(a & w1 & H1 & H2)|(e & H1 & _)].
  - eapply (framing_trans HR); [eapply Hc | eapply Hk]; eassumption.
  - eapply Hc; eassumption.
Qed.

Lemma preserves_try_catch {A} (c : M A) h :
  preserves R c -> (forall e, preserves R (h e)) -> preserves R (try_catch c h).
Proof.
  intros Hc Hh w r w'. unfold try_catch.
  destruct (c w) as [[a|e] w1] eqn:E.
  - intros [= <- <-]. eapply Hc; eassumption.
  - intros H. eapply (framing_trans HR); [eapply Hc | eapply Hh]; eassumption.
Qed.

End Rules.

Lemma preserves_weaken {A} (R R' : World -> World -> Prop) (c : M A) :
  (forall w w', R w w' -> R' w w') -> preserves R c -> preserves R' c.
Proof. intros H Hc w r w' E. apply H. eapply Hc; eassumption. Qed.


Lemma only_logs_keeps_cache w w' : only_logs w w' -> keeps cache w w'.
Proof. unfold only_logs, same_files, keeps. tauto. Qed.


Lemma only_logs_trace_grows w w' : only_logs w w' -> trace_grows w w'.
Proof. unfold only_logs. tauto. Qed.

Lemma only_cache_trace_grows w w' : only_cache w w' -> trace_grows w w'.
Proof.
  intros (_ & _ & _ & _ & Ht). exists []. now rewrite app_nil_r.
Qed.

Lemma only_links_trace_grows w w' : only_links w w' -> trace_grows w w'.
Proof.
  intros (_ & _ & _ & Ht). exists []. now rewrite app_nil_r.
Qed.

Lemma add_event_only_logs e w : only_logs w (add_event e w).
Proof.
  split; [unfold same_files; simpl; tauto|]. now exists [e].
Qed.




Lemma only_links_keeps_cache w w' : only_links w w' -> keeps cache w w'.
Proof. unfold only_links, keeps. tauto. Qed.


(** ** The primitive steps *)

Lemma log_only_logs e : preserves only_logs (log e).
Proof. apply preserves_modify. intros w. apply add_event_only_logs. Qed.

Lemma log_run e w : log e w = (Ok tt, add_event e w).
Proof. reflexivity. Qed.

Section Steps.
Context {env : Env} {L : Libs}.

Lemma resolveRef_only_logs git ref :
  preserves only_logs (GitProvider.resolveRef git ref).
Proof.
  apply (preserves_bind only_logs_framing); [apply log_only_logs|].
  intros _. apply (preserves_await only_logs_framing).
Qed.

Lemma fetchFile_only_logs git path ref :
  preserves only_logs (GitProvider.fetchFile git path ref).
Proof.
  apply (preserves_bind only_logs_framing); [apply log_only_logs|].
  intros _. apply (preserves_await only_logs_framing).
Qed.

Lemma fetchDirectory_only_logs git path ref :
  preserves only_logs (GitProvider.fetchDirectory git path ref).
Proof.
  apply (preserves_bind only_logs_framing); [apply log_only_logs|].
  intros _. apply (preserves_await only_logs_framing).
Qed.

Lemma validate_manifest_only_logs m :
  preserves only_logs (ManifestResolver.validate m).
Proof.
  unfold ManifestResolver.validate.
  destruct (manifest_schema m =? "")%string;
    [apply (preserves_throw only_logs_framing)
    |apply (preserves_ret only_logs_framing)].
Qed.

Lemma fetchManifest_only_logs git ref :
  preserves only_logs (ManifestResolver.fetchManifest git ref).
Proof.
  unfold ManifestResolver.fetchManifest.
  apply (preserves_bind only_logs_framing); [apply fetchFile_only_logs|].
  intros content.
  apply (preserves_bind only_logs_framing);
    [apply (preserves_await only_logs_framing)|].
  intros m.
  apply (preserves_bind only_logs_framing); [apply validate_manifest_only_logs|].
  intros _. apply (preserves_ret only_logs_framing).
Qed.

Lemma lockfile_load_run w :
  LockfileManager.load w =
  (Ok (match lockfileFile w with Some l => l | None => mkLockfile [] end), w).
Proof.
  unfold LockfileManager.load, bind, get_world.
  now destruct (lockfileFile w).
Qed.

Lemma config_load_run w :
  ConfigLoader.load w =
  match configFile w with
  | None => (Throw (ConfigNotFound ConfigLoader.configPath), w)
  | Some c =>
      match ConfigLoader.check c with
      | Some e => (Throw e, w)
      | None => (Ok c, w)
      end
  end.
Proof.
  unfold ConfigLoader.load, bind, get_world, ConfigLoader.validate.
  destruct (configFile w) as [c|]; trivial.
  now destruct (ConfigLoader.check c).
Qed.

Lemma mkdir_only_cache k : preserves only_cache (CacheManager.mkdir k).
Proof.
  apply preserves_modify. intros w. unfold only_cache.
  destruct (CacheManager.lookup_dir (cache w) k); simpl; tauto.
Qed.

Lemma writeFile_only_cache k name content :
  preserves only_cache (CacheManager.writeFile k name content).
Proof.
  apply preserves_modify. intros w. unfold only_cache.
  destruct (CacheManager.lookup_dir (cache w) k); simpl; tauto.
Qed.

Lemma rmdir_only_cache k : preserves only_cache (CacheManager.rmdir k).
Proof.
  apply preserves_modify. intros w. unfold only_cache. simpl. tauto.
Qed.

Lemma writeToCache_only_cache s i v content :
  preserves only_cache (CacheManager.writeToCache s i v content).
Proof.
  unfold CacheManager.writeToCache.
  apply (preserves_bind only_cache_framing); [apply mkdir_only_cache|].
  intros _.
  apply (preserves_bind only_cache_framing); [apply writeFile_only_cache|].
  intros _. apply (preserves_ret only_cache_framing).
Qed.

Lemma writeFiles_only_cache k files :
  preserves only_cache (CacheManager.writeFiles k files).
Proof.
  induction files as [|f files IH]; simpl.
  - apply (preserves_ret only_cache_framing).
  - apply (preserves_bind only_cache_framing); [apply writeFile_only_cache|].
    intros _. exact IH.
Qed.

Lemma writeDirectoryToCache_only_cache s i v files :
  preserves only_cache (CacheManager.writeDirectoryToCache s i v files).
Proof.
  unfold CacheManager.writeDirectoryToCache.
  apply (preserves_bind only_cache_framing); [apply rmdir_only_cache|].
  intros _.
  apply (preserves_bind only_cache_framing); [apply mkdir_only_cache|].
  intros _.
  apply (preserves_bind only_cache_framing); [apply writeFiles_only_cache|].
  intros _.
  apply (preserves_bind only_cache_framing);
    [apply (preserves_get_world only_cache_framing)|].
  intros w0.
  destruct (CacheManager.computeHash w0 _);
    [apply (preserves_ret only_cache_framing)
    |apply (preserves_throw only_cache_framing)].
Qed.

Lemma ensureGitignored_only_links p :
  preserves only_links (WorkspaceMapper.ensureGitignored p).
Proof.
  unfold WorkspaceMapper.ensureGitignored.
  apply (preserves_bind only_links_framing);
    [apply (preserves_get_world only_links_framing)|].
  intros w0.
  destruct (JS.includes _ _); [apply (preserves_ret only_links_framing)|].
  apply preserves_modify. intros w. unfold only_links. simpl. tauto.
Qed.

Lemma unlink_only_links target :
  preserves only_links (WorkspaceMapper.unlink target).
Proof.
  apply preserves_modify. intros w. unfold only_links. simpl. tauto.
Qed.

Lemma symlink_only_links cachedPath target :
  preserves only_links (WorkspaceMapper.symlink cachedPath target).
Proof.
  unfold WorkspaceMapper.symlink.
  apply (preserves_bind only_links_framing);
    [apply (preserves_get_world only_links_framing)|].
  intros w0.
  destruct (JS.get (symlinks w0) target);
    [apply (preserves_throw only_links_framing)|].
  apply preserves_modify. intros w. unfold only_links. simpl. tauto.
Qed.

Lemma createSymlink_only_links cachedPath mapping assetId kind :
  preserves only_links
    (WorkspaceMapper.createSymlink cachedPath mapping assetId kind).
Proof.
  unfold WorkspaceMapper.createSymlink.
  apply (preserves_bind only_links_framing);
    [apply (preserves_get_world only_links_framing)|].
  intros w0.
  apply (preserves_bind only_links_framing).
  { destruct (WorkspaceMapper.existsSync w0 _);
      [apply unlink_only_links|apply (preserves_ret only_links_framing)]. }
  intros _.
  apply (preserves_bind only_links_framing); [apply symlink_only_links|].
  intros _.
  apply (preserves_bind only_links_framing);
    [apply ensureGitignored_only_links|].
  intros _. apply (preserves_ret only_links_framing).
Qed.

Lemma linkIfMapped_only_links entry cachedPath kind :
  preserves only_links (AssetResolver.linkIfMapped entry cachedPath kind).
Proof.
  unfold AssetResolver.linkIfMapped.
  destruct (entry_mapping entry) as [m|];
    [|apply (preserves_ret only_links_framing)].
  destruct (m =? "")%string; [apply (preserves_ret only_links_framing)|].
  apply (preserves_bind only_links_framing);
    [apply createSymlink_only_links|].
  intros _. apply (preserves_ret only_links_framing).
Qed.

End Steps.

End Frame.

(* ================================================================== *)
(** * Facts about objects and their keys                               *)
(* ================================================================== *)

Module ObjFacts.
Import SortFacts.

Lemma get_set_same {V} (o : JS.Obj V) k v : JS.get (JS.set o k v) k = Some v.
Proof.
  induction o as [|[k' v'] o IH]; simpl.
  - now rewrite String.eqb_refl.
  - destruct (String.eqb_spec k' k).
    + simpl. now rewrite String.eqb_refl.
    + simpl. destruct (String.eqb_spec k' k); [contradiction|exact IH].
Qed.

Lemma get_set_other {V} (o : JS.Obj V) k v k' :
  k <> k' -> JS.get (JS.set o k v) k' = JS.get o k'.
Proof.
  intros Hne. induction o as [|[k0 v0] o IH]; simpl.
  - destruct (String.eqb_spec k k'); [contradiction|reflexivity].
  - destruct (String.eqb_spec k0 k).
    + subst k0. simpl.
      destruct (String.eqb_spec k k'); [contradiction|reflexivity].
    + simpl. destruct (String.eqb_spec k0 k'); [reflexivity|exact IH].
Qed.

Lemma set_set {V} (o : JS.Obj V) k v v' :
  JS.set (JS.set o k v) k v' = JS.set o k v'.
Proof.
  induction o as [|[k0 v0] o IH]; simpl.
  - now rewrite String.eqb_refl.
  - destruct (String.eqb_spec k0 k); simpl.
    + now rewrite String.eqb_refl.
    + destruct (String.eqb_spec k0 k); [contradiction|]. now rewrite IH.
Qed.

Lemma get_singleton {V} (k0 : string) (v0 : V) k v :
  JS.get [(k0, v0)] k = Some v -> k = k0 /\ v = v0.
Proof.
  simpl. destruct (String.eqb_spec k0 k); [|discriminate].
  intros [= <-]. now split.
Qed.

Lemma get_some_in {V} (o : JS.Obj V) k :
  (exists v, JS.get o k = Some v) <-> In k (map fst o).
Proof.
  induction o as [|[k' v'] o IH]; simpl.
  - split; [intros [v H]; discriminate | intros []].
  - destruct (String.eqb_spec k' k).
    + split; [now left | intros _; now exists v'].
    + rewrite IH. split; [now right | intros [?|?]; [contradiction|trivial]].
Qed.

Lemma get_none_not_in {V} (o : JS.Obj V) k :
  JS.get o k = None <-> ~ In k (map fst o).
Proof.
  rewrite <- get_some_in. destruct (JS.get o k) as [v|].
  - split; [discriminate | intros H; destruct H; now exists v].
  - split; [intros _ [v H]; discriminate | trivial].
Qed.



Lemma in_index_keys n k ks :
  In (n, k) (JS.index_keys ks) <-> In k ks /\ JS.array_index k = Some n.
Proof.
  unfold JS.index_keys. rewrite in_flat_map. split.
  - intros (k' & Hin & H). destruct (JS.array_index k') as [n'|] eqn:E.
    + destruct H as [[= <- <-]|[]]. auto.
    + destruct H.
  - intros [Hin E]. exists k. split; trivial. rewrite E. now left.
Qed.

(** [Object.keys] lists exactly the properties of the object. *)
Lemma in_keys {V} (o : JS.Obj V) k : In k (JS.keys o) <-> In k (map fst o).
Proof.
  unfold JS.keys. rewrite in_app_iff, in_map_iff, filter_In. split.
  - intros [([n k'] & <- & H)|[H _]]; trivial.
    apply in_sort_by in H. now apply in_index_keys in H.
  - intros H. unfold JS.is_array_index.
    destruct (JS.array_index k) as [n|] eqn:E.
    + left. exists (n, k). split; trivial.
      apply in_sort_by. now apply in_index_keys.
    + right. now split.
Qed.

Lemma in_keys_get {V} (o : JS.Obj V) k :
  In k (JS.keys o) <-> exists v, JS.get o k = Some v.
Proof. now rewrite in_keys, get_some_in. Qed.

End ObjFacts.

(* ================================================================== *)
(** * The version matcher of [install]                                 *)
(* ================================================================== *)

Module VersionMatcher.
Import OrderFacts SortFacts SemverFacts.

(** A SemVer-valid version without prerelease tag. *)
Definition stable (v : string) : Prop :=
  exists sv, Semver.parse v = Some sv /\ Semver.prerelease sv = [].

(** The greatest string of an array in the order of [sort]. *)
Definition greatest (versions : list string) (g : string) : Prop :=
  In g versions /\ forall x, In x versions -> JS.leb x g = true.

Section WithLibs.
Context {L : Libs}.

Lemma satisfies_star v :
  Semver.satisfies rangeTest v "*" = true <-> stable v.
Proof.
  unfold Semver.satisfies, Semver.testRange, stable. simpl.
  destruct (Semver.parse v) as [sv|].
  - destruct (Semver.prerelease sv) eqn:E; split.
    + intros _. now exists sv.
    + trivial.
    + discriminate.
    + intros (sv' & [= <-] & H). congruence.
  - split; [discriminate|]. intros (sv & H & _). discriminate.
Qed.

Lemma maxSatisfying_truthy versions range m :
  Semver.maxSatisfying rangeTest versions range = Some m ->
  JS.truthy (Some m) = true.
Proof.
  intros H. apply maxSatisfying_some in H as (_ & sv & Hp & _).
  simpl. destruct (String.eqb_spec m ""); trivial. subst m. discriminate.
Qed.

Lemma maxSatisfying_exists versions range :
  (exists v, In v versions /\ Semver.satisfies rangeTest v range = true) ->
  exists m, Semver.maxSatisfying rangeTest versions range = Some m.
Proof.
  intros (v & Hin & Hs).
  destruct (Semver.maxSatisfying rangeTest versions range) as [m|] eqn:E.
  - now exists m.
  - rewrite maxSatisfying_none in E. rewrite (E v Hin) in Hs. discriminate.
Qed.

Lemma greatest_unique versions g g' :
  greatest versions g -> greatest versions g' -> g = g'.
Proof.
  intros [Hin Hmax] [Hin' Hmax']. apply leb_antisym; auto.
Qed.

Lemma pickVersion_found assetId versions range m :
  range <> "latest" \/ range = "latest" ->
  Semver.maxSatisfying rangeTest versions
    (if (range =? "latest")%string then "*" else range) = Some m ->
  AssetResolver.pickVersion assetId versions range = Ok m.
Proof.
  intros _ H. pose proof (maxSatisfying_truthy _ _ H) as Ht.
  unfold AssetResolver.pickVersion, AssetResolver.selectVersion.
  destruct (range =? "latest")%string.
  - rewrite H, Ht. simpl in *. rewrite Ht. simpl.
    now destruct (m =? "")%string.
  - rewrite H. rewrite Ht. simpl in *.
    now destruct (m =? "")%string.
Qed.

Lemma pickVersion_latest_fallback assetId versions :
  Semver.maxSatisfying rangeTest versions "*" = None ->
  AssetResolver.pickVersion assetId versions "latest" =
  match nth_error (JS.reverse (JS.sort versions)) 0 with
  | Some g =>
      if (g =? "")%string
      then Throw (NoMatchingVersion "latest" assetId
                    (JS.reverse (JS.sort versions)))
      else Ok g
  | None =>
      Throw (NoMatchingVersion "latest" assetId (JS.reverse (JS.sort versions)))
  end.
Proof.
  intros Hnone.
  unfold AssetResolver.pickVersion, AssetResolver.selectVersion.
  change ("latest" =? "latest")%string with true. cbv iota.
  rewrite Hnone. change (JS.truthy None) with false. cbv beta iota zeta.
  destruct (nth_error (JS.reverse (JS.sort versions)) 0) as [g|]; trivial.
  unfold JS.truthy, JS.or_default.
  now destruct (g =? "")%string.
Qed.

Lemma no_stable_none versions :
  (forall v, In v versions -> ~ stable v) ->
  Semver.maxSatisfying rangeTest versions "*" = None.
Proof.
  intros H. apply maxSatisfying_none. intros v Hv.
  destruct (Semver.satisfies rangeTest v "*") eqn:E; trivial.
  apply satisfies_star in E. now destruct (H v Hv).
Qed.

Lemma greatest_first versions g :
  greatest versions g ->
  nth_error (JS.reverse (JS.sort versions)) 0 = Some g.
Proof.
  intros Hg.
  destruct (sort_reverse_first_some (l := versions)) as [g' Hg'].
  { destruct Hg as [Hin _]. intros ->. destruct Hin. }
  rewrite Hg'. f_equal.
  apply (greatest_unique (versions := versions)); trivial.
  now apply sort_reverse_first.
Qed.

(** C4 (as the code has it): with [latest] the matcher returns the
    greatest declared version among those satisfying the range [*], which
    are the SemVer-valid versions without prerelease tag, whenever one is
    declared; when none is, it falls back to the greatest declared string
    in sort order, and throws if that string is empty. With a range it
    returns the greatest declared version satisfying the range, and throws
    [NoMatchingVersion] when no declared version does; the error carries
    every declared version and its message lists them. *)
Theorem pickVersion_spec (assetId : string) (versions : list string) :
  ((exists v, In v versions /\ stable v) ->
     exists m, AssetResolver.pickVersion assetId versions "latest" = Ok m /\
               max_satisfying rangeTest versions "*" m)
  /\
  ((forall v, In v versions -> ~ stable v) ->
     forall g, greatest versions g ->
       (g <> EmptyString ->
          AssetResolver.pickVersion assetId versions "latest" = Ok g) /\
       (g = EmptyString ->
          exists shown,
            AssetResolver.pickVersion assetId versions "latest" =
              Throw (NoMatchingVersion "latest" assetId shown) /\
            forall x, In x shown <-> In x versions))
  /\
  (forall range, range <> "latest" ->
     ((exists v, In v versions /\
                 Semver.satisfies rangeTest v range = true) ->
        exists m, AssetResolver.pickVersion assetId versions range = Ok m /\
                  max_satisfying rangeTest versions range m) /\
     ((forall v, In v versions ->
                 Semver.satisfies rangeTest v range = false) ->
        AssetResolver.pickVersion assetId versions range =
          Throw (NoMatchingVersion range assetId versions)))
  /\
  (forall range shown,
     message (NoMatchingVersion range assetId shown) =
     ("No version matching " ++ JS.quoted range ++ " found for asset "
      ++ JS.quoted assetId ++ ". Available: " ++ JS.join ", " shown)%string).
Proof.
  split; [|split; [|split]].
  - intros (v & Hin & Hv). apply satisfies_star in Hv.
    destruct (maxSatisfying_exists versions "*") as [m Hm];
      [now exists v|].
    exists m. split.
    + now apply pickVersion_found; [right|].
    + now apply maxSatisfying_some.
  - intros Hnone g Hg.
    rewrite (pickVersion_latest_fallback _ _ (no_stable_none _ Hnone)).
    rewrite (greatest_first Hg). split.
    + intros Hne. destruct (String.eqb_spec g ""); [contradiction|reflexivity].
    + intros ->. exists (JS.reverse (JS.sort versions)). split; trivial.
      intros x. unfold JS.reverse, JS.sort.
      rewrite <- in_rev. apply in_sort_by.
  - intros range Hr. split.
    + intros (v & Hin & Hv).
      destruct (maxSatisfying_exists versions range) as [m Hm];
        [now exists v|].
      exists m. split.
      * apply pickVersion_found; [now left|].
        apply String.eqb_neq in Hr. now rewrite Hr.
      * now apply maxSatisfying_some.
    + intros Hall. apply maxSatisfying_none in Hall.
      unfold AssetResolver.pickVersion, AssetResolver.selectVersion.
      apply String.eqb_neq in Hr. rewrite Hr, Hall. reflexivity.
  - reflexivity.
Qed.

End WithLibs.

(** C4, as stated, fails on the code: a prerelease that is the SemVer
    maximum is passed over for a lower stable version; when only a
    prerelease is SemVer-valid, the fallback returns a string that is no
    version at all; and the single declared version [""] is refused. *)
Lemma latest_is_not_the_semver_maximum :
  (AssetResolver.pickVersion (L := Scenario.libs) "test-asset"
     ["1.0.0"; "2.0.0-beta"] "latest" = Ok "1.0.0"
   /\ Semver.valid "2.0.0-beta" = true
   /\ (exists a b, Semver.parse "1.0.0" = Some a /\
                   Semver.parse "2.0.0-beta" = Some b /\
                   Semver.compare a b = Lt))
  /\ (AssetResolver.pickVersion (L := Scenario.libs) "test-asset"
        ["1.0.0-beta"; "zzz"] "latest" = Ok "zzz"
      /\ Semver.valid "1.0.0-beta" = true /\ Semver.valid "zzz" = false)
  /\ AssetResolver.pickVersion (L := Scenario.libs) "test-asset"
       [EmptyString] "latest"
     = Throw (NoMatchingVersion "latest" "test-asset" [EmptyString]).
Proof.
  repeat split; try reflexivity.
  eexists _, _. repeat split; reflexivity.
Qed.

End VersionMatcher.

(* ================================================================== *)
(** * The checkpointing publisher                                      *)
(* ================================================================== *)

Module PublisherFacts.
Import OrderFacts SortFacts SemverFacts ObjFacts VersionMatcher.

(** The version [k] of the asset has no explicit ref. *)
Definition rolling (asset : ParcaManifestAsset) (k : string) : Prop :=
  exists meta, JS.get (asset_versions asset) k = Some meta /\
               JS.truthy (version_ref meta) = false.

Section WithLibs.
Context {L : Libs}.

(** The version the checkpoint looks at: a greatest one among the
    SemVer-valid versions that satisfy [*]; when every valid version is a
    prerelease, the greatest valid version string in sort order. *)
Definition selected_previous (asset : ParcaManifestAsset) (p : string) : Prop :=
  let existing := Publisher.existingVersions asset in
  max_satisfying rangeTest existing "*" p
  \/ ((forall v, In v existing -> ~ stable v) /\ greatest existing p).

Lemma previousVersion_spec existing :
  existing <> [] ->
  exists p, Publisher.previousVersion existing = Some p /\ In p existing /\
    (max_satisfying rangeTest existing "*" p
     \/ ((forall v, In v existing -> ~ stable v) /\ greatest existing p)).
Proof.
  intros Hne. unfold Publisher.previousVersion, JS.or_else.
  destruct (Semver.maxSatisfying rangeTest existing "*") as [m|] eqn:E.
  - rewrite (maxSatisfying_truthy _ _ E). exists m.
    apply maxSatisfying_some in E. split; trivial. split; [apply E|now left].
  - change (JS.truthy None) with false. cbv iota.
    destruct (sort_reverse_first_some Hne) as [g Hg]. exists g.
    split; trivial. apply sort_reverse_first in Hg. split; [apply Hg|].
    right. split; trivial.
    intros v Hv Hs. apply satisfies_star in Hs.
    rewrite maxSatisfying_none in E. rewrite (E v Hv) in Hs. discriminate.
Qed.

Lemma existing_in asset k :
  In k (Publisher.existingVersions asset) <->
  (exists meta, JS.get (asset_versions asset) k = Some meta) /\
  Semver.valid k = true.
Proof.
  unfold Publisher.existingVersions. now rewrite filter_In, in_keys_get.
Qed.

(** What the checkpoint does to an asset. *)
Lemma checkpoint_spec head asset :
  (Publisher.existingVersions asset = [] /\
   Publisher.checkpoint head asset = asset)
  \/
  exists p meta,
    selected_previous asset p /\
    JS.get (asset_versions asset) p = Some meta /\
    ((JS.truthy (version_ref meta) = false /\
      exists c, head = Some c /\
        Publisher.checkpoint head asset =
        Publisher.set_versions asset
          (JS.set (asset_versions asset) p
             (Publisher.set_ref meta (JS.trim c))))
     \/
     ((JS.truthy (version_ref meta) = true \/ head = None) /\
      Publisher.checkpoint head asset = asset)).
Proof.
  unfold Publisher.checkpoint.
  destruct (Publisher.existingVersions asset) as [|v0 rest] eqn:E.
  - left. now split.
  - right. change (0 <? List.length (v0 :: rest))%nat with true. cbv iota.
    destruct (@previousVersion_spec (v0 :: rest)) as (p & Hp & Hin & Hsel);
      [discriminate|].
    rewrite Hp.
    assert (exists meta, JS.get (asset_versions asset) p = Some meta)
      as [meta Hmeta].
    { rewrite <- E in Hin. now apply existing_in in Hin. }
    exists p, meta. rewrite Hmeta.
    split; [unfold selected_previous; now rewrite E|]. split; trivial.
    destruct (JS.truthy (version_ref meta)) eqn:Ht; simpl.
    + right. split; [now left|reflexivity].
    + destruct head as [c|].
      * left. split; trivial. now exists c.
      * right. split; [now right|reflexivity].
Qed.

Lemma checkpoint_get head asset k :
  JS.get (asset_versions (Publisher.checkpoint head asset)) k = None <->
  JS.get (asset_versions asset) k = None.
Proof.
  destruct (checkpoint_spec head asset)
    as [[_ ->]|(p & meta & _ & Hp & [(_ & c & _ & ->)|(_ & ->)])];
    try tauto.
  simpl. destruct (String.eqb_spec p k) as [->|Hne].
  - rewrite get_set_same, Hp. split; discriminate.
  - now rewrite get_set_other.
Qed.

(** The asset [publishVersion] works on: the declared one, or a new one
    without versions. *)
Definition asset_or_new (manifest : ParcaManifest) (assetId : string)
    (kind : AssetKind) : ParcaManifestAsset :=
  match JS.get (manifest_assets manifest) assetId with
  | Some a => a
  | None => mkAsset kind None []
  end.

Lemma publishVersion_run head manifest assetId version filePath kind :
  Publisher.publishVersion head manifest assetId version filePath kind =
  match JS.member (manifest_assets manifest) assetId with
  | JS.Inherited => Throw (Publisher.undefinedProperty version)
  | _ =>
      let asset := asset_or_new manifest assetId kind in
      match JS.member (asset_versions asset) version with
      | JS.Absent =>
          let checked := Publisher.checkpoint head asset in
          Ok (Publisher.set_assets manifest
                (JS.set (manifest_assets manifest) assetId
                   (Publisher.set_versions checked
                      (JS.set (asset_versions checked) version
                         (mkVersion None filePath None)))))
      | _ => Throw (DuplicateVersion version assetId)
      end
  end.
Proof.
  unfold Publisher.publishVersion, Publisher.ensureAsset, asset_or_new,
    JS.member.
  destruct (JS.get (manifest_assets manifest) assetId) as [a|] eqn:E.
  - rewrite E. reflexivity.
  - destruct (JS.inherited assetId); [now rewrite E|].
    unfold Publisher.set_assets. cbn [manifest_assets].
    rewrite get_set_same. cbn [asset_versions JS.get].
    cbn [manifest_schema manifest_versionStrategy].
    destruct (JS.inherited version); [reflexivity|].
    now rewrite set_set.
Qed.

(** A publication that returns has found the asset id declared or free,
    and the version neither declared nor inherited. *)
Lemma publishVersion_ok head manifest assetId version filePath kind m :
  Publisher.publishVersion head manifest assetId version filePath kind = Ok m ->
  let asset := asset_or_new manifest assetId kind in
  let checked := Publisher.checkpoint head asset in
  JS.member (manifest_assets manifest) assetId <> JS.Inherited /\
  JS.get (asset_versions asset) version = None /\
  JS.inherited version = false /\
  m = Publisher.set_assets manifest
        (JS.set (manifest_assets manifest) assetId
           (Publisher.set_versions checked
              (JS.set (asset_versions checked) version
                 (mkVersion None filePath None)))).
Proof.
  rewrite publishVersion_run. cbv zeta.
  set (asset := asset_or_new manifest assetId kind).
  destruct (JS.member (manifest_assets manifest) assetId) eqn:Em;
    try discriminate;
    (unfold JS.member at 1;
     destruct (JS.get (asset_versions asset) version) eqn:Ev;
       [discriminate|];
     destruct (JS.inherited version) eqn:Ei; [discriminate|];
     intros [= <-]; repeat split; congruence).
Qed.

(** C6 (as the code has it): a publication fails with [DuplicateVersion]
    when the version is already declared for the asset, and also when it is
    the name of a member every object inherits (such as [constructor]),
    which the duplicate check finds as well; under an asset id that is not
    declared and is such a name, it fails while reading the versions.
    Otherwise it succeeds, the new version is declared without a ref, the
    other assets are as they were, and among the versions that were
    declared at most one changes: the version [p] the checkpoint selects,
    which is a greatest SemVer-valid version satisfying [*] (prereleases
    left out) or, when all valid versions are prereleases, the greatest
    valid string in sort order. It receives the trimmed head commit as its
    ref exactly when it had no ref and the head commit is available; a
    lower version without a ref is never pinned. *)
Theorem publishVersion_checkpoints_selected_previous
    (head : option string) (manifest : ParcaManifest)
    (assetId version filePath : string) (kind : AssetKind) :
  let asset := asset_or_new manifest assetId kind in
  (JS.get (manifest_assets manifest) assetId = None ->
   JS.inherited assetId = true ->
   Publisher.publishVersion head manifest assetId version filePath kind
   = Throw (Publisher.undefinedProperty version))
  /\
  ((exists declared, JS.get (manifest_assets manifest) assetId = Some declared)
   \/ JS.inherited assetId = false ->
   ((exists meta, JS.get (asset_versions asset) version = Some meta)
    \/ JS.inherited version = true ->
    Publisher.publishVersion head manifest assetId version filePath kind
    = Throw (DuplicateVersion version assetId))
   /\
   (JS.get (asset_versions asset) version = None ->
    JS.inherited version = false ->
    exists manifest' asset',
      Publisher.publishVersion head manifest assetId version filePath kind
      = Ok manifest' /\
      JS.get (manifest_assets manifest') assetId = Some asset' /\
      JS.get (asset_versions asset') version
      = Some (mkVersion None filePath None) /\
      (forall other, other <> assetId ->
         JS.get (manifest_assets manifest') other
         = JS.get (manifest_assets manifest) other) /\
      ((Publisher.existingVersions asset = [] /\
        forall k, k <> version ->
          JS.get (asset_versions asset') k = JS.get (asset_versions asset) k)
       \/
       exists p meta,
         selected_previous asset p /\
         JS.get (asset_versions asset) p = Some meta /\
         (forall k, k <> version -> k <> p ->
            JS.get (asset_versions asset') k = JS.get (asset_versions asset) k) /\
         (forall c, JS.truthy (version_ref meta) = false -> head = Some c ->
            JS.get (asset_versions asset') p
            = Some (Publisher.set_ref meta (JS.trim c))) /\
         (JS.truthy (version_ref meta) = true \/ head = None ->
            JS.get (asset_versions asset') p = Some meta)))).
Proof.
  intros asset. subst asset. rewrite publishVersion_run. cbv zeta.
  set (asset := asset_or_new manifest assetId kind). split.
  { intros Hnone Hin. unfold JS.member. now rewrite Hnone, Hin. }
  intros Hid.
  assert (Hrun :
    match JS.member (manifest_assets manifest) assetId with
    | JS.Inherited => Throw (Publisher.undefinedProperty version)
    | _ =>
        match JS.member (asset_versions asset) version with
        | JS.Absent =>
            Ok (Publisher.set_assets manifest
                  (JS.set (manifest_assets manifest) assetId
                     (Publisher.set_versions (Publisher.checkpoint head asset)
                        (JS.set (asset_versions (Publisher.checkpoint head asset))
                           version (mkVersion None filePath None)))))
        | _ => Throw (DuplicateVersion version assetId)
        end
    end =
    match JS.member (asset_versions asset) version with
    | JS.Absent =>
        Ok (Publisher.set_assets manifest
              (JS.set (manifest_assets manifest) assetId
                 (Publisher.set_versions (Publisher.checkpoint head asset)
                    (JS.set (asset_versions (Publisher.checkpoint head asset))
                       version (mkVersion None filePath None)))))
    | _ => Throw (DuplicateVersion version assetId)
    end).
  { unfold JS.member at 1.
    destruct Hid as [[declared ->]|Hin]; [reflexivity|].
    rewrite Hin. now destruct (JS.get (manifest_assets manifest) assetId). }
  rewrite Hrun. clear Hrun. split.
  - unfold JS.member. intros [[meta ->]|Hin]; [reflexivity|].
    rewrite Hin. now destruct (JS.get (asset_versions asset) version).
  - intros Hnone Hin. unfold JS.member. rewrite Hnone, Hin.
    eexists _, _. split; [reflexivity|].
    unfold Publisher.set_assets, Publisher.set_versions. simpl.
    split; [apply get_set_same|].
    split; [apply get_set_same|].
    split; [intros other Hne; apply get_set_other; congruence|].
    cbn [asset_versions].
    destruct (checkpoint_spec head asset)
      as [[He Hc]|(p & meta & Hsel & Hp & Hcase)].
    + left. split; trivial. intros k Hk.
      rewrite get_set_other by congruence. now rewrite Hc.
    + right. exists p, meta. split; trivial. split; trivial.
      assert (p <> version) as Hpv by (intros ->; congruence).
      destruct Hcase as [(Hroll & c & Hhead & Hc)|(Hkeep & Hc)]; rewrite Hc.
      * simpl. split; [|split].
        -- intros k Hk Hkp. rewrite !get_set_other by congruence. reflexivity.
        -- intros c' _ Hc'. rewrite get_set_other by congruence.
           rewrite get_set_same. congruence.
        -- intros [Ht|Hh]; congruence.
      * split; [|split].
        -- intros k Hk Hkp. now rewrite get_set_other by congruence.
        -- intros c' Ht Hc'. destruct Hkeep; congruence.
        -- intros _. now rewrite get_set_other by congruence.
Qed.

End WithLibs.

(** C6, as stated, fails on the code. The asset declares [1.0.0], pinned,
    and the prerelease [2.0.0-beta], which has no ref and is the greatest
    SemVer-valid version. Publishing [3.0.0] with the head commit available
    leaves [2.0.0-beta] without a ref: the checkpoint looked at [1.0.0].
    Likewise, with [2.0.0] pinned and [1.0.0] not, publishing [3.0.0] pins
    nothing, although [1.0.0] is the greatest version without a ref. And
    the version [constructor], which the asset does not declare, is
    refused as a duplicate instead of being added. *)
Lemma checkpoint_passes_over_versions_without_ref :
  let v ref := mkVersion ref "prompts/test.md" None in
  let declared versions :=
    mkManifest "1.0" None [("test-asset", mkAsset prompt None versions)] in
  (Publisher.publishVersion (L := Scenario.libs) (Some "def456")
     (declared [("1.0.0", v (Some "abc123")); ("2.0.0-beta", v None)])
     "test-asset" "3.0.0" "prompts/test.md" prompt
   = Ok (declared [("1.0.0", v (Some "abc123")); ("2.0.0-beta", v None);
                   ("3.0.0", v None)])
   /\ Semver.valid "2.0.0-beta" = true
   /\ (exists a b, Semver.parse "1.0.0" = Some a /\
                   Semver.parse "2.0.0-beta" = Some b /\
                   Semver.compare a b = Lt))
  /\
  Publisher.publishVersion (L := Scenario.libs) (Some "def456")
    (declared [("1.0.0", v None); ("2.0.0", v (Some "abc123"))])
    "test-asset" "3.0.0" "prompts/test.md" prompt
  = Ok (declared [("1.0.0", v None); ("2.0.0", v (Some "abc123"));
                  ("3.0.0", v None)])
  /\
  Publisher.publishVersion (L := Scenario.libs) (Some "def456")
    (declared [("1.0.0", v None)])
    "test-asset" "constructor" "prompts/test.md" prompt
  = Throw (DuplicateVersion "constructor" "test-asset").
Proof.
  repeat split; try reflexivity.
  eexists _, _. repeat split; reflexivity.
Qed.

End PublisherFacts.

(* ================================================================== *)
(** * The rolling-version invariant of publishing                      *)
(* ================================================================== *)

Module PublishInvariant.
Import OrderFacts SortFacts SemverFacts ObjFacts VersionMatcher PublisherFacts.

(** [a] comes strictly before [b] in SemVer precedence. *)
Definition vlt (a b : string) : Prop :=
  exists sa sb, Semver.parse a = Some sa /\ Semver.parse b = Some sb /\
                Semver.compare sa sb = Lt.

(** [k] is a stable version strictly above every other declared version. *)
Definition newest (asset : ParcaManifestAsset) (k : string) : Prop :=
  stable k /\
  forall k' meta', JS.get (asset_versions asset) k' = Some meta' ->
                   k' <> k -> vlt k' k.

(** At most one version has no ref, and it is the newest. *)
Definition one_rolling_newest (asset : ParcaManifestAsset) : Prop :=
  (forall k1 k2, rolling asset k1 -> rolling asset k2 -> k1 = k2) /\
  (forall k, rolling asset k -> newest asset k).

(** Every asset has no version yet, or a single, stable one. *)
Definition initial (m : ParcaManifest) : Prop :=
  forall id asset, JS.get (manifest_assets m) id = Some asset ->
    asset_versions asset = [] \/
    exists k meta, asset_versions asset = [(k, meta)] /\ stable k.

(** The invariant the induction carries. *)
Definition well_pinned (asset : ParcaManifestAsset) : Prop :=
  (forall k meta, JS.get (asset_versions asset) k = Some meta -> stable k) /\
  (forall k, rolling asset k ->
     forall k' meta', JS.get (asset_versions asset) k' = Some meta' ->
                      k' <> k -> vlt k' k).

Lemma vlt_asym a b : vlt a b -> vlt b a -> False.
Proof.
  intros (sa & sb & Ha & Hb & H1) (sb' & sa' & Hb' & Ha' & H2).
  rewrite Ha in Ha'. rewrite Hb in Hb'.
  injection Ha' as <-. injection Hb' as <-.
  rewrite (ord_opp compare_order sa sb), H1 in H2. discriminate.
Qed.

Lemma well_pinned_one_rolling asset :
  well_pinned asset -> one_rolling_newest asset.
Proof.
  intros [Hst Hnew]. split.
  - intros k1 k2 H1 H2. destruct (string_dec k1 k2) as [|Hne]; trivial.
    exfalso.
    pose proof H1 as (m1 & Hg1 & _). pose proof H2 as (m2 & Hg2 & _).
    apply (@vlt_asym k1 k2).
    + eapply Hnew; eauto.
    + eapply Hnew; eauto.
  - intros k Hk. split.
    + destruct Hk as (meta & Hg & _). eauto.
    + now apply Hnew.
Qed.

Lemma initial_well_pinned m id asset :
  initial m -> JS.get (manifest_assets m) id = Some asset -> well_pinned asset.
Proof.
  intros Hi Hg. unfold well_pinned, rolling.
  destruct (Hi _ _ Hg) as [E|(k & meta & E & Hs)]; rewrite E.
  - split.
    + intros k meta. discriminate.
    + intros k (meta & H & _). discriminate.
  - split.
    + intros k' meta'. simpl.
      destruct (String.eqb_spec k k'); [now intros _; subst|discriminate].
    + intros k0 (meta0 & H0 & _) k' meta'. simpl in *.
      destruct (String.eqb_spec k k0); [subst k0|discriminate].
      destruct (String.eqb_spec k k'); [congruence|discriminate].
Qed.

Section WithLibs.
Context {L : Libs}.

(** A sequence of successful publications, each of a stable version above
    every version its asset declares, with the head commit at hand. *)
Inductive published : ParcaManifest -> ParcaManifest -> Prop :=
| published_none m : published m m
| published_step m m1 m2 head assetId version filePath kind :
    published m m1 ->
    JS.trim head <> EmptyString ->
    stable version ->
    (forall k meta,
       JS.get (asset_versions (asset_or_new m1 assetId kind)) k = Some meta ->
       vlt k version) ->
    Publisher.publishVersion (Some head) m1 assetId version filePath kind
    = Ok m2 ->
    published m m2.

Lemma stable_existing asset k meta :
  well_pinned asset -> JS.get (asset_versions asset) k = Some meta ->
  In k (Publisher.existingVersions asset) /\
  Semver.satisfies rangeTest k "*" = true.
Proof.
  intros [Hst _] Hg. pose proof (Hst _ _ Hg) as Hs.
  apply satisfies_star in Hs. split; trivial.
  apply existing_in. split; [now exists meta|].
  eapply satisfies_valid; eassumption.
Qed.

(** In a well-pinned asset, a version without ref is the one the checkpoint
    selects. *)
Lemma rolling_is_selected asset k p :
  well_pinned asset -> rolling asset k -> selected_previous asset p ->
  forall meta, JS.get (asset_versions asset) p = Some meta -> k = p.
Proof.
  intros Hwp (mk & Hk & Hroll) Hsel mp Hp.
  destruct (string_dec k p) as [|Hne]; trivial. exfalso.
  destruct (@stable_existing _ _ _ Hwp Hk) as [Hink Hsatk].
  destruct Hsel as [(_ & sp & Hpp & _ & Hmax)|[Hnone _]].
  - destruct Hwp as [_ Hnew].
    destruct (Hnew k (ex_intro _ mk (conj Hk Hroll)) p mp Hp)
      as (sp' & sk & Hpp' & Hpk & Hlt); [congruence|].
    rewrite Hpp in Hpp'. injection Hpp' as <-.
    assert (Semver.testRange rangeTest "*" sk = true) as Htk.
    { unfold Semver.satisfies in Hsatk. now rewrite Hpk in Hsatk. }
    specialize (Hmax k sk Hink Hpk Htk). unfold le in Hmax.
    rewrite (ord_opp compare_order sp sk), Hlt in Hmax. now apply Hmax.
  - apply (Hnone k Hink). now apply satisfies_star.
Qed.

Lemma checkpoint_well_pinned head asset :
  JS.trim head <> EmptyString -> well_pinned asset ->
  well_pinned (Publisher.checkpoint (Some head) asset) /\
  forall k, ~ rolling (Publisher.checkpoint (Some head) asset) k.
Proof.
  intros Hhead Hwp.
  destruct (checkpoint_spec (Some head) asset)
    as [[He Hc]|(p & meta & Hsel & Hp & Hcase)].
  - rewrite Hc. split; trivial.
    intros k (mk & Hk & _).
    destruct (@stable_existing _ _ _ Hwp Hk) as [Hin _]. rewrite He in Hin.
    destruct Hin.
  - destruct Hcase as [(Hroll & c & [= <-] & Hc)|([Ht|Hh] & Hc)];
      [| |discriminate]; rewrite Hc.
    + assert (Hnone : forall k,
                ~ rolling (Publisher.set_versions asset
                             (JS.set (asset_versions asset) p
                                (Publisher.set_ref meta (JS.trim head)))) k).
      { intros k (mk & Hk & Hr). simpl in Hk.
        destruct (string_dec p k) as [->|Hne].
        - rewrite get_set_same in Hk. injection Hk as <-. simpl in Hr.
          destruct (String.eqb_spec (JS.trim head) ""); [contradiction|].
          discriminate.
        - rewrite get_set_other in Hk by trivial.
          apply Hne. symmetry.
          eapply rolling_is_selected; eauto. now exists mk. }
      split; trivial. split.
      * intros k mk. simpl.
        destruct (string_dec p k) as [->|Hne].
        -- intros _. destruct Hwp as [Hst _]. eauto.
        -- rewrite get_set_other by trivial. destruct Hwp as [Hst _]. eauto.
      * intros k Hk. now destruct (Hnone k).
    + split; trivial.
      intros k Hk. pose proof Hk as (mk & Hgk & Hrk).
      assert (k = p) as -> by (eapply rolling_is_selected; eauto).
      congruence.
Qed.

Lemma publish_well_pinned head m1 m2 assetId version filePath kind :
  JS.trim head <> EmptyString ->
  stable version ->
  (forall k meta,
     JS.get (asset_versions (asset_or_new m1 assetId kind)) k = Some meta ->
     vlt k version) ->
  Publisher.publishVersion (Some head) m1 assetId version filePath kind
  = Ok m2 ->
  (forall id asset, JS.get (manifest_assets m1) id = Some asset ->
                    well_pinned asset) ->
  forall id asset, JS.get (manifest_assets m2) id = Some asset ->
                   well_pinned asset.
Proof.
  intros Hhead Hstable Habove Hpub Hall id asset Hget.
  apply publishVersion_ok in Hpub. cbv zeta in Hpub.
  destruct Hpub as (_ & Hdup & _ & ->).
  set (asset0 := asset_or_new m1 assetId kind) in *.
  unfold Publisher.set_assets in Hget. cbn [manifest_assets] in Hget.
  destruct (string_dec assetId id) as [->|Hne];
    [|rewrite get_set_other in Hget by trivial; eauto].
  rewrite get_set_same in Hget. injection Hget as <-.
  assert (well_pinned asset0) as Hwp0.
  { subst asset0. unfold asset_or_new.
    destruct (JS.get (manifest_assets m1) id) eqn:E; [eauto|].
    split.
    - intros k meta. discriminate.
    - intros k (meta & H & _). discriminate. }
  destruct (@checkpoint_well_pinned head asset0 Hhead Hwp0)
    as [[Hst Hnew] Hnoroll].
  set (checked := Publisher.checkpoint (Some head) asset0) in *.
  split.
  - intros k meta. cbn [Publisher.set_versions asset_versions].
    destruct (string_dec version k) as [->|Hne].
    + now intros _.
    + rewrite get_set_other by trivial. apply Hst.
  - intros k (mk & Hk & Hr) k' meta' Hk' Hkk'.
    cbn [Publisher.set_versions asset_versions] in Hk, Hk'.
    destruct (string_dec version k) as [->|Hne].
    + rewrite get_set_other in Hk' by congruence.
      destruct (JS.get (asset_versions asset0) k') as [m0|] eqn:E0.
      * eapply Habove. exact E0.
      * apply (proj2 (checkpoint_get (Some head) asset0 k')) in E0.
        fold checked in E0. congruence.
    + rewrite get_set_other in Hk by trivial.
      destruct (Hnoroll k). now exists mk.
Qed.

Lemma published_well_pinned m0 m :
  initial m0 -> published m0 m ->
  forall id asset, JS.get (manifest_assets m) id = Some asset ->
                   well_pinned asset.
Proof.
  intros Hi Hp. induction Hp as [m|m m1 m2 head assetId version filePath kind
                                   Hp IH Hhead Hst Habove Hpub].
  - intros id asset. now apply initial_well_pinned.
  - eapply publish_well_pinned; eauto.
Qed.

(** C7 (as the code has it): starting from a manifest whose assets have
    no version or a single stable one, after every sequence of successful
    publications in which each published version is a stable SemVer
    version strictly above every version its asset already declares, and
    the head commit is available and not empty at each step, at most one
    version of every asset has no ref, and that version is the newest. *)
Theorem publishing_keeps_one_rolling_version (m0 m : ParcaManifest) :
  initial m0 -> published m0 m ->
  forall id asset, JS.get (manifest_assets m) id = Some asset ->
                   one_rolling_newest asset.
Proof.
  intros Hi Hp id asset Hg. apply well_pinned_one_rolling.
  eapply published_well_pinned; eassumption.
Qed.

End WithLibs.

(** Publishing [1.0.0] and then [1.1.0] of a new asset, from the empty
    manifest: [1.0.0] is pinned to the head of the second publication and
    [1.1.0] is the one rolling version. *)
Lemma publishing_in_order_keeps_one_rolling_version :
  one_rolling_newest
    (mkAsset prompt None
       [("1.0.0", mkVersion (Some "c2") "prompts/test.md" None);
        ("1.1.0", mkVersion None "prompts/test.md" None)]).
Proof.
  apply (@publishing_keeps_one_rolling_version Scenario.libs
           (mkManifest "1.0" None [])
           (mkManifest "1.0" None
              [("test-asset",
                mkAsset prompt None
                  [("1.0.0", mkVersion (Some "c2") "prompts/test.md" None);
                   ("1.1.0", mkVersion None "prompts/test.md" None)])]))
    with (id := "test-asset").
  - intros id asset. discriminate.
  - apply (@published_step Scenario.libs _
             (mkManifest "1.0" None
                [("test-asset",
                  mkAsset prompt None
                    [("1.0.0", mkVersion None "prompts/test.md" None)])])
             _ "c2" "test-asset" "1.1.0" "prompts/test.md" prompt).
    + apply (@published_step Scenario.libs _ (mkManifest "1.0" None [])
               _ "c1" "test-asset" "1.0.0" "prompts/test.md" prompt).
      * apply published_none.
      * discriminate.
      * eexists. split; reflexivity.
      * intros k meta. discriminate.
      * reflexivity.
    + discriminate.
    + eexists. split; reflexivity.
    + intros k meta H. apply get_singleton in H as [-> _].
      eexists _, _. repeat split; reflexivity.
    + reflexivity.
  - reflexivity.
Defined.

(** C7, as stated, fails on the code. From the empty manifest, [2.0.0],
    [1.0.0] and [3.0.0] are published in that order, each with its head
    commit available. After the second publication the one version without
    a ref, [1.0.0], is not the newest; after the third, [1.0.0] and [3.0.0]
    both have no ref. *)
Lemma publishing_out_of_order_leaves_two_rolling_versions :
  let empty := mkManifest "1.0" None [] in
  let declared versions :=
    mkManifest "1.0" None [("test-asset", mkAsset prompt None versions)] in
  let v ref := mkVersion ref "prompts/test.md" None in
  Publisher.publishVersion (L := Scenario.libs) (Some "c1") empty
    "test-asset" "2.0.0" "prompts/test.md" prompt
  = Ok (declared [("2.0.0", v None)])
  /\ Publisher.publishVersion (L := Scenario.libs) (Some "c2")
       (declared [("2.0.0", v None)])
       "test-asset" "1.0.0" "prompts/test.md" prompt
     = Ok (declared [("2.0.0", v (Some "c2")); ("1.0.0", v None)])
  /\ Publisher.publishVersion (L := Scenario.libs) (Some "c3")
       (declared [("2.0.0", v (Some "c2")); ("1.0.0", v None)])
       "test-asset" "3.0.0" "prompts/test.md" prompt
     = Ok (declared [("2.0.0", v (Some "c2")); ("1.0.0", v None);
                     ("3.0.0", v None)])
  /\ rolling (mkAsset prompt None
                [("2.0.0", v (Some "c2")); ("1.0.0", v None);
                 ("3.0.0", v None)]) "1.0.0"
  /\ rolling (mkAsset prompt None
                [("2.0.0", v (Some "c2")); ("1.0.0", v None);
                 ("3.0.0", v None)]) "3.0.0".
Proof.
  repeat split; try reflexivity.
  - eexists. split; reflexivity.
  - eexists. split; reflexivity.
Qed.

End PublishInvariant.

(* ================================================================== *)
(** * Runs of the collaborators and of the cache                       *)
(* ================================================================== *)

Unset Implicit Arguments.

Module RunFacts.
Import Frame ObjFacts.

Section WithEnv.
Context {env : Env} {L : Libs}.

Lemma resolveRef_run git ref w :
  GitProvider.resolveRef git ref w =
  match repo_resolveRef (remote (GitProvider.repoUrl git)) ref with
  | Found c => (Ok c, add_event (ResolveRef (GitProvider.repoUrl git) ref) w)
  | Failed m =>
      (Throw (ExternalError m),
       add_event (ResolveRef (GitProvider.repoUrl git) ref) w)
  end.
Proof.
  unfold GitProvider.resolveRef, bind. rewrite log_run.
  now destruct (repo_resolveRef _ ref).
Qed.

Lemma fetchFile_run git path ref w :
  GitProvider.fetchFile git path ref w =
  match repo_fetchFile (remote (GitProvider.repoUrl git)) path ref with
  | Found c => (Ok c, add_event (FetchFile (GitProvider.repoUrl git) path ref) w)
  | Failed m =>
      (Throw (ExternalError m),
       add_event (FetchFile (GitProvider.repoUrl git) path ref) w)
  end.
Proof.
  unfold GitProvider.fetchFile, bind. rewrite log_run.
  now destruct (repo_fetchFile _ path ref).
Qed.


(** The manifest a repository serves at a ref, as [fetchManifest] reads
    it. *)
Definition manifest_at (git : GitProvider.t) (ref : string)
  : Result ParcaManifest :=
  match repo_fetchFile (remote (GitProvider.repoUrl git))
          ManifestResolver.MANIFEST_FILENAME ref with
  | Found content =>
      match yaml_load_manifest content with
      | Found manifest =>
          if (manifest_schema manifest =? "")%string
          then Throw (ManifestInvalid
                        ("Manifest missing " ++ JS.quoted "schema" ++ " field."))
          else Ok manifest
      | Failed m => Throw (ExternalError m)
      end
  | Failed m => Throw (ExternalError m)
  end.

Lemma fetchManifest_run git ref w :
  ManifestResolver.fetchManifest git ref w =
  (manifest_at git ref,
   add_event (FetchFile (GitProvider.repoUrl git)
                ManifestResolver.MANIFEST_FILENAME ref) w).
Proof.
  unfold ManifestResolver.fetchManifest, manifest_at, bind.
  rewrite fetchFile_run.
  destruct (repo_fetchFile _ _ ref) as [content|m]; trivial.
  destruct (yaml_load_manifest content) as [manifest|m]; simpl; trivial.
  unfold ManifestResolver.validate.
  now destruct (manifest_schema manifest =? "")%string.
Qed.

(** ** The cache *)

Lemma key_eqb_eq a b : CacheManager.key_eqb a b = true <-> a = b.
Proof.
  destruct a as [[s i] v], b as [[s' i'] v']. simpl.
  rewrite !andb_true_iff, !String.eqb_eq. split.
  - intros [[-> ->] ->]. reflexivity.
  - intros [= -> -> ->]. auto.
Qed.

Lemma key_eqb_refl a : CacheManager.key_eqb a a = true.
Proof. now apply key_eqb_eq. Qed.

Lemma lookup_store_same c k d :
  CacheManager.lookup_dir (CacheManager.store_dir c k d) k = Some d.
Proof.
  induction c as [|[k' d'] c IH]; simpl.
  - now rewrite key_eqb_refl.
  - destruct (CacheManager.key_eqb k' k) eqn:E; simpl.
    + now rewrite key_eqb_refl.
    + now rewrite E.
Qed.

Lemma computeHash_ext w w' p :
  cache w = cache w' ->
  CacheManager.computeHash w p = CacheManager.computeHash w' p.
Proof.
  intros H. unfold CacheManager.computeHash, CacheManager.readFileSync.
  now rewrite H.
Qed.

Lemma isCached_ext w w' s i v kind expected :
  cache w = cache w' ->
  CacheManager.isCached w s i v kind expected =
  CacheManager.isCached w' s i v kind expected.
Proof.
  intros H. unfold CacheManager.isCached, CacheManager.existsSync.
  rewrite (computeHash_ext w w' _ H).
  destruct (CacheManager.getAssetPath s i v kind); now rewrite H.
Qed.

Lemma readFromCache_ext w w' s i v kind :
  cache w = cache w' ->
  CacheManager.readFromCache w s i v kind =
  CacheManager.readFromCache w' s i v kind.
Proof.
  intros H.
  unfold CacheManager.readFromCache, CacheManager.existsSync,
    CacheManager.readFileSync.
  destruct (CacheManager.getAssetPath s i v kind); now rewrite H.
Qed.

Lemma fastPath_ext w w' locked entry commit kind allowUpdate :
  cache w = cache w' ->
  AssetResolver.fastPath w locked entry commit kind allowUpdate =
  AssetResolver.fastPath w' locked entry commit kind allowUpdate.
Proof.
  intros H. unfold AssetResolver.fastPath. destruct locked; trivial.
  now rewrite (isCached_ext w w' _ _ _ _ _ H).
Qed.

(** The cache holds a well-formed copy of the asset version whose hash,
    recomputed from the stored bytes, is [sha256]. *)
Definition cacheHolds (w : World) (sourceAlias assetId version : string)
    (kind : AssetKind) (sha256 : string) : Prop :=
  match kind with
  | skill =>
      exists d,
        CacheManager.lookup_dir (cache w) (sourceAlias, assetId, version)
        = Some d /\
        (exists f, In f (CacheManager.readdir d) /\
                   JS.toLowerCase f = "skill.md") /\
        CacheManager.computeDirectoryHash d = sha256
  | _ =>
      exists content,
        CacheManager.readFileSync w (sourceAlias, assetId, version)
          (assetId ++ ".md") = Some content /\
        CacheManager.computeHashFromString content = sha256
  end.

Lemma cacheHolds_isCached w s i v kind sha :
  cacheHolds w s i v kind sha ->
  CacheManager.isCached w s i v kind (Some sha) = true.
Proof.
  unfold cacheHolds, CacheManager.isCached, CacheManager.existsSync,
    CacheManager.getAssetPath, CacheManager.getAssetDir,
    CacheManager.computeHash, CacheManager.readFileSync.
  destruct kind.
  - intros (content & Hread & Hsha).
    destruct (CacheManager.lookup_dir (cache w) (s, i, v)) as [d|];
      [|discriminate].
    rewrite Hread. simpl. rewrite Hsha.
    destruct (sha =? "")%string; simpl; trivial. apply String.eqb_refl.
  - intros (d & Hd & (f & Hin & Hf) & Hsha). rewrite Hd. simpl.
    assert (existsb (fun f => (JS.toLowerCase f =? "skill.md")%string)
              (CacheManager.readdir d) = true) as ->.
    { apply existsb_exists. exists f. split; trivial.
      now apply String.eqb_eq. }
    simpl. rewrite Hsha.
    destruct (sha =? "")%string; simpl; trivial. apply String.eqb_refl.
  - intros (content & Hread & Hsha).
    destruct (CacheManager.lookup_dir (cache w) (s, i, v)) as [d|];
      [|discriminate].
    rewrite Hread. simpl. rewrite Hsha.
    destruct (sha =? "")%string; simpl; trivial. apply String.eqb_refl.
Qed.

(** ** The link step *)










End WithEnv.
End RunFacts.

(* ================================================================== *)
(** * resolveAsset: fast path, slow path and the integrity gate        *)
(* ================================================================== *)

Module ResolveAsset.
Import Frame ObjFacts RunFacts.

Section WithEnv.
Context {env : Env} {L : Libs}.

(** The lockfile as [load] reads it. *)
Definition current_lockfile (w : World) : ParcaLockfile :=
  match lockfileFile w with
  | Some l => l
  | None => mkLockfile []
  end.

(** The entry of the lockfile for an asset entry's id and source. *)
Definition locked_for (w : World) (entry : ParcaAssetEntry)
  : option ParcaLockedAsset :=
  LockfileManager.findAsset (current_lockfile w) (entry_id entry)
    (entry_source entry).

Definition cache_path (entry : ParcaAssetEntry) (kind : AssetKind)
  : CacheManager.CachePath :=
  CacheManager.getAssetPath (entry_source entry) (entry_id entry)
    (entry_version entry) kind.

(** [resolveAsset] up to the choice between its two paths. *)
Lemma resolveAsset_paths entry manifest git manifestRef allowUpdate w
    assetMeta versionMeta commit :
  JS.get (manifest_assets manifest) (entry_id entry) = Some assetMeta ->
  JS.get (asset_versions assetMeta) (entry_version entry) = Some versionMeta ->
  repo_resolveRef (remote (GitProvider.repoUrl git))
    (AssetResolver.effectiveRef versionMeta manifestRef) = Found commit ->
  let ref := AssetResolver.effectiveRef versionMeta manifestRef in
  let w1 := add_event (ResolveRef (GitProvider.repoUrl git) ref) w in
  let kind := asset_kind assetMeta in
  let locked := locked_for w entry in
  AssetResolver.resolveAsset entry manifest git manifestRef allowUpdate w =
  if AssetResolver.fastPath w locked entry commit kind allowUpdate then
    (let cachedPath := CacheManager.path_string (cache_path entry kind) in
     AssetResolver.linkIfMapped entry cachedPath kind ;;;
     w' <- get_world ;;
     ret (mkResolved (entry_id entry) (entry_version entry)
            (entry_source entry) commit
            (match locked with
             | Some l => locked_sha256 l
             | None => EmptyString
             end)
            (JS.or_default
               (CacheManager.readFromCache w' (entry_source entry)
                  (entry_id entry) (entry_version entry) kind)
               EmptyString)
            cachedPath (entry_mapping entry))) w1
  else
    (fetched <- AssetResolver.fetchAndCache git entry kind versionMeta ref ;;
     let '(sha256, cachedPath, content) := fetched in
     AssetResolver.integrityGate locked entry sha256 allowUpdate ;;;
     let manifestHash :=
       CacheManager.computeHashFromString (JSON_stringify manifest) in
     let lockedEntry :=
       mkLocked (entry_id entry) (entry_version entry) (entry_source entry)
         commit sha256 manifestHash now in
     LockfileManager.save
       (LockfileManager.upsertAsset (current_lockfile w) lockedEntry) ;;;
     AssetResolver.linkIfMapped entry cachedPath kind ;;;
     ret (mkResolved (entry_id entry) (entry_version entry)
            (entry_source entry) commit sha256 content cachedPath
            (entry_mapping entry))) w1.
Proof.
  intros Hasset Hversion Hcommit ref w1 kind locked.
  unfold AssetResolver.resolveAsset. rewrite Hasset, Hversion.
  fold ref.
  rewrite (@bind_ok _ _ _ _ w commit w1)
    by (rewrite resolveRef_run; unfold ref; rewrite Hcommit; reflexivity).
  rewrite (@bind_ok _ _ _ _ w1 (current_lockfile w) w1)
    by (now rewrite lockfile_load_run).
  rewrite (@bind_ok _ _ _ _ w1 w1 w1) by reflexivity.
  fold kind. fold (locked_for w entry). fold locked.
  rewrite (fastPath_ext w1 w locked entry commit kind allowUpdate)
    by reflexivity.
  now destruct (AssetResolver.fastPath w locked entry commit kind allowUpdate).
Qed.

(** ** What the slow path leaves in the cache *)







(** A framing relation that the three kinds of steps of a resolution
    respect: logging, cache writes and link writes. *)
Record resolution_frame (R : World -> World -> Prop) : Prop := {
  rf_framing : framing R;
  rf_logs : forall w w', only_logs w w' -> R w w';
  rf_cache : forall w w', only_cache w w' -> R w w';
  rf_links : forall w w', only_links w w' -> R w w'
}.



Lemma trace_grows_frame : resolution_frame trace_grows.
Proof.
  split.
  - exact trace_grows_framing.
  - exact only_logs_trace_grows.
  - exact only_cache_trace_grows.
  - exact only_links_trace_grows.
Qed.

Lemma fetchAndCache_preserves R git entry kind versionMeta ref :
  resolution_frame R ->
  preserves R (AssetResolver.fetchAndCache git entry kind versionMeta ref).
Proof.
  intros [HR Hl Hc _].
  assert (Hlogs : forall A (c : M A), preserves only_logs c -> preserves R c)
    by (intros A c; now apply preserves_weaken).
  assert (Hcache : forall A (c : M A), preserves only_cache c -> preserves R c)
    by (intros A c; now apply preserves_weaken).
  assert (Hfile : forall path,
    preserves R
      (content0 <- GitProvider.fetchFile git path ref ;;
       cacheResult <- CacheManager.writeToCache (entry_source entry)
                        (entry_id entry) (entry_version entry) content0 ;;
       ret (snd cacheResult, fst cacheResult, content0))).
  { intros path.
    apply (preserves_bind HR); [apply Hlogs, fetchFile_only_logs|].
    intros c.
    apply (preserves_bind HR); [apply Hcache, writeToCache_only_cache|].
    intros r. apply (preserves_ret HR). }
  unfold AssetResolver.fetchAndCache. destruct kind; try apply Hfile.
  apply (preserves_bind HR); [apply Hlogs, fetchDirectory_only_logs|].
  intros files. destruct (find _ files); [|apply (preserves_throw HR)].
  apply (preserves_bind HR); [apply Hcache, writeDirectoryToCache_only_cache|].
  intros r. apply (preserves_ret HR).
Qed.

(** What [resolveAsset] does once the ref is resolved. *)
Definition after_resolveRef (entry : ParcaAssetEntry) (manifest : ParcaManifest)
    (git : GitProvider.t) (assetMeta : ParcaManifestAsset)
    (versionMeta : ParcaManifestVersion) (ref : string) (allowUpdate : bool)
    (commit : string) : M ResolvedAsset :=
  lockfile <- LockfileManager.load ;;
  let locked :=
    LockfileManager.findAsset lockfile (entry_id entry) (entry_source entry) in
  let kind := asset_kind assetMeta in
  w <- get_world ;;
  if AssetResolver.fastPath w locked entry commit kind allowUpdate then
    let cachedPath :=
      CacheManager.path_string
        (CacheManager.getAssetPath (entry_source entry) (entry_id entry)
           (entry_version entry) kind) in
    AssetResolver.linkIfMapped entry cachedPath kind ;;;
    w' <- get_world ;;
    ret (mkResolved (entry_id entry) (entry_version entry)
           (entry_source entry) commit
           (match locked with
            | Some l => locked_sha256 l
            | None => EmptyString
            end)
           (JS.or_default
              (CacheManager.readFromCache w' (entry_source entry)
                 (entry_id entry) (entry_version entry) kind)
              EmptyString)
           cachedPath (entry_mapping entry))
  else
    fetched <- AssetResolver.fetchAndCache git entry kind versionMeta ref ;;
    let '(sha256, cachedPath, content) := fetched in
    AssetResolver.integrityGate locked entry sha256 allowUpdate ;;;
    let manifestHash :=
      CacheManager.computeHashFromString (JSON_stringify manifest) in
    let lockedEntry :=
      mkLocked (entry_id entry) (entry_version entry) (entry_source entry)
        commit sha256 manifestHash now in
    LockfileManager.save (LockfileManager.upsertAsset lockfile lockedEntry) ;;;
    AssetResolver.linkIfMapped entry cachedPath kind ;;;
    ret (mkResolved (entry_id entry) (entry_version entry)
           (entry_source entry) commit sha256 content cachedPath
           (entry_mapping entry)).

Lemma resolveAsset_unfold entry manifest git manifestRef allowUpdate
    assetMeta versionMeta :
  JS.get (manifest_assets manifest) (entry_id entry) = Some assetMeta ->
  JS.get (asset_versions assetMeta) (entry_version entry) = Some versionMeta ->
  AssetResolver.resolveAsset entry manifest git manifestRef allowUpdate =
  (commit <- GitProvider.resolveRef git
               (AssetResolver.effectiveRef versionMeta manifestRef) ;;
   after_resolveRef entry manifest git assetMeta versionMeta
     (AssetResolver.effectiveRef versionMeta manifestRef) allowUpdate commit).
Proof.
  intros H1 H2. unfold AssetResolver.resolveAsset. now rewrite H1, H2.
Qed.

Lemma after_resolveRef_preserves R entry manifest git assetMeta versionMeta
    ref allowUpdate commit :
  resolution_frame R ->
  (forall w l, R w (set_lockfileFile l w)) ->
  preserves R
    (after_resolveRef entry manifest git assetMeta versionMeta ref allowUpdate
       commit).
Proof.
  intros HF Hsave. pose proof HF as [HR Hl Hc Hk].
  unfold after_resolveRef.
  apply (preserves_bind HR).
  { intros w r w' H. rewrite lockfile_load_run in H.
    injection H as _ <-. apply (framing_refl HR). }
  intros lockfile.
  apply (preserves_bind HR); [apply (preserves_get_world HR)|].
  intros w0.
  destruct (AssetResolver.fastPath w0 _ entry commit _ allowUpdate).
  - apply (preserves_bind HR).
    { eapply preserves_weaken; [exact Hk|apply linkIfMapped_only_links]. }
    intros _.
    apply (preserves_bind HR); [apply (preserves_get_world HR)|].
    intros w1. apply (preserves_ret HR).
  - apply (preserves_bind HR); [now apply fetchAndCache_preserves|].
    intros [[sha p] content].
    apply (preserves_bind HR).
    { unfold AssetResolver.integrityGate.
      destruct (LockfileManager.findAsset lockfile _ _) as [l|];
        [|apply (preserves_ret HR)].
      destruct (_ && _); [apply (preserves_throw HR)|apply (preserves_ret HR)]. }
    intros _.
    apply (preserves_bind HR).
    { apply preserves_modify. intros w. apply Hsave. }
    intros _.
    apply (preserves_bind HR).
    { eapply preserves_weaken; [exact Hk|apply linkIfMapped_only_links]. }
    intros _. apply (preserves_ret HR).
Qed.

(** [resolveAsset] respects every such relation that also admits the
    rewriting of the lockfile. *)
Lemma resolveAsset_preserves R entry manifest git manifestRef allowUpdate :
  resolution_frame R ->
  (forall w l, R w (set_lockfileFile l w)) ->
  preserves R
    (AssetResolver.resolveAsset entry manifest git manifestRef allowUpdate).
Proof.
  intros HF Hsave. pose proof HF as [HR Hl Hc Hk].
  destruct (JS.get (manifest_assets manifest) (entry_id entry))
    as [assetMeta|] eqn:H1;
    [|unfold AssetResolver.resolveAsset; rewrite H1;
      apply (preserves_throw HR)].
  destruct (JS.get (asset_versions assetMeta) (entry_version entry))
    as [versionMeta|] eqn:H2;
    [|unfold AssetResolver.resolveAsset; rewrite H1, H2;
      apply (preserves_throw HR)].
  rewrite (resolveAsset_unfold _ _ _ _ _ _ _ H1 H2).
  apply (preserves_bind HR).
  { eapply preserves_weaken; [exact Hl|apply resolveRef_only_logs]. }
  intros commit. now apply after_resolveRef_preserves.
Qed.







End WithEnv.
End ResolveAsset.

(* ================================================================== *)
(** * install: the already-installed check                             *)
(* ================================================================== *)

Module Install.
Import Frame ObjFacts RunFacts ResolveAsset.

Section WithEnv.
Context {env : Env} {L : Libs}.

(** The alias [ensureSource] uses for a URL: the one it is registered
    under, else the one derived from the URL. *)
Definition alias_for (config : ParcaConfig) (url : string) : string :=
  match find (fun e => (source_url (snd e) =? url)%string)
          (JS.entries (config_sources config)) with
  | Some (alias, _) => alias
  | None => ConfigLoader.deriveAlias url
  end.

Lemma ensureSource_run url provider w c :
  configFile w = Some c -> ConfigLoader.check c = None ->
  exists updated w',
    ConfigLoader.ensureSource url provider w
    = (Ok (updated, alias_for c url), w') /\
    config_assets updated = config_assets c /\
    lockfileFile w' = lockfileFile w /\ cache w' = cache w.
Proof.
  intros Hc Hok. unfold ConfigLoader.ensureSource, alias_for.
  assert (try_catch ConfigLoader.load (fun _ => ConfigLoader.init) w
          = (Ok c, w)) as Hload.
  { unfold try_catch. now rewrite config_load_run, Hc, Hok. }
  rewrite (@bind_ok _ _ _ _ w c w Hload).
  destruct (find _ (JS.entries (config_sources c))) as [[alias src]|].
  - exists c, w. now repeat split.
  - eexists _, _. split; [reflexivity|]. now repeat split.
Qed.

(** [install] up to the already-installed check. *)
Definition install_prefix (url assetId versionRange : string) (w : World)
  : Result (ParcaManifest * ParcaManifestAsset * string * string) * World :=
  let git := AssetResolver.createGitProvider (ConfigLoader.inferProvider url) url in
  let w1 := add_event (ResolveRef url "main") w in
  match repo_resolveRef (remote url) "main" with
  | Failed m => (Throw (ExternalError m), w1)
  | Found commit =>
      let w2 := add_event (FetchFile url ManifestResolver.MANIFEST_FILENAME
                             commit) w1 in
      match manifest_at git commit with
      | Throw e => (Throw e, w2)
      | Ok manifest =>
          match JS.get (manifest_assets manifest) assetId with
          | None =>
              (Throw (AssetNotFound assetId (JS.keys (manifest_assets manifest))),
               w2)
          | Some assetMeta =>
              match AssetResolver.pickVersion assetId
                      (JS.keys (asset_versions assetMeta)) versionRange with
              | Throw e => (Throw e, w2)
              | Ok version => (Ok (manifest, assetMeta, commit, version), w2)
              end
          end
      end
  end.

Lemma install_prefix_only_logs url assetId versionRange w r w' :
  install_prefix url assetId versionRange w = (r, w') -> only_logs w w'.
Proof.
  unfold install_prefix.
  assert (H1 : only_logs w (add_event (ResolveRef url "main") w))
    by apply add_event_only_logs.
  assert (H2 : forall commit,
            only_logs w
              (add_event (FetchFile url ManifestResolver.MANIFEST_FILENAME commit)
                 (add_event (ResolveRef url "main") w))).
  { intros commit. eapply (framing_trans only_logs_framing); [exact H1|].
    apply add_event_only_logs. }
  destruct (repo_resolveRef (remote url) "main") as [commit|m].
  - destruct (manifest_at _ commit) as [manifest|e].
    + destruct (JS.get (manifest_assets manifest) assetId) as [assetMeta|].
      * destruct (AssetResolver.pickVersion _ _ _); intros [= _ <-]; apply H2.
      * intros [= _ <-]; apply H2.
    + intros [= _ <-]; apply H2.
  - intros [= _ <-]; apply H1.
Qed.

Lemma install_run url assetId versionRange forceReinstall w :
  AssetResolver.install url assetId versionRange forceReinstall w =
  match install_prefix url assetId versionRange w with
  | (Throw e, w2) => (Throw e, w2)
  | (Ok (manifest, assetMeta, commit, version), w2) =>
      (config <- ConfigLoader.load ;;
       let existing :=
         find (fun a => (entry_id a =? assetId)%string) (config_assets config) in
       match existing, forceReinstall with
       | Some existing, false => ret (AlreadyInstalled existing version)
       | _, _ =>
           let provider := ConfigLoader.inferProvider url in
           let git := AssetResolver.createGitProvider provider url in
           sourced <- ConfigLoader.ensureSource url provider ;;
           let '(updatedConfig, alias) := sourced in
           let defaultMapping :=
             AssetResolver.getDefaultMapping (asset_kind assetMeta) assetId in
           let entry := mkEntry assetId alias version (Some defaultMapping) in
           resolved <- AssetResolver.resolveAsset entry manifest git commit true ;;
           ConfigLoader.addAsset updatedConfig entry ;;;
           ret (Installed resolved)
       end) w2
  end.
Proof.
  unfold AssetResolver.install, install_prefix.
  unfold bind at 1. rewrite resolveRef_run.
  cbn [AssetResolver.createGitProvider GitProvider.repoUrl].
  destruct (repo_resolveRef (remote url) "main") as [commit|m]; trivial.
  unfold bind at 1. rewrite fetchManifest_run.
  cbn [AssetResolver.createGitProvider GitProvider.repoUrl].
  destruct (manifest_at _ commit) as [manifest|e]; trivial.
  destruct (JS.get (manifest_assets manifest) assetId) as [assetMeta|]; trivial.
  destruct (AssetResolver.pickVersion _ _ _) as [version|e]; trivial.
Qed.

(** C5: when the configuration already has an entry for the asset id,
    [install] without force changes nothing but the log: the
    configuration, the lockfile, the cache, the links and [.gitignore] are
    as before, whatever the outcome. A normal return is the sentinel that
    carries the existing entry and the selected version, and the call does
    return it when the manifest is served, declares the asset, a version is
    selected and the configuration is valid. *)
Theorem install_existing_returns_sentinel_without_mutation
    (url assetId versionRange : string) (w w' : World) (c : ParcaConfig)
    (existing : ParcaAssetEntry) (r : Result InstallResult) :
  configFile w = Some c ->
  find (fun a => (entry_id a =? assetId)%string) (config_assets c)
  = Some existing ->
  AssetResolver.install url assetId versionRange false w = (r, w') ->
  (configFile w' = configFile w /\ lockfileFile w' = lockfileFile w /\
   cache w' = cache w /\ symlinks w' = symlinks w /\
   gitignore w' = gitignore w)
  /\
  (forall res, r = Ok res ->
     exists version, res = AlreadyInstalled existing version)
  /\
  (forall commit manifest assetMeta version,
     repo_resolveRef (remote url) "main" = Found commit ->
     manifest_at
       (AssetResolver.createGitProvider (ConfigLoader.inferProvider url) url)
       commit = Ok manifest ->
     JS.get (manifest_assets manifest) assetId = Some assetMeta ->
     AssetResolver.pickVersion assetId (JS.keys (asset_versions assetMeta))
       versionRange = Ok version ->
     ConfigLoader.check c = None ->
     r = Ok (AlreadyInstalled existing version)).
Proof.
  intros Hc Hfind Hrun. rewrite install_run in Hrun.
  destruct (install_prefix url assetId versionRange w) as [p w2] eqn:Hp.
  pose proof (install_prefix_only_logs _ _ _ _ _ _ Hp) as [Hlogs _].
  assert (Hc2 : configFile w2 = Some c)
    by (destruct Hlogs as [-> _]; exact Hc).
  destruct p as [[[[manifest assetMeta] commit] version]|e].
  - unfold bind in Hrun. rewrite config_load_run, Hc2 in Hrun.
    destruct (ConfigLoader.check c) as [e|] eqn:Hcheck.
    + injection Hrun as <- <-. split; [exact Hlogs|]. split.
      * intros res. discriminate.
      * intros commit' manifest' assetMeta' version' _ _ _ _. discriminate.
    + rewrite Hfind in Hrun. injection Hrun as <- <-.
      split; [exact Hlogs|]. split.
      * intros res [= <-]. now exists version.
      * intros commit' manifest' assetMeta' version' H1 H2 H3 H4 _.
        unfold install_prefix in Hp. rewrite H1, H2, H3, H4 in Hp.
        now injection Hp as _ _ _ <- _.
  - injection Hrun as <- <-. split; [exact Hlogs|]. split.
    + intros res. discriminate.
    + intros commit' manifest' assetMeta' version' H1 H2 H3 H4 _.
      unfold install_prefix in Hp. rewrite H1, H2, H3, H4 in Hp. discriminate.
Qed.

(** C10: the already-installed check looks at the asset id only. When the
    first entry of the configuration with the requested id belongs to
    another source alias than the one the URL stands for, [install]
    without force still answers with the sentinel for that entry; with
    force, a successful call writes a configuration in which only entries
    with the same id and alias were replaced, so the entry of the other
    source stays, next to the new one. *)
Theorem install_checks_id_but_replaces_by_id_and_source
    (url assetId versionRange : string) (w : World) (c : ParcaConfig)
    (existing : ParcaAssetEntry) (commit : string) (manifest : ParcaManifest)
    (assetMeta : ParcaManifestAsset) (version : string) :
  configFile w = Some c ->
  ConfigLoader.check c = None ->
  find (fun a => (entry_id a =? assetId)%string) (config_assets c)
  = Some existing ->
  entry_source existing <> alias_for c url ->
  repo_resolveRef (remote url) "main" = Found commit ->
  manifest_at
    (AssetResolver.createGitProvider (ConfigLoader.inferProvider url) url)
    commit = Ok manifest ->
  JS.get (manifest_assets manifest) assetId = Some assetMeta ->
  AssetResolver.pickVersion assetId (JS.keys (asset_versions assetMeta))
    versionRange = Ok version ->
  (exists w',
     AssetResolver.install url assetId versionRange false w
     = (Ok (AlreadyInstalled existing version), w') /\
     configFile w' = configFile w)
  /\
  (forall res w',
     AssetResolver.install url assetId versionRange true w = (Ok res, w') ->
     let entry :=
       mkEntry assetId (alias_for c url) version
         (Some (AssetResolver.getDefaultMapping (asset_kind assetMeta) assetId)) in
     exists c',
       configFile w' = Some c' /\
       config_assets c' =
         filter (fun a => negb ((entry_id a =? assetId)
                                && (entry_source a =? alias_for c url))%string)
           (config_assets c) ++ [entry] /\
       In existing (config_assets c') /\ In entry (config_assets c')).
Proof.
  intros Hc Hcheck Hfind Hsource H1 H2 H3 H4.
  assert (Hp : install_prefix url assetId versionRange w
               = (Ok (manifest, assetMeta, commit, version),
                  add_event (FetchFile url ManifestResolver.MANIFEST_FILENAME
                               commit)
                    (add_event (ResolveRef url "main") w))).
  { unfold install_prefix. now rewrite H1, H2, H3, H4. }
  set (w2 := add_event _ (add_event _ w)) in Hp.
  assert (Hload : ConfigLoader.load w2 = (Ok c, w2)).
  { rewrite config_load_run. cbn [w2 add_event configFile].
    now rewrite Hc, Hcheck. }
  split.
  - exists w2. rewrite install_run, Hp.
    rewrite (@bind_ok _ _ _ _ w2 c w2 Hload), Hfind. now split.
  - intros res w' Hrun. rewrite install_run, Hp in Hrun.
    rewrite (@bind_ok _ _ _ _ w2 c w2 Hload), Hfind in Hrun.
    cbv beta iota zeta in Hrun.
    destruct (ensureSource_run url (ConfigLoader.inferProvider url) w2 c)
      as (updated & w3 & Hens & Hassets & _); trivial.
    rewrite (@bind_ok _ _ _ _ w2 _ w3 Hens) in Hrun.
    apply bind_inv in Hrun as [(resolved & w4 & Hres & Hrun)|(e & _ & He)];
      [|discriminate].
    unfold ConfigLoader.addAsset, ConfigLoader.save, bind, modify, ret in Hrun.
    injection Hrun as <- <-.
    eexists. split; [reflexivity|]. cbn [config_assets entry_id entry_source].
    rewrite Hassets. split; [reflexivity|]. split.
    + apply in_or_app. left. apply filter_In. split.
      * apply find_some in Hfind. apply Hfind.
      * apply negb_true_iff, andb_false_iff. right.
        now apply String.eqb_neq.
    + apply in_or_app. right. now left.
Qed.

End WithEnv.
End Install.

(* ================================================================== *)
(** * resolveAll: the manifest revision of each asset                  *)
(* ================================================================== *)

Module ResolveAll.
Import Frame ObjFacts RunFacts ResolveAsset.

Section WithEnv.
Context {env : Env} {L : Libs}.

(** The log of [w'] continues the log of [w] with the start of a
    resolution of [asset]: the manifest is fetched from [url] at [ref],
    and where that manifest declares the asset's version without an
    explicit ref, the ref resolved next is [ref] itself. *)
Definition resolution_logged (url ref : string) (asset : ParcaAssetEntry)
    (w w' : World) : Prop :=
  exists before after,
    trace w' =
      trace w ++ before
      ++ AssetStart (entry_id asset) (entry_version asset)
         :: FetchFile url ManifestResolver.MANIFEST_FILENAME ref :: after /\
    forall manifest assetMeta versionMeta,
      manifest_at (GitProvider.mk github url) ref = Ok manifest ->
      JS.get (manifest_assets manifest) (entry_id asset) = Some assetMeta ->
      JS.get (asset_versions assetMeta) (entry_version asset)
      = Some versionMeta ->
      JS.truthy (version_ref versionMeta) = false ->
      exists after', after = ResolveRef url ref :: after'.

Lemma resolution_logged_later url ref asset w1 w2 w3 :
  resolution_logged url ref asset w1 w2 -> trace_grows w2 w3 ->
  resolution_logged url ref asset w1 w3.
Proof.
  intros (before & after & Ht & Hafter) [es Hes].
  exists before, (after ++ es). split.
  - rewrite Hes, Ht. rewrite <- !app_assoc. reflexivity.
  - intros m a v H1 H2 H3 H4.
    destruct (Hafter m a v H1 H2 H3 H4) as [after' ->].
    now exists (after' ++ es).
Qed.

Lemma resolution_logged_earlier url ref asset w1 w2 w3 :
  trace_grows w1 w2 -> resolution_logged url ref asset w2 w3 ->
  resolution_logged url ref asset w1 w3.
Proof.
  intros [es Hes] (before & after & Ht & Hafter).
  exists (es ++ before), after. split; trivial.
  rewrite Ht, Hes. rewrite <- !app_assoc. reflexivity.
Qed.

Lemma manifest_at_provider p p' url ref :
  manifest_at (GitProvider.mk p url) ref
  = manifest_at (GitProvider.mk p' url) ref.
Proof. reflexivity. Qed.

Lemma effectiveRef_rolling versionMeta manifestRef :
  JS.truthy (version_ref versionMeta) = false ->
  AssetResolver.effectiveRef versionMeta manifestRef = manifestRef.
Proof.
  unfold AssetResolver.effectiveRef, JS.or_default, JS.truthy.
  destruct (version_ref versionMeta) as [s|]; trivial.
  destruct (s =? "")%string; [trivial|discriminate].
Qed.

Lemma save_trace_grows w l : trace_grows w (set_lockfileFile l w).
Proof. exists []. simpl. now rewrite app_nil_r. Qed.

(** The first call of a resolution whose version is declared. *)
Lemma resolveAsset_first_call entry manifest git manifestRef allowUpdate
    assetMeta versionMeta w r w' :
  JS.get (manifest_assets manifest) (entry_id entry) = Some assetMeta ->
  JS.get (asset_versions assetMeta) (entry_version entry) = Some versionMeta ->
  AssetResolver.resolveAsset entry manifest git manifestRef allowUpdate w
  = (r, w') ->
  exists rest,
    trace w' =
      trace w
      ++ ResolveRef (GitProvider.repoUrl git)
           (AssetResolver.effectiveRef versionMeta manifestRef) :: rest.
Proof.
  intros H1 H2 Hrun. rewrite (resolveAsset_unfold _ _ _ _ _ _ _ H1 H2) in Hrun.
  unfold bind in Hrun. rewrite resolveRef_run in Hrun.
  destruct (repo_resolveRef _ _) as [commit|m].
  - destruct (after_resolveRef_preserves trace_grows entry manifest git
                assetMeta versionMeta
                (AssetResolver.effectiveRef versionMeta manifestRef)
                allowUpdate commit trace_grows_frame save_trace_grows
                _ _ _ Hrun) as [es Hes].
    exists es. rewrite Hes. simpl. now rewrite <- app_assoc.
  - injection Hrun as _ <-. now exists [].
Qed.

(** One turn of the loop: it never throws, and logs the start of the
    resolution with the manifest revision chosen from the lockfile. *)
Lemma resolveOne_run git lockfile asset results w :
  exists results' w',
    AssetResolver.resolveOne git lockfile asset results w = (Ok results', w')
    /\ resolution_logged (GitProvider.repoUrl git)
         (AssetResolver.manifestRefFor lockfile asset) asset w w'.
Proof.
  unfold AssetResolver.resolveOne.
  set (ref := AssetResolver.manifestRefFor lockfile asset).
  set (w1 := add_event (AssetStart (entry_id asset) (entry_version asset)) w).
  rewrite (@bind_ok _ _ _ _ w tt w1) by reflexivity.
  unfold try_catch. unfold bind at 1. rewrite fetchManifest_run.
  set (w2 := add_event _ w1).
  assert (Hstart : forall w' rest,
            trace w' = trace w2 ++ rest ->
            trace w' =
              trace w ++ []
              ++ AssetStart (entry_id asset) (entry_version asset)
                 :: FetchFile (GitProvider.repoUrl git)
                      ManifestResolver.MANIFEST_FILENAME ref :: rest).
  { intros w' rest ->. unfold w2, w1. simpl. now rewrite <- !app_assoc. }
  assert (Hsame : forall manifest,
            manifest_at (GitProvider.mk github (GitProvider.repoUrl git)) ref
            = Ok manifest -> manifest_at git ref = Ok manifest).
  { intros manifest <-. now destruct git. }
  destruct (manifest_at git ref) as [manifest|e] eqn:Hm.
  - destruct (AssetResolver.resolveAsset asset manifest git ref false w2)
      as [[resolved|e] w3] eqn:Hres.
    + rewrite (@bind_ok _ _ _ _ w2 resolved w3 Hres).
      eexists _, _. split; [reflexivity|].
      exists [].
      destruct (resolveAsset_preserves trace_grows asset manifest git ref false
                  trace_grows_frame save_trace_grows _ _ _ Hres) as [es Hes].
      exists (es ++ [AssetDone (entry_id asset) (entry_version asset)]).
      split.
      * apply Hstart. simpl. now rewrite Hes, <- app_assoc.
      * intros m a v Hm' Ha Hv Hroll. apply Hsame in Hm'.
        injection Hm' as <-.
        destruct (resolveAsset_first_call _ _ _ _ _ _ _ _ _ _ Ha Hv Hres)
          as [rest Hrest].
        rewrite (effectiveRef_rolling _ _ Hroll) in Hrest.
        rewrite Hes in Hrest. apply app_inv_head in Hrest. subst es.
        eexists. reflexivity.
    + rewrite (@bind_throw _ _ _ _ w2 e w3 Hres).
      eexists _, _. split; [reflexivity|].
      exists [].
      destruct (resolveAsset_preserves trace_grows asset manifest git ref false
                  trace_grows_frame save_trace_grows _ _ _ Hres) as [es Hes].
      exists (es ++ [AssetError (entry_id asset) (message e)]).
      split.
      * apply Hstart. simpl. now rewrite Hes, <- app_assoc.
      * intros m a v Hm' Ha Hv Hroll. apply Hsame in Hm'.
        injection Hm' as <-.
        destruct (resolveAsset_first_call _ _ _ _ _ _ _ _ _ _ Ha Hv Hres)
          as [rest Hrest].
        rewrite (effectiveRef_rolling _ _ Hroll) in Hrest.
        rewrite Hes in Hrest. apply app_inv_head in Hrest. subst es.
        eexists. reflexivity.
  - eexists _, _. split; [reflexivity|].
    exists [], [AssetError (entry_id asset) (message e)]. split.
    + apply Hstart. reflexivity.
    + intros m a v Hm' _ _ _. apply Hsame in Hm'. congruence.
Qed.

Lemma resolution_logged_grows url ref asset w w' :
  resolution_logged url ref asset w w' -> trace_grows w w'.
Proof.
  intros (before & after & Ht & _). eexists. rewrite Ht. reflexivity.
Qed.

Lemma resolveEach_run git lockfile assets : forall results w,
  exists results' w',
    AssetResolver.resolveEach git lockfile assets results w = (Ok results', w')
    /\ trace_grows w w'
    /\ forall asset, In asset assets ->
         resolution_logged (GitProvider.repoUrl git)
           (AssetResolver.manifestRefFor lockfile asset) asset w w'.
Proof.
  induction assets as [|a rest IH]; intros results w.
  - exists results, w. split; [reflexivity|].
    split; [apply (framing_refl trace_grows_framing)|]. intros asset [].
  - destruct (resolveOne_run git lockfile a results w)
      as (results1 & w1 & Hone & Hlog).
    destruct (IH results1 w1) as (results2 & w2 & Hrest & Hgrow & Hall).
    exists results2, w2. split; [|split].
    + cbn [AssetResolver.resolveEach].
      now rewrite (@bind_ok _ _ _ _ w results1 w1 Hone).
    + eapply (framing_trans trace_grows_framing); [|exact Hgrow].
      eapply resolution_logged_grows; eassumption.
    + intros asset [<-|Hin].
      * eapply resolution_logged_later; eassumption.
      * eapply resolution_logged_earlier; [|now apply Hall].
        eapply resolution_logged_grows; eassumption.
Qed.

Lemma reportUndefined_run alias assets : forall w,
  exists w', AssetResolver.reportUndefined alias assets w = (Ok tt, w')
             /\ trace_grows w w'.
Proof.
  induction assets as [|a rest IH]; intros w.
  - exists w. split; [reflexivity|apply (framing_refl trace_grows_framing)].
  - destruct (IH (add_event (AssetError (entry_id a)
                               ("Source " ++ JS.quoted alias ++ " not defined."))
                    w)) as (w' & Hrun & Hgrow).
    exists w'. split.
    + cbn [AssetResolver.reportUndefined].
      now rewrite (@bind_ok _ _ _ _ w tt _ (log_run _ w)).
    + eapply (framing_trans trace_grows_framing); [|exact Hgrow].
      now eexists [_].
Qed.

Lemma resolveGroups_run config lockfile groups : forall results w,
  exists results' w',
    AssetResolver.resolveGroups config lockfile groups results w
    = (Ok results', w')
    /\ trace_grows w w'
    /\ forall alias assets asset source,
         In (alias, assets) groups -> In asset assets ->
         JS.get (config_sources config) alias = Some source ->
         resolution_logged (source_url source)
           (AssetResolver.manifestRefFor lockfile asset) asset w w'.
Proof.
  induction groups as [|[alias assets] rest IH]; intros results w.
  - exists results, w. split; [reflexivity|].
    split; [apply (framing_refl trace_grows_framing)|].
    intros alias assets asset source [].
  - cbn [AssetResolver.resolveGroups].
    destruct (JS.get (config_sources config) alias) as [source|] eqn:Hsrc.
    + destruct (resolveEach_run
                  (AssetResolver.createGitProvider (source_provider source)
                     (source_url source)) lockfile assets results w)
        as (results1 & w1 & Heach & Hgrow1 & Hall1).
      destruct (IH results1 w1) as (results2 & w2 & Hrest & Hgrow2 & Hall2).
      exists results2, w2. split; [|split].
      * now rewrite (@bind_ok _ _ _ _ w results1 w1 Heach).
      * eapply (framing_trans trace_grows_framing); eassumption.
      * intros alias' assets' asset source' [[= <- <-]|Hin] Hasset Hsrc'.
        -- rewrite Hsrc in Hsrc'. injection Hsrc' as <-.
           eapply resolution_logged_later; [|exact Hgrow2].
           now apply Hall1.
        -- eapply resolution_logged_earlier; [exact Hgrow1|].
           eapply Hall2; eassumption.
    + destruct (reportUndefined_run alias assets w) as (w1 & Hrep & Hgrow1).
      destruct (IH results w1) as (results2 & w2 & Hrest & Hgrow2 & Hall2).
      exists results2, w2. split; [|split].
      * now rewrite (@bind_ok _ _ _ _ w tt w1 Hrep).
      * eapply (framing_trans trace_grows_framing); eassumption.
      * intros alias' assets' asset source' [[= <- <-]|Hin] Hasset Hsrc'.
        -- congruence.
        -- eapply resolution_logged_earlier; [exact Hgrow1|].
           eapply Hall2; eassumption.
Qed.

Lemma pushGroup_keeps groups a alias assets x :
  In (alias, assets) groups -> In x assets ->
  exists assets', In (alias, assets') (AssetResolver.pushGroup groups a)
                  /\ In x assets'.
Proof.
  induction groups as [|[k g] rest IH]; intros Hin Hx; [destruct Hin|].
  cbn [AssetResolver.pushGroup].
  destruct (k =? entry_source a)%string.
  - destruct Hin as [[= -> ->]|Hin].
    + exists (assets ++ [a]). split; [now left|]. apply in_or_app. now left.
    + exists assets. split; [now right|trivial].
  - destruct Hin as [[= -> ->]|Hin].
    + exists assets. split; [now left|trivial].
    + destruct (IH Hin Hx) as (assets' & H1 & H2).
      exists assets'. split; [now right|trivial].
Qed.

Lemma pushGroup_adds groups a :
  exists assets, In (entry_source a, assets) (AssetResolver.pushGroup groups a)
                 /\ In a assets.
Proof.
  induction groups as [|[k g] rest IH]; cbn [AssetResolver.pushGroup].
  - exists [a]. split; now left.
  - destruct (String.eqb_spec k (entry_source a)) as [->|Hne].
    + exists (g ++ [a]). split; [now left|]. apply in_or_app. right. now left.
    + destruct IH as (assets & H1 & H2). exists assets.
      split; [now right|trivial].
Qed.

Lemma groupBySource_covers assets asset :
  In asset assets ->
  exists group,
    In (entry_source asset, group) (AssetResolver.groupBySource assets)
    /\ In asset group.
Proof.
  unfold AssetResolver.groupBySource.
  assert (H : forall groups,
            In asset assets \/
            (exists group, In (entry_source asset, group) groups
                           /\ In asset group) ->
            exists group,
              In (entry_source asset, group)
                (fold_left AssetResolver.pushGroup assets groups)
              /\ In asset group).
  { induction assets as [|a rest IH]; intros groups [Hin|Hgrp].
    - destruct Hin.
    - exact Hgrp.
    - destruct Hin as [->|Hin]; cbn [fold_left]; apply IH.
      + right. apply pushGroup_adds.
      + now left.
    - cbn [fold_left]. apply IH. right.
      destruct Hgrp as (group & H1 & H2).
      eapply pushGroup_keeps; eassumption. }
  intros Hin. apply H. now left.
Qed.

(** C2: in a run of [resolveAll] over a valid configuration, for every
    declared asset the log shows the start of its resolution followed by
    the fetch of the manifest of its source: at the commit the lockfile (as
    it is when the run starts) records for the asset's id and source, when
    that entry records the declared version; at [main] otherwise. In the
    first case, when the manifest so fetched declares the version without
    an explicit ref, the ref resolved next is that locked commit. *)
Theorem resolveAll_fetches_manifest_at_locked_commit
    (w : World) (c : ParcaConfig) (asset : ParcaAssetEntry)
    (source : ParcaSource) :
  configFile w = Some c ->
  ConfigLoader.check c = None ->
  In asset (config_assets c) ->
  JS.get (config_sources c) (entry_source asset) = Some source ->
  exists results w' before after ref,
    AssetResolver.resolveAll w = (Ok results, w') /\
    trace w' =
      trace w ++ before
      ++ AssetStart (entry_id asset) (entry_version asset)
         :: FetchFile (source_url source) ManifestResolver.MANIFEST_FILENAME
              ref :: after /\
    (forall locked,
       locked_for w asset = Some locked ->
       locked_version locked = entry_version asset ->
       ref = locked_commit locked) /\
    (locked_for w asset = None -> ref = "main") /\
    (forall locked,
       locked_for w asset = Some locked ->
       locked_version locked <> entry_version asset ->
       ref = "main") /\
    (forall locked manifest assetMeta versionMeta,
       locked_for w asset = Some locked ->
       locked_version locked = entry_version asset ->
       manifest_at
         (AssetResolver.createGitProvider (source_provider source)
            (source_url source))
         (locked_commit locked) = Ok manifest ->
       JS.get (manifest_assets manifest) (entry_id asset) = Some assetMeta ->
       JS.get (asset_versions assetMeta) (entry_version asset)
       = Some versionMeta ->
       JS.truthy (version_ref versionMeta) = false ->
       exists after',
         after = ResolveRef (source_url source) (locked_commit locked)
                 :: after').
Proof.
  intros Hc Hcheck Hin Hsrc.
  destruct (groupBySource_covers _ _ Hin) as (group & Hgroup & Hasset).
  destruct (resolveGroups_run c (current_lockfile w)
              (AssetResolver.groupBySource (config_assets c)) [] w)
    as (results & w' & Hrun & _ & Hall).
  destruct (Hall _ _ _ _ Hgroup Hasset Hsrc) as (before & after & Ht & Hafter).
  exists results, w', before, after,
    (AssetResolver.manifestRefFor (current_lockfile w) asset).
  split; [|split; [exact Ht|]].
  - unfold AssetResolver.resolveAll.
    rewrite (@bind_ok _ _ _ _ w c w)
      by (now rewrite config_load_run, Hc, Hcheck).
    rewrite (@bind_ok _ _ _ _ w (current_lockfile w) w)
      by (now rewrite lockfile_load_run).
    exact Hrun.
  - unfold locked_for, AssetResolver.manifestRefFor in *.
    destruct (LockfileManager.findAsset (current_lockfile w) (entry_id asset)
                (entry_source asset)) as [l|].
    + destruct (String.eqb_spec (locked_version l) (entry_version asset))
        as [Hv|Hv]; (split; [|split; [|split]]).
      * now intros locked [= <-] _.
      * discriminate.
      * intros locked [= <-] Hne. contradiction.
      * intros locked manifest assetMeta versionMeta [= <-] _.
        apply Hafter.
      * intros locked [= <-] He. contradiction.
      * discriminate.
      * reflexivity.
      * intros locked manifest assetMeta versionMeta [= <-] He. contradiction.
    + split; [|split; [|split]]; try discriminate. reflexivity.
Qed.

End WithEnv.
End ResolveAll.

(* ================================================================== *)
(** * The theorems at work on the scenario                             *)
(* ================================================================== *)

Module ScenarioFacts.
Import Frame RunFacts ResolveAsset.


(** C3, evaluated on the code. The asset is installed, locked and cached
    as in the baseline, and the remote is unchanged, but the workspace
    holds at the mapping of the asset a link left from an earlier version
    whose cache directory is gone. [existsSync] does not find such a link,
    so it is not removed before the new link is made: the resolution takes
    the fast path and throws, where the claim has it return the cached
    asset. *)
Theorem dangling_link_stops_the_fast_path :
  let w := Scenario.stale_link in
  let target := ".github/prompts/test-asset.prompt.md" in
  locked_for w Scenario.entry_v1 = Some Scenario.locked_v1
  /\ locked_version Scenario.locked_v1 = entry_version Scenario.entry_v1
  /\ repo_resolveRef (remote (Env := Scenario.env_v1) Scenario.url)
       "mock-sha-123"
     = Found (locked_commit Scenario.locked_v1)
  /\ CacheManager.isCached w
       "test-source" "test-asset" "1.0.0" prompt
       (Some (locked_sha256 Scenario.locked_v1)) = true
  /\ JS.get (symlinks w) target
     = Some "/home/dev/.parca-cache/test-source/test-asset/0.9.0/test-asset.md"
  /\ WorkspaceMapper.existsSync (env := Scenario.env_v1) w target = false
  /\ AssetResolver.resolveAsset (env := Scenario.env_v1) (L := Scenario.libs)
       Scenario.entry_v1 Scenario.manifest_v1 Scenario.git "mock-sha-123"
       false w
     = (Throw
          (ExternalError
             "EEXIST: file already exists, symlink '/home/dev/.parca-cache/test-source/test-asset/1.0.0/test-asset.md' -> '/work/.github/prompts/test-asset.prompt.md'"),
        add_event (ResolveRef Scenario.url "mock-sha-123") w).
Proof.
  vm_compute. repeat split; reflexivity.
Qed.




(** Installing the installed asset again, without force. *)
Lemma reinstall_without_force_changes_nothing :
  let run :=
    AssetResolver.install (env := Scenario.env_v1) (L := Scenario.libs)
      Scenario.url "test-asset" "latest" false Scenario.installed in
  (configFile (snd run) = configFile Scenario.installed /\
   lockfileFile (snd run) = lockfileFile Scenario.installed /\
   cache (snd run) = cache Scenario.installed /\
   symlinks (snd run) = symlinks Scenario.installed /\
   gitignore (snd run) = gitignore Scenario.installed)
  /\ fst run = Ok (AlreadyInstalled Scenario.entry_v1 "1.0.0").
Proof.
  intros run.
  destruct (@Install.install_existing_returns_sentinel_without_mutation
              Scenario.env_v1 Scenario.libs
              Scenario.url "test-asset" "latest" Scenario.installed (snd run)
              (mkConfig "1.0" Scenario.sources [Scenario.entry_v1])
              Scenario.entry_v1 (fst run))
    as (Hsame & _ & Hsentinel).
  - reflexivity.
  - reflexivity.
  - apply surjective_pairing.
  - split; [exact Hsame|].
    apply (Hsentinel "mock-sha-123" Scenario.manifest_v1
             (mkAsset prompt (Some "Test prompt")
                [("1.0.0", mkVersion None "prompts/test.md" None)])
             "1.0.0"); reflexivity.
Defined.

(** The asset id is declared under another alias: without force the
    sentinel for that entry, with force both entries. *)
Lemma install_over_entry_of_another_source :
  (exists w',
     AssetResolver.install (env := Scenario.env_v1) (L := Scenario.libs)
       Scenario.url "test-asset" "latest" false Scenario.mirrored
     = (Ok (AlreadyInstalled Scenario.mirror_entry "1.0.0"), w'))
  /\
  (exists c',
     configFile
       (snd (AssetResolver.install (env := Scenario.env_v1)
               (L := Scenario.libs) Scenario.url "test-asset" "latest" true
               Scenario.mirrored))
     = Some c' /\
     config_assets c' = [Scenario.mirror_entry; Scenario.entry_v1]).
Proof.
  destruct (@Install.install_checks_id_but_replaces_by_id_and_source
              Scenario.env_v1 Scenario.libs
              Scenario.url "test-asset" "latest" Scenario.mirrored
              (mkConfig "1.0"
                 (Scenario.sources
                  ++ [("mirror",
                       mkSource github "https://github.com/mirror/repo")])
                 [Scenario.mirror_entry])
              Scenario.mirror_entry "mock-sha-123" Scenario.manifest_v1
              (mkAsset prompt (Some "Test prompt")
                 [("1.0.0", mkVersion None "prompts/test.md" None)])
              "1.0.0")
    as [(w' & Hsentinel & _) Hforce]; try reflexivity.
  - vm_compute. discriminate.
  - split; [now exists w'|].
    destruct (AssetResolver.install (env := Scenario.env_v1)
                (L := Scenario.libs) Scenario.url "test-asset" "latest" true
                Scenario.mirrored) as [[res|e] w''] eqn:Hrun.
    + destruct (Hforce res w'' eq_refl) as (c' & Hc' & Hassets & _).
      exists c'. split; [exact Hc'|]. rewrite Hassets. reflexivity.
    + vm_compute in Hrun. discriminate.
Defined.

(** The installed asset in a run of [resolveAll]: its manifest is fetched
    at the locked commit, and so is its content ref resolved. *)
Lemma resolveAll_stays_on_locked_commit :
  exists results w' before after,
    AssetResolver.resolveAll (env := Scenario.env_v1) (L := Scenario.libs)
      Scenario.installed = (Ok results, w') /\
    trace w' =
      trace Scenario.installed ++ before
      ++ AssetStart "test-asset" "1.0.0"
         :: FetchFile Scenario.url "parca-manifest.yaml" "mock-sha-123"
         :: ResolveRef Scenario.url "mock-sha-123" :: after.
Proof.
  destruct (@ResolveAll.resolveAll_fetches_manifest_at_locked_commit
              Scenario.env_v1 Scenario.libs Scenario.installed
              (mkConfig "1.0" Scenario.sources [Scenario.entry_v1])
              Scenario.entry_v1 (mkSource github Scenario.url))
    as (results & w' & before & after & ref & Hrun & Ht & Hlocked & _ & _
        & Hrolling).
  - reflexivity.
  - reflexivity.
  - now left.
  - reflexivity.
  - exists results, w', before.
    destruct (Hrolling Scenario.locked_v1 Scenario.manifest_v1
                (mkAsset prompt (Some "Test prompt")
                   [("1.0.0", mkVersion None "prompts/test.md" None)])
                (mkVersion None "prompts/test.md" None))
      as [after' ->]; try reflexivity.
    exists after'. split; [exact Hrun|].
    rewrite Ht. rewrite (Hlocked Scenario.locked_v1); reflexivity.
Defined.

(** C8, evaluated on the code. Two assets of one source are declared and
    none is locked, so both resolve against the manifest at [main]; the
    run fetches that manifest twice, once per asset. *)
Theorem resolveAll_fetches_manifest_once_per_asset :
  let run :=
    AssetResolver.resolveAll (env := Scenario.env_two) (L := Scenario.libs)
      Scenario.two_declared in
  AssetResolver.groupBySource [Scenario.entry_v1; Scenario.other_entry]
  = [("test-source", [Scenario.entry_v1; Scenario.other_entry])]
  /\ AssetResolver.manifestRefFor (mkLockfile []) Scenario.entry_v1 = "main"
  /\ AssetResolver.manifestRefFor (mkLockfile []) Scenario.other_entry = "main"
  /\ trace (snd run)
     = [AssetStart "test-asset" "1.0.0";
        FetchFile Scenario.url "parca-manifest.yaml" "main";
        ResolveRef Scenario.url "main";
        FetchFile Scenario.url "prompts/test.md" "main";
        AssetDone "test-asset" "1.0.0";
        AssetStart "other-asset" "1.0.0";
        FetchFile Scenario.url "parca-manifest.yaml" "main";
        ResolveRef Scenario.url "main";
        FetchFile Scenario.url "instructions/other.md" "main";
        AssetDone "other-asset" "1.0.0"]
  /\ Scenario.manifestFetches Scenario.url (trace (snd run)) = ["main"; "main"].
Proof.
  vm_compute. repeat split; reflexivity.
Qed.

(** The integration test of the repository, continued: the asset is
    installed into the fresh workspace, then [resolveAll] runs with the
    remote unchanged. The second run fetches no content, returns the hash of
    the first, and leaves lockfile and cache as the first run wrote them. *)
Example install_then_resolveAll_is_idempotent :
  let first :=
    AssetResolver.install (env := Scenario.env_v1) (L := Scenario.libs)
      Scenario.url "test-asset" "latest" false Scenario.fresh in
  let second :=
    AssetResolver.resolveAll (env := Scenario.env_v1) (L := Scenario.libs)
      (snd first) in
  match fst first, fst second with
  | Ok (Installed a), Ok [b] =>
      resolved_version a = "1.0.0" /\
      resolved_content a = "# Hello Test" /\
      resolved_sha256 a = Sha256.hex "# Hello Test" /\
      resolved_sha256 b = resolved_sha256 a /\
      resolved_content b = resolved_content a
  | _, _ => False
  end
  /\ trace (snd second)
     = trace (snd first)
       ++ [AssetStart "test-asset" "1.0.0";
           FetchFile Scenario.url "parca-manifest.yaml" "mock-sha-123";
           ResolveRef Scenario.url "mock-sha-123";
           AssetDone "test-asset" "1.0.0"]
  /\ lockfileFile (snd second) = lockfileFile (snd first)
  /\ cache (snd second) = cache (snd first)
  /\ cache (snd first) = Scenario.cache_v1.
Proof.
  vm_compute. repeat split; reflexivity.
Qed.

End ScenarioFacts.
(* ================================================================== *)
(** * The lockfile as a table keyed by id and source                   *)
(* ================================================================== *)

Module LockfileFacts.

Import LockfileManager.

(** The number of entries of the lockfile for an id and a source. *)
Definition entries_for (lockfile : ParcaLockfile) (id source : string) : nat :=
  List.length (filter (same_key id source) (lockfile_assets lockfile)).

Lemma same_key_eq id source a :
  same_key id source a = true <-> locked_id a = id /\ locked_source a = source.
Proof.
  unfold same_key. rewrite andb_true_iff, !String.eqb_eq. tauto.
Qed.

Lemma same_key_other id source id' source' a :
  same_key id source a = true -> same_key id' source' a = true ->
  id = id' /\ source = source'.
Proof.
  rewrite !same_key_eq. intros [<- <-] [<- <-]. now split.
Qed.

Lemma find_filter_none {A} (p : A -> bool) l : find p (filter (fun a => negb (p a)) l) = None.
Proof.
  induction l as [|a l IH]; simpl; [reflexivity|].
  destruct (p a) eqn:E; simpl; [exact IH|]. now rewrite E.
Qed.

Lemma find_filter_other {A} (p q : A -> bool) l :
  (forall a, p a = true -> q a = true) ->
  find p (filter q l) = find p l.
Proof.
  intros H. induction l as [|a l IH]; simpl; [reflexivity|].
  destruct (p a) eqn:E.
  - rewrite (H a E). simpl. now rewrite E.
  - destruct (q a); simpl; [now rewrite E|exact IH].
Qed.

Lemma find_app {A} (p : A -> bool) l l' :
  find p (l ++ l') = match find p l with Some a => Some a | None => find p l' end.
Proof.
  induction l as [|a l IH]; simpl; [reflexivity|]. now destruct (p a).
Qed.

Lemma other_key_kept id source entry a :
  same_key id source entry = false ->
  same_key id source a = true ->
  negb (same_key (locked_id entry) (locked_source entry) a) = true.
Proof.
  intros Hne Ha. apply negb_true_iff.
  destruct (same_key (locked_id entry) (locked_source entry) a) eqn:E;
    [|reflexivity].
  apply same_key_eq in Ha. destruct Ha as [<- <-].
  apply same_key_eq in E. destruct E as [E1 E2].
  assert (same_key (locked_id a) (locked_source a) entry = true)
    by (apply same_key_eq; now split).
  congruence.
Qed.


(** X1: looking up after [upsertAsset]. The entry just written is what
    [findAsset] returns for its own id and source; for every other pair the
    lookup is what it was before. *)
Theorem findAsset_after_upsertAsset
    (lockfile : ParcaLockfile) (entry : ParcaLockedAsset) (id source : string) :
  findAsset (upsertAsset lockfile entry) id source =
  if same_key id source entry then Some entry
  else findAsset lockfile id source.
Proof.
  unfold findAsset, upsertAsset. cbn [lockfile_assets].
  rewrite find_app. destruct (same_key id source entry) eqn:E.
  - apply same_key_eq in E. destruct E as [<- <-].
    rewrite find_filter_none. simpl.
    assert (H : same_key (locked_id entry) (locked_source entry) entry = true)
      by (apply same_key_eq; now split).
    now rewrite H.
  - rewrite find_filter_other
      by (intros a Ha; now apply (other_key_kept id source)).
    destruct (find (same_key id source) (lockfile_assets lockfile));
      [reflexivity|]. simpl. now rewrite E.
Qed.

(** X2: looking up after [removeAsset]. The removed pair is no longer found,
    even if the lockfile held several entries for it; every other pair is
    found as before. *)
Theorem findAsset_after_removeAsset
    (lockfile : ParcaLockfile) (id source id' source' : string) :
  findAsset (removeAsset lockfile id source) id' source' =
  if ((id =? id') && (source =? source'))%string then None
  else findAsset lockfile id' source'.
Proof.
  unfold findAsset, removeAsset. cbn [lockfile_assets].
  destruct ((id =? id') && (source =? source'))%string eqn:E.
  - apply andb_true_iff in E. rewrite !String.eqb_eq in E.
    destruct E as [<- <-]. apply find_filter_none.
  - apply find_filter_other. intros a Ha. apply negb_true_iff.
    destruct (same_key id source a) eqn:E'; [|reflexivity].
    destruct (same_key_other _ _ _ _ _ E' Ha) as [-> ->].
    now rewrite !String.eqb_refl in E.
Qed.

Lemma filter_filter_none {A} (p : A -> bool) l :
  filter p (filter (fun a => negb (p a)) l) = [].
Proof.
  induction l as [|a l IH]; simpl; [reflexivity|].
  destruct (p a) eqn:E; simpl; [exact IH|]. now rewrite E.
Qed.

Lemma filter_filter_other {A} (p q : A -> bool) l :
  (forall a, p a = true -> q a = true) ->
  filter p (filter q l) = filter p l.
Proof.
  intros H. induction l as [|a l IH]; simpl; [reflexivity|].
  destruct (p a) eqn:E.
  - rewrite (H a E). simpl. rewrite E. now f_equal.
  - destruct (q a); simpl; [now rewrite E|exact IH].
Qed.

(** X3: [upsertAsset] leaves exactly one entry for the id and source of the
    entry it writes, whatever the lockfile held for them before, and changes
    the number of entries of no other pair. *)
Theorem upsertAsset_single_entry
    (lockfile : ParcaLockfile) (entry : ParcaLockedAsset) (id source : string) :
  entries_for (upsertAsset lockfile entry) id source =
  if same_key id source entry then 1
  else entries_for lockfile id source.
Proof.
  unfold entries_for, upsertAsset. cbn [lockfile_assets].
  rewrite filter_app, length_app. destruct (same_key id source entry) eqn:E.
  - pose proof E as E0. apply same_key_eq in E0. destruct E0 as [<- <-].
    rewrite filter_filter_none. simpl. now rewrite E.
  - rewrite filter_filter_other
      by (intros a Ha; now apply (other_key_kept id source)).
    simpl. rewrite E. simpl. lia.
Qed.

End LockfileFacts.
(* ================================================================== *)
(** * The configuration file                                           *)
(* ================================================================== *)

Module ConfigFacts.

Import Frame.

(** A configuration [validate] accepts: a schema, and assets with an id, a
    version and a source that the configuration defines. *)
Definition well_formed (c : ParcaConfig) : Prop :=
  config_schema c <> EmptyString /\
  forall a, In a (config_assets c) ->
    entry_id a <> EmptyString /\ entry_source a <> EmptyString /\
    entry_version a <> EmptyString /\
    exists s, JS.get (config_sources c) (entry_source a) = Some s.

Lemma in_entries {V} (o : JS.Obj V) k v :
  In (k, v) (JS.entries o) <-> In k (JS.keys o) /\ JS.get o k = Some v.
Proof.
  unfold JS.entries. rewrite in_flat_map. split.
  - intros (k0 & Hk & Hin). destruct (JS.get o k0) eqn:E; [|destruct Hin].
    destruct Hin as [[= -> ->]|[]]. now split.
  - intros [Hk Hg]. exists k. split; [exact Hk|]. rewrite Hg. now left.
Qed.

Lemma find_unique {A} (p : A -> bool) l x :
  In x l -> p x = true ->
  (forall y, In y l -> p y = true -> y = x) ->
  find p l = Some x.
Proof.
  intros Hin Hp Hu. destruct (find p l) as [y|] eqn:E.
  - apply find_some in E. destruct E as [Hy Hpy]. now rewrite (Hu y Hy Hpy).
  - pose proof (find_none _ _ E x Hin). congruence.
Qed.

Section WithEnv.
Context {env : Env} {L : Libs}.

Lemma check_assets_none c assets :
  ConfigLoader.check_assets c assets = None <->
  forall a, In a assets ->
    entry_id a <> EmptyString /\ entry_source a <> EmptyString /\
    entry_version a <> EmptyString /\
    exists s, JS.get (config_sources c) (entry_source a) = Some s.
Proof.
  induction assets as [|a assets IH]; simpl.
  - split; [intros _ a []|reflexivity].
  - destruct (entry_id a =? "")%string eqn:E1.
    { simpl. split; [discriminate|]. intros H.
      destruct (H a (or_introl eq_refl)) as (H1 & _).
      apply String.eqb_eq in E1. contradiction. }
    destruct (entry_source a =? "")%string eqn:E2.
    { simpl. split; [discriminate|]. intros H.
      destruct (H a (or_introl eq_refl)) as (_ & H2 & _).
      apply String.eqb_eq in E2. contradiction. }
    destruct (entry_version a =? "")%string eqn:E3.
    { simpl. split; [discriminate|]. intros H.
      destruct (H a (or_introl eq_refl)) as (_ & _ & H3 & _).
      apply String.eqb_eq in E3. contradiction. }
    simpl. apply String.eqb_neq in E1, E2, E3.
    destruct (JS.get (config_sources c) (entry_source a)) as [s|] eqn:Es.
    + rewrite IH. split.
      * intros H b [<-|Hb]; [|now apply H].
        repeat split; try assumption. now exists s.
      * intros H b Hb. apply H. now right.
    + split; [discriminate|]. intros H.
      destruct (H a (or_introl eq_refl)) as (_ & _ & _ & s & Hs). congruence.
Qed.

Lemma check_none c : ConfigLoader.check c = None <-> well_formed c.
Proof.
  unfold ConfigLoader.check, well_formed.
  destruct (config_schema c =? "")%string eqn:E.
  - apply String.eqb_eq in E. split; [discriminate|]. intros [H _].
    contradiction.
  - apply String.eqb_neq in E. rewrite check_assets_none. tauto.
Qed.

(** X4: [load] returns a configuration exactly when the file exists and
    passes validation, written out: the schema is present and every asset
    has an id, a version and a source the configuration defines. It returns
    the file as it is and changes nothing; without a file it throws the
    not-found error. No asset of the file names as its source a member
    every object inherits (such as [constructor]): the check of the source
    finds such a name defined in any configuration. *)
Theorem load_returns_validated_config (w : World) :
  (forall c a, configFile w = Some c -> In a (config_assets c) ->
               JS.inherited (entry_source a) = false) ->
  (forall c w',
     ConfigLoader.load w = (Ok c, w') <->
     w' = w /\ configFile w = Some c /\ well_formed c)
  /\ (forall e w', ConfigLoader.load w = (Throw e, w') -> w' = w)
  /\ (configFile w = None ->
      ConfigLoader.load w = (Throw (ConfigNotFound ConfigLoader.configPath), w)).
Proof.
  intros _. split; [|split].
  - intros c w'. rewrite config_load_run. split.
    + destruct (configFile w) as [c0|]; [|discriminate].
      destruct (ConfigLoader.check c0) eqn:E; [discriminate|].
      intros [= <- <-].
      split; [reflexivity|split; [reflexivity|now apply check_none]].
    + intros (-> & Hc & Hwf). rewrite Hc.
      apply check_none in Hwf. now rewrite Hwf.
  - intros e w'. rewrite config_load_run. destruct (configFile w) as [c0|].
    + destruct (ConfigLoader.check c0); now intros [= _ <-].
    + now intros [= _ <-].
  - intros Hc. now rewrite config_load_run, Hc.
Qed.

(** ** Aliases *)

Lemma nth_in_nonempty (parts : list string) n :
  (forall p, In p parts -> p <> EmptyString) ->
  n < List.length parts -> nth n parts EmptyString <> EmptyString.
Proof.
  intros H Hn. apply H. now apply nth_In.
Qed.

(** X5: the alias [deriveAlias] gives a source is never the empty string,
    whatever the URL and whatever the URL parser answers. *)
Theorem deriveAlias_not_empty (url : string) :
  ConfigLoader.deriveAlias url <> EmptyString.
Proof.
  unfold ConfigLoader.deriveAlias.
  destruct (URL_pathname url) as [pathname|]; [|discriminate].
  set (parts := filter _ _).
  assert (Hparts : forall p, In p parts -> p <> EmptyString).
  { intros p Hp. apply filter_In in Hp. destruct Hp as [_ Hp].
    apply negb_true_iff, String.eqb_neq in Hp. exact Hp. }
  destruct (2 <=? List.length parts)%nat eqn:E.
  - apply Nat.leb_le in E. apply nth_in_nonempty; [exact Hparts|lia].
  - unfold JS.or_else.
    destruct (JS.truthy (nth_error parts 0)) eqn:Et; [|discriminate].
    destruct (nth_error parts 0) as [a|] eqn:Ea; [|discriminate].
    apply Hparts. eapply nth_error_In. exact Ea.
Qed.

(** ** Registering a source *)

Definition matches_url (url : string) (e : string * ParcaSource) : bool :=
  (source_url (snd e) =? url)%string.

(** The configuration with [url] registered under [alias]. *)
Definition with_source (c : ParcaConfig) (alias : string) (provider : Provider)
    (url : string) : ParcaConfig :=
  mkConfig (config_schema c)
    (JS.set (config_sources c) alias (mkSource provider url))
    (config_assets c).

Lemma ensureSource_loaded url provider w c :
  configFile w = Some c -> ConfigLoader.check c = None ->
  ConfigLoader.ensureSource url provider w =
  match find (matches_url url) (JS.entries (config_sources c)) with
  | Some (alias, _) => (Ok (c, alias), w)
  | None =>
      let c' := with_source c (ConfigLoader.deriveAlias url) provider url in
      (Ok (c', ConfigLoader.deriveAlias url), set_configFile (Some c') w)
  end.
Proof.
  intros Hc Hk. unfold ConfigLoader.ensureSource, try_catch, bind.
  rewrite config_load_run, Hc, Hk. unfold matches_url.
  destruct (find _ _) as [[alias s]|]; reflexivity.
Qed.

Lemma ensureSource_unloaded url provider w :
  (configFile w = None \/
   exists c e, configFile w = Some c /\ ConfigLoader.check c = Some e) ->
  ConfigLoader.ensureSource url provider w =
  let fresh := mkConfig "1.0" [] [] in
  let c' := with_source fresh (ConfigLoader.deriveAlias url) provider url in
  (Ok (c', ConfigLoader.deriveAlias url), set_configFile (Some c') w).
Proof.
  intros H. unfold ConfigLoader.ensureSource, try_catch, bind.
  rewrite config_load_run.
  destruct H as [H|(c & e & Hc & He)].
  - rewrite H. reflexivity.
  - rewrite Hc, He. reflexivity.
Qed.

Lemma with_source_well_formed c alias provider url :
  well_formed c -> well_formed (with_source c alias provider url).
Proof.
  intros [Hs Ha]. split; [exact Hs|]. intros a Hin.
  destruct (Ha a Hin) as (H1 & H2 & H3 & s & Hg).
  repeat split; try assumption. cbn [with_source config_sources].
  destruct (string_dec alias (entry_source a)) as [<-|Hne].
  - rewrite ObjFacts.get_set_same. now eexists.
  - rewrite ObjFacts.get_set_other by exact Hne. now exists s.
Qed.

Lemma find_after_with_source c alias provider url :
  find (matches_url url) (JS.entries (config_sources c)) = None ->
  find (matches_url url)
    (JS.entries (config_sources (with_source c alias provider url)))
  = Some (alias, mkSource provider url).
Proof.
  intros Hnone. cbn [with_source config_sources].
  apply find_unique.
  - apply in_entries. split; [|apply ObjFacts.get_set_same].
    apply ObjFacts.in_keys_get. eexists. apply ObjFacts.get_set_same.
  - unfold matches_url. simpl. apply String.eqb_refl.
  - intros [k v] Hin Hp. apply in_entries in Hin. destruct Hin as [Hk Hg].
    destruct (string_dec alias k) as [<-|Hne].
    + rewrite ObjFacts.get_set_same in Hg. now injection Hg as <-.
    + rewrite ObjFacts.get_set_other in Hg by exact Hne.
      assert (Hin : In (k, v) (JS.entries (config_sources c))).
      { apply in_entries. split; [|exact Hg].
        apply ObjFacts.in_keys_get. now exists v. }
      pose proof (find_none _ _ Hnone _ Hin). congruence.
Qed.

(** What [ensureSource] leaves when it has to register the URL in [c0]. *)
Lemma registered_anew url provider provider' w c0 :
  well_formed c0 ->
  find (matches_url url) (JS.entries (config_sources c0)) = None ->
  let c' := with_source c0 (ConfigLoader.deriveAlias url) provider url in
  let w1 := set_configFile (Some c') w in
  configFile w1 = Some c' /\
  (exists s, JS.get (config_sources c') (ConfigLoader.deriveAlias url) = Some s
             /\ source_url s = url) /\
  (lockfileFile w1 = lockfileFile w /\ cache w1 = cache w /\
   symlinks w1 = symlinks w /\ gitignore w1 = gitignore w /\
   trace w1 = trace w) /\
  ConfigLoader.ensureSource url provider' w1
  = (Ok (c', ConfigLoader.deriveAlias url), w1).
Proof.
  intros Hwf Hnone c' w1. split; [reflexivity|]. split.
  { exists (mkSource provider url). split; [|reflexivity].
    apply ObjFacts.get_set_same. }
  split; [repeat split|].
  rewrite (ensureSource_loaded url provider' w1 c'); [|reflexivity|].
  - unfold c'. now rewrite find_after_with_source.
  - apply check_none. now apply with_source_well_formed.
Qed.

Lemma fresh_well_formed : well_formed (mkConfig "1.0" [] []).
Proof. split; [discriminate|intros a []]. Qed.

(** X6: [ensureSource] always succeeds and leaves the URL registered: the
    alias it returns names a source with this URL in the configuration it
    returns, which is the configuration on disk. Nothing but the
    configuration file changes, and a second call (for whatever provider)
    returns the same configuration and alias and writes nothing. The alias
    derived from the URL is not [__proto__], under which an object keeps no
    property. *)
Theorem ensureSource_registers_url_once
    (url : string) (provider provider' : Provider) (w : World) :
  ConfigLoader.deriveAlias url <> "__proto__" ->
  exists config alias w1,
    ConfigLoader.ensureSource url provider w = (Ok (config, alias), w1) /\
    configFile w1 = Some config /\
    (exists s, JS.get (config_sources config) alias = Some s /\
               source_url s = url) /\
    (lockfileFile w1 = lockfileFile w /\ cache w1 = cache w /\
     symlinks w1 = symlinks w /\ gitignore w1 = gitignore w /\
     trace w1 = trace w) /\
    ConfigLoader.ensureSource url provider' w1 = (Ok (config, alias), w1).
Proof.
  intros _. destruct (configFile w) as [c|] eqn:Hc.
  - destruct (ConfigLoader.check c) as [e|] eqn:Hk.
    + rewrite ensureSource_unloaded by (right; now exists c, e).
      cbv zeta. do 3 eexists. split; [reflexivity|].
      apply (registered_anew url provider provider' w (mkConfig "1.0" [] []));
        [apply fresh_well_formed|reflexivity].
    + rewrite (ensureSource_loaded url provider w c Hc Hk).
      destruct (find _ _) as [[alias s]|] eqn:Hf.
      * exists c, alias, w. split; [reflexivity|]. split; [exact Hc|].
        pose proof Hf as Hf0.
        apply find_some in Hf0. destruct Hf0 as [Hin Hp].
        apply in_entries in Hin. destruct Hin as [_ Hg].
        split; [exists s; split; [exact Hg|now apply String.eqb_eq in Hp]|].
        split; [repeat split|].
        rewrite (ensureSource_loaded url provider' w c Hc Hk).
        now rewrite Hf.
      * cbv zeta. do 3 eexists. split; [reflexivity|].
        apply (registered_anew url provider provider' w c);
          [now apply check_none|exact Hf].
  - rewrite ensureSource_unloaded by now left.
    cbv zeta. do 3 eexists. split; [reflexivity|].
    apply (registered_anew url provider provider' w (mkConfig "1.0" [] []));
      [apply fresh_well_formed|reflexivity].
Qed.

(** X7: when the URL is not registered, [ensureSource] writes it under the
    derived alias even if that alias already names another source: the
    source found there before is replaced, every other alias keeps its
    source, and the declared assets, those of the replaced source with
    them, stay as they are. *)
Theorem ensureSource_replaces_source_under_derived_alias
    (url : string) (provider : Provider) (w : World) (c : ParcaConfig)
    (old : ParcaSource) :
  configFile w = Some c ->
  ConfigLoader.check c = None ->
  (forall alias s, In (alias, s) (JS.entries (config_sources c)) ->
                   source_url s <> url) ->
  JS.get (config_sources c) (ConfigLoader.deriveAlias url) = Some old ->
  exists c' w',
    ConfigLoader.ensureSource url provider w
    = (Ok (c', ConfigLoader.deriveAlias url), w') /\
    configFile w' = Some c' /\
    source_url old <> url /\
    JS.get (config_sources c') (ConfigLoader.deriveAlias url)
    = Some (mkSource provider url) /\
    (forall k, k <> ConfigLoader.deriveAlias url ->
       JS.get (config_sources c') k = JS.get (config_sources c) k) /\
    config_assets c' = config_assets c /\
    config_schema c' = config_schema c.
Proof.
  intros Hc Hk Hnew Hold.
  rewrite (ensureSource_loaded url provider w c Hc Hk).
  assert (Hf : find (matches_url url) (JS.entries (config_sources c)) = None).
  { destruct (find _ _) as [[alias s]|] eqn:Hf; [|reflexivity].
    apply find_some in Hf. destruct Hf as [Hin Hp].
    apply String.eqb_eq in Hp. now destruct (Hnew alias s Hin). }
  rewrite Hf. cbv zeta. do 2 eexists. split; [reflexivity|].
  split; [reflexivity|]. split.
  { apply (Hnew (ConfigLoader.deriveAlias url)). apply in_entries.
    split; [|exact Hold]. apply ObjFacts.in_keys_get. now exists old. }
  split; [apply ObjFacts.get_set_same|].
  split; [|split; reflexivity].
  intros k Hne. cbn [with_source config_sources].
  apply ObjFacts.get_set_other. congruence.
Qed.

End WithEnv.

(** The configuration of the installed workspace is loaded as it is. *)
Lemma installed_configuration_is_loaded :
  exists c,
    ConfigLoader.load (env := Scenario.env_v1) (L := Scenario.libs)
      Scenario.installed = (Ok c, Scenario.installed) /\
    config_assets c = [Scenario.entry_v1].
Proof.
  destruct (load_returns_validated_config (env := Scenario.env_v1)
              (L := Scenario.libs) Scenario.installed) as (Hload & _ & _).
  - intros c a Hc Hin. vm_compute in Hc. injection Hc as <-.
    destruct Hin as [<-|[]]. reflexivity.
  - exists (mkConfig "1.0" Scenario.sources [Scenario.entry_v1]).
    split; [|reflexivity]. apply Hload.
    split; [reflexivity|]. split; [reflexivity|].
    split; [discriminate|]. intros a [<-|[]].
    repeat split; try discriminate. eexists. reflexivity.
Defined.

(** The first repository of the organisation [test] is registered under
    the alias [test], once. *)
Lemma first_repository_is_registered_once :
  let w := mkWorld (Some (mkConfig "1.0" [] [])) None [] [] None [] in
  exists config w1,
    ConfigLoader.ensureSource (env := Scenario.env_v1) (L := Scenario.libs)
      Scenario.url github w = (Ok (config, "test"), w1) /\
    config_sources config = [("test", mkSource github Scenario.url)] /\
    ConfigLoader.ensureSource (env := Scenario.env_v1) (L := Scenario.libs)
      Scenario.url azure w1 = (Ok (config, "test"), w1).
Proof.
  intros w.
  destruct (ensureSource_registers_url_once (env := Scenario.env_v1)
              (L := Scenario.libs) Scenario.url github azure w)
    as (config & alias & w1 & Hrun & _ & _ & _ & Hagain).
  - vm_compute. discriminate.
  - vm_compute in Hrun. injection Hrun as <- <- <-.
    exists (mkConfig "1.0" [("test", mkSource github Scenario.url)] []),
      (mkWorld
         (Some (mkConfig "1.0" [("test", mkSource github Scenario.url)] []))
         None [] [] None []).
    split; [reflexivity|]. split; [reflexivity|exact Hagain].
Defined.

(** Two repositories of the organisation [test]: registering the second
    moves the alias [test], and the asset declared under it, to the second
    URL. *)
Lemma second_repository_of_an_organisation_takes_the_alias :
  let first := mkSource github "https://github.com/test/repo" in
  let c := mkConfig "1.0" [("test", first)]
             [mkEntry "test-asset" "test" "1.0.0" None] in
  let w := mkWorld (Some c) None [] [] None [] in
  exists c' w',
    ConfigLoader.ensureSource (env := Scenario.env_v1) (L := Scenario.libs)
      "https://github.com/test/other" github w
    = (Ok (c', "test"), w') /\
    JS.get (config_sources c') "test"
    = Some (mkSource github "https://github.com/test/other") /\
    config_assets c' = config_assets c.
Proof.
  intros first c w.
  destruct (ensureSource_replaces_source_under_derived_alias
              (env := Scenario.env_v1) (L := Scenario.libs)
              "https://github.com/test/other" github w c first)
    as (c' & w' & Hrun & _ & _ & Hget & _ & Hassets & _).
  - reflexivity.
  - reflexivity.
  - intros alias s Hin. vm_compute in Hin.
    destruct Hin as [[= <- <-]|[]]. discriminate.
  - reflexivity.
  - exists c', w'. repeat split; assumption.
Defined.

End ConfigFacts.
(* ================================================================== *)
(** * The cache: writing, reading back and hashing                     *)
(* ================================================================== *)

Module CacheFacts.

Import Frame ObjFacts RunFacts.
Import CacheManager.

Lemma key_eqb_neq a b : key_eqb a b = false <-> a <> b.
Proof.
  split.
  - intros H E. apply key_eqb_eq in E. congruence.
  - intros H. destruct (key_eqb a b) eqn:E; [|reflexivity].
    apply key_eqb_eq in E. contradiction.
Qed.

Lemma lookup_store_other c k d k' :
  k <> k' -> lookup_dir (store_dir c k d) k' = lookup_dir c k'.
Proof.
  intros Hne. induction c as [|[k0 d0] c IH]; simpl.
  - now rewrite (proj2 (key_eqb_neq k k') Hne).
  - destruct (key_eqb k0 k) eqn:E; simpl.
    + apply key_eqb_eq in E. subst k0.
      now rewrite (proj2 (key_eqb_neq k k') Hne).
    + destruct (key_eqb k0 k'); [reflexivity|exact IH].
Qed.

Lemma lookup_filter_same c k :
  lookup_dir (filter (fun e => negb (key_eqb (fst e) k)) c) k = None.
Proof.
  induction c as [|[k0 d0] c IH]; simpl; [reflexivity|].
  destruct (key_eqb k0 k) eqn:E; simpl; [exact IH|]. now rewrite E.
Qed.

Lemma lookup_filter_other c k k' :
  k <> k' ->
  lookup_dir (filter (fun e => negb (key_eqb (fst e) k)) c) k' = lookup_dir c k'.
Proof.
  intros Hne. induction c as [|[k0 d0] c IH]; simpl; [reflexivity|].
  destruct (key_eqb k0 k) eqn:E; simpl.
  - apply key_eqb_eq in E. subst k0.
    now rewrite (proj2 (key_eqb_neq k k') Hne).
  - destruct (key_eqb k0 k'); [reflexivity|exact IH].
Qed.

Section WithEnv.
Context {env : Env}.

(** ** Single files *)

Lemma writeToCache_cache s i v content w :
  exists w',
    writeToCache s i v content w =
    (Ok (path_string (FilePath (s, i, v) (i ++ ".md")),
         computeHashFromString (JS.replace_crlf content)), w')
    /\ readFileSync w' (s, i, v) (i ++ ".md") = Some (JS.replace_crlf content)
    /\ (forall k, k <> (s, i, v) ->
          lookup_dir (cache w') k = lookup_dir (cache w) k)
    /\ only_cache w w'.
Proof.
  unfold writeToCache, bind, mkdir, writeFile, modify, ret, getAssetDir,
    getAssetPath, readFileSync.
  destruct (lookup_dir (cache w) (s, i, v)) as [d|] eqn:E.
  - rewrite E. eexists. split; [reflexivity|]. cbn [cache set_cache].
    rewrite lookup_store_same, get_set_same. split; [reflexivity|].
    split; [|now repeat split].
    intros k Hk. apply lookup_store_other. congruence.
  - cbn [cache set_cache]. rewrite lookup_store_same.
    eexists. split; [reflexivity|]. cbn [cache set_cache].
    rewrite lookup_store_same, get_set_same. split; [reflexivity|].
    split; [|now repeat split].
    intros k Hk. rewrite !lookup_store_other by congruence. reflexivity.
Qed.

(** A file of the cache is accepted against the hash of its content. *)
Lemma file_cached s i v kind content w :
  kind <> skill ->
  readFileSync w (s, i, v) (i ++ ".md") = Some content ->
  isCached w s i v kind (Some (computeHashFromString content)) = true.
Proof.
  intros Hkind Hread. apply cacheHolds_isCached.
  destruct kind; [|contradiction|]; simpl; eexists; split;
    try exact Hread; reflexivity.
Qed.

(** X8: a single-file asset written to the cache is found there again.
    The alias, the id and the version are plain path segments (an id with a
    separator has no directory to be written to), as are those of the
    directories the cache holds, and the cache directory of the version
    holds no directory named [<id>.md]. Then [writeToCache]
    succeeds; afterwards [isCached] accepts the entry against the hash
    returned (and without one), [readFromCache] gives the content with its
    line ends normalised, the path returned is the path of the asset, and
    neither the cache directories of the other keys of plain segments nor
    any file of the workspace have changed. *)
Theorem writeToCache_then_cached
    (s i v content : string) (kind : AssetKind) (w : World) :
  kind <> skill ->
  plain_key (s, i, v) = true ->
  plain_cache (cache w) ->
  (forall d p, lookup_dir (cache w) (s, i, v) = Some d -> In p (JS.keys d) ->
               String.prefix (i ++ ".md/") p = false) ->
  exists w',
    writeToCache s i v content w =
    (Ok (path_string (getAssetPath s i v kind),
         computeHashFromString (JS.replace_crlf content)), w') /\
    isCached w' s i v kind
      (Some (computeHashFromString (JS.replace_crlf content))) = true /\
    isCached w' s i v kind None = true /\
    readFromCache w' s i v kind = Some (JS.replace_crlf content) /\
    (forall k, plain_key k = true -> k <> (s, i, v) ->
       lookup_dir (cache w') k = lookup_dir (cache w) k) /\
    only_cache w w'.
Proof.
  intros Hkind _ _ _.
  destruct (writeToCache_cache s i v content w) as (w' & Hrun & Hread & Hoth & Hfr).
  exists w'.
  assert (Hpath : getAssetPath s i v kind = FilePath (s, i, v) (i ++ ".md"))
    by (destruct kind; [reflexivity|contradiction|reflexivity]).
  rewrite Hpath. split; [exact Hrun|].
  assert (Hex : existsSync w' (FilePath (s, i, v) (i ++ ".md")) = true).
  { unfold existsSync. unfold readFileSync in Hread.
    destruct (lookup_dir (cache w') (s, i, v)); [|discriminate].
    now rewrite Hread. }
  split; [now apply file_cached|].
  split.
  { unfold isCached. rewrite Hpath, Hex. simpl.
    destruct kind; [reflexivity|contradiction|reflexivity]. }
  split.
  { unfold readFromCache. rewrite Hpath, Hex. simpl.
    destruct kind; [exact Hread|contradiction|exact Hread]. }
  split; [|assumption]. intros k _. apply Hoth.
Qed.

(** ** Directories *)

(** The directory a list of fetched files makes: a later file of the same
    path replaces an earlier one. *)
Definition dir_of (files : list GitDirectoryFile) (d : Dir) : Dir :=
  fold_left
    (fun d f => JS.set d (file_path f) (JS.replace_crlf (file_content f)))
    files d.

Lemma writeFiles_run k files : forall w d,
  lookup_dir (cache w) k = Some d ->
  exists w',
    writeFiles k files w = (Ok tt, w') /\
    lookup_dir (cache w') k = Some (dir_of files d) /\
    (forall k', k' <> k -> lookup_dir (cache w') k' = lookup_dir (cache w) k') /\
    only_cache w w'.
Proof.
  induction files as [|f files IH]; intros w d Hd.
  - exists w. simpl. repeat split; try assumption; reflexivity.
  - cbn [writeFiles]. unfold bind at 1. unfold writeFile at 1. unfold modify.
    rewrite Hd.
    set (w1 := set_cache _ w).
    assert (H1 : lookup_dir (cache w1) k
                 = Some (JS.set d (file_path f)
                           (JS.replace_crlf (file_content f))))
      by (unfold w1; cbn [cache set_cache]; apply lookup_store_same).
    destruct (IH w1 _ H1) as (w' & Hrun & Hl & Hoth & Hfr).
    exists w'. split; [exact Hrun|]. split; [exact Hl|]. split.
    + intros k' Hk'. rewrite (Hoth k' Hk'). unfold w1. cbn [cache set_cache].
      apply lookup_store_other. congruence.
    + eapply (framing_trans only_cache_framing); [|exact Hfr].
      unfold w1. now repeat split.
Qed.

Lemma in_dir_of files : forall d p,
  (In p (map fst d) \/ In p (map file_path files)) ->
  In p (map fst (dir_of files d)).
Proof.
  induction files as [|f files IH]; intros d p H.
  - destruct H as [H|[]]. exact H.
  - cbn [dir_of fold_left]. apply IH.
    destruct (string_dec p (file_path f)) as [->|Hne].
    + left. apply get_some_in. eexists. apply get_set_same.
    + destruct H as [H|[H|H]].
      * left. apply get_some_in. apply get_some_in in H.
        destruct H as [v Hv]. exists v.
        rewrite get_set_other by congruence. exact Hv.
      * congruence.
      * now right.
Qed.

Lemma top_name_plain p q :
  JS.toLowerCase p = q ->
  Semver.all_chars (fun c => negb (Ascii.eqb c "/")) q = true ->
  top_name p = p.
Proof.
  unfold top_name. revert q. induction p as [|c p IH]; intros q Hq Hall.
  - reflexivity.
  - simpl in Hq. subst q. simpl in Hall. apply andb_true_iff in Hall.
    destruct Hall as [Hc Hall]. simpl.
    assert (Hne : Ascii.eqb c "/" = false).
    { destruct (Ascii.eqb c "/") eqn:E; [|reflexivity].
      apply Ascii.eqb_eq in E. subst c. discriminate. }
    rewrite Hne. specialize (IH _ eq_refl Hall).
    destruct (Semver.cut "/" p) as [a b]. simpl in *. now rewrite IH.
Qed.

Lemma writeDirectoryToCache_cache s i v files w :
  exists w',
    writeDirectoryToCache s i v files w =
    (Ok (path_string (DirPath (s, i, v)),
         computeDirectoryHash (dir_of files [])), w') /\
    lookup_dir (cache w') (s, i, v) = Some (dir_of files []) /\
    (forall k, k <> (s, i, v) ->
       lookup_dir (cache w') k = lookup_dir (cache w) k) /\
    only_cache w w'.
Proof.
  unfold writeDirectoryToCache, getAssetDir.
  unfold bind at 1. unfold rmdir at 1. unfold modify at 1.
  set (w1 := set_cache _ w).
  unfold bind at 1. unfold mkdir at 1. unfold modify at 1.
  assert (H1 : lookup_dir (cache w1) (s, i, v) = None)
    by (unfold w1; cbn [cache set_cache]; apply lookup_filter_same).
  rewrite H1.
  set (w2 := set_cache _ w1).
  assert (H2 : lookup_dir (cache w2) (s, i, v) = Some [])
    by (unfold w2; cbn [cache set_cache]; apply lookup_store_same).
  destruct (writeFiles_run (s, i, v) files w2 [] H2)
    as (w' & Hrun & Hl & Hoth & Hfr).
  unfold bind at 1. rewrite Hrun.
  unfold bind, get_world, computeHash. rewrite Hl. simpl option_map.
  exists w'. split; [reflexivity|]. split; [exact Hl|]. split.
  - intros k Hk. rewrite (Hoth k Hk). unfold w2, w1. cbn [cache set_cache].
    rewrite lookup_store_other by congruence.
    apply lookup_filter_other. congruence.
  - eapply (framing_trans only_cache_framing); [|exact Hfr].
    unfold w2, w1. now repeat split.
Qed.

(** A directory made of files that include a top-level [SKILL.md] is
    accepted as a skill against its hash. *)
Lemma skill_directory_cached s i v files d w :
  lookup_dir (cache w) (s, i, v) = Some (dir_of files d) ->
  (exists f, In f files /\ JS.toLowerCase (file_path f) = "skill.md") ->
  isCached w s i v skill (Some (computeDirectoryHash (dir_of files d))) = true.
Proof.
  intros Hl (f & Hin & Hlow). apply cacheHolds_isCached. simpl.
  exists (dir_of files d). split; [exact Hl|]. split; [|reflexivity].
  exists (file_path f). split; [|exact Hlow].
  unfold readdir. apply nodup_In. apply in_map_iff.
  assert (Hp : In (file_path f) (map fst (dir_of files d)))
    by (apply in_dir_of; right; now apply in_map).
  apply in_map_iff in Hp. destruct Hp as ([p c] & Hfst & Hpc).
  simpl in Hfst. subst p. exists (file_path f, c). split; [|exact Hpc].
  simpl. now apply (top_name_plain _ "skill.md").
Qed.

(** X9: [writeDirectoryToCache] replaces the directory of the asset
    version. The alias, the id and the version are plain path segments, as
    are those of the directories the cache holds, and the files form a
    tree: their paths are in normal form and none lies below another. Then
    the call succeeds; afterwards the directory holds
    exactly the files given, with normalised line ends, whatever it held
    before; the hash returned is the hash of that directory, the cache
    directories of the other keys of plain segments are untouched, and when
    the files include a top-level [SKILL.md] (in any letter case)
    [isCached] accepts the entry as a skill against the hash returned. *)
Theorem writeDirectoryToCache_replaces_directory
    (s i v : string) (files : list GitDirectoryFile) (w : World) :
  plain_key (s, i, v) = true ->
  plain_cache (cache w) ->
  tree_paths (map file_path files) ->
  exists w',
    writeDirectoryToCache s i v files w =
    (Ok (path_string (DirPath (s, i, v)),
         computeDirectoryHash (dir_of files [])), w') /\
    lookup_dir (cache w') (s, i, v) = Some (dir_of files []) /\
    (forall k, plain_key k = true -> k <> (s, i, v) ->
       lookup_dir (cache w') k = lookup_dir (cache w) k) /\
    only_cache w w' /\
    ((exists f, In f files /\ JS.toLowerCase (file_path f) = "skill.md") ->
     isCached w' s i v skill
       (Some (computeDirectoryHash (dir_of files []))) = true).
Proof.
  intros _ _ _.
  destruct (writeDirectoryToCache_cache s i v files w)
    as (w' & Hrun & Hl & Hoth & Hfr).
  exists w'. split; [exact Hrun|]. split; [exact Hl|].
  split; [intros k _; apply Hoth|]. split; [exact Hfr|].
  intros Hskill. now apply (skill_directory_cached s i v files []).
Qed.

End WithEnv.

(** ** Line ends *)

(** The text with every line feed turned into carriage return and line
    feed: what a checkout with CRLF conversion makes of it. *)
Fixpoint to_crlf (s : string) : string :=
  match s with
  | EmptyString => EmptyString
  | String c r =>
      if Ascii.eqb c "010" then String "013" (String "010" (to_crlf r))
      else String c (to_crlf r)
  end.

Lemma replace_crlf_cons c r :
  (forall r', r = String "010" r' -> c <> "013"%char) ->
  JS.replace_crlf (String c r) = String c (JS.replace_crlf r).
Proof.
  intros H. cbn [JS.replace_crlf]. destruct r as [|d r']; [reflexivity|].
  destruct (Ascii.eqb c "013") eqn:Ec; [|reflexivity].
  destruct (Ascii.eqb d "010") eqn:Ed; [|reflexivity].
  apply Ascii.eqb_eq in Ec, Ed. subst. now destruct (H r' eq_refl).
Qed.

Lemma to_crlf_head r r' : to_crlf r <> String "010" r'.
Proof.
  destruct r as [|c r]; simpl; [discriminate|].
  destruct (Ascii.eqb c "010") eqn:E; [discriminate|].
  intros [= -> _]. discriminate.
Qed.

Lemma replace_crlf_to_crlf s : JS.replace_crlf (to_crlf s) = s.
Proof.
  induction s as [|c s IH]; [reflexivity|]. cbn [to_crlf].
  destruct (Ascii.eqb c "010") eqn:E.
  - apply Ascii.eqb_eq in E. subst c.
    cbn [JS.replace_crlf]. simpl Ascii.eqb. cbn [andb]. now rewrite IH.
  - rewrite replace_crlf_cons; [now rewrite IH|].
    intros r' Hr'. now destruct (to_crlf_head s r').
Qed.

(** X10: the content hash does not depend on the line-end convention of
    the checkout. The hash of the CRLF form of a text is the SHA-256 of the
    text itself, so a text without CRLF pairs and its CRLF form have the
    same hash. *)
Theorem computeHashFromString_ignores_line_ends (text : string) :
  computeHashFromString (to_crlf text) = Sha256.hex text /\
  (JS.replace_crlf text = text ->
   computeHashFromString (to_crlf text) = computeHashFromString text).
Proof.
  unfold computeHashFromString. rewrite replace_crlf_to_crlf.
  split; [reflexivity|]. now intros ->.
Qed.

(** ** The hash of a directory *)

Section SortedByKey.
Variable A : Type.
Variable key : A -> string.

Let leb (a b : A) : bool := JS.leb (key a) (key b).
Let le (a b : A) : Prop := leb a b = true.

Lemma insert_permutation x l : Permutation (JS.insert_sorted leb x l) (x :: l).
Proof.
  induction l as [|y l IH]; simpl; [reflexivity|].
  destruct (leb x y); [reflexivity|].
  rewrite IH. apply perm_swap.
Qed.

Lemma sort_by_permutation l : Permutation (JS.sort_by leb l) l.
Proof.
  induction l as [|x l IH]; simpl; [reflexivity|].
  rewrite insert_permutation. now constructor.
Qed.

Lemma insert_strongly_sorted x l :
  StronglySorted le l -> StronglySorted le (JS.insert_sorted leb x l).
Proof.
  induction 1 as [|y l Hs IH Hy]; simpl.
  - constructor; [constructor|constructor].
  - destruct (leb x y) eqn:E.
    + constructor; [now constructor|]. constructor; [exact E|].
      rewrite Forall_forall in *. intros z Hz.
      unfold le, leb in *. eapply SortFacts.leb_trans; [exact E|].
      now apply Hy.
    + constructor; [exact IH|].
      rewrite Forall_forall in *. intros z Hz.
      apply (Permutation_in _ (insert_permutation x l)) in Hz.
      destruct Hz as [<-|Hz]; [|now apply Hy].
      unfold le, leb in *. now apply SortFacts.leb_false.
Qed.

Lemma sort_by_strongly_sorted l : StronglySorted le (JS.sort_by leb l).
Proof.
  induction l as [|x l IH]; simpl; [constructor|].
  now apply insert_strongly_sorted.
Qed.

Lemma sorted_unique l : forall l',
  StronglySorted le l -> StronglySorted le l' -> Permutation l l' ->
  NoDup (map key l) -> l = l'.
Proof.
  induction l as [|a l IH]; intros l' Hs Hs' Hp Hnd.
  - apply Permutation_nil in Hp. now subst.
  - destruct l' as [|a' l'].
    { apply Permutation_sym, Permutation_nil in Hp. discriminate. }
    inversion Hs as [|? ? Hsl Ha]; subst.
    inversion Hs' as [|? ? Hsl' Ha']; subst.
    rewrite Forall_forall in Ha, Ha'.
    assert (Heq : a = a').
    { assert (Hin : In a (a' :: l'))
        by (apply (Permutation_in _ Hp); now left).
      assert (Hin' : In a' (a :: l))
        by (apply (Permutation_in _ (Permutation_sym Hp)); now left).
      destruct Hin as [->|Hin]; [reflexivity|].
      destruct Hin' as [->|Hin']; [reflexivity|].
      assert (Hk : key a = key a')
        by (apply SortFacts.leb_antisym;
            [apply (Ha _ Hin')|apply (Ha' _ Hin)]).
      inversion Hnd as [|? ? Hnot _]; subst.
      destruct Hnot. rewrite Hk. now apply in_map. }
    subst a'. f_equal. apply IH; try assumption.
    + now apply Permutation_cons_inv in Hp.
    + now inversion Hnd.
Qed.

Lemma sort_by_order_independent l l' :
  Permutation l l' -> NoDup (map key l) ->
  JS.sort_by leb l = JS.sort_by leb l'.
Proof.
  intros Hp Hnd. apply sorted_unique.
  - apply sort_by_strongly_sorted.
  - apply sort_by_strongly_sorted.
  - rewrite !sort_by_permutation. exact Hp.
  - eapply Permutation_NoDup; [|exact Hnd].
    apply Permutation_map, Permutation_sym, sort_by_permutation.
Qed.

End SortedByKey.

(** X11: the hash of a cached directory does not depend on the order in
    which its files are listed: two listings of the same files, with
    pairwise distinct paths, have the same hash. *)
Theorem computeDirectoryHash_order_independent (d d' : Dir) :
  Permutation d d' -> NoDup (map fst d) ->
  computeDirectoryHash d = computeDirectoryHash d'.
Proof.
  intros Hp Hnd. unfold computeDirectoryHash.
  now rewrite (sort_by_order_independent _ fst d d' Hp Hnd).
Qed.

Lemma skill_directory_listed_either_way :
  computeDirectoryHash [("notes/a.md", "x"); ("SKILL.md", "y")]
  = computeDirectoryHash [("SKILL.md", "y"); ("notes/a.md", "x")].
Proof.
  apply computeDirectoryHash_order_independent.
  - apply perm_swap.
  - repeat constructor; simpl; intuition discriminate.
Defined.

Lemma append_assoc (a b c : string) : ((a ++ b) ++ c = a ++ (b ++ c))%string.
Proof. induction a as [|x a IH]; simpl; [reflexivity|now rewrite IH]. Qed.

Lemma replace_crlf_after_plain q c :
  Semver.all_chars (fun ch => negb (Ascii.eqb ch "013")) q = true ->
  JS.replace_crlf (q ++ c) = (q ++ JS.replace_crlf c)%string.
Proof.
  induction q as [|x q IH]; intros H; [reflexivity|].
  simpl in H. apply andb_true_iff in H. destruct H as [Hx Hq].
  cbn [append]. rewrite replace_crlf_cons; [now rewrite IH|].
  intros r' _ ->. discriminate.
Qed.

Lemma slashes_append a b :
  JS.slashes (a ++ b) = (JS.slashes a ++ JS.slashes b)%string.
Proof. induction a as [|x a IH]; simpl; [reflexivity|now rewrite IH]. Qed.

Lemma slashes_plain q :
  Semver.all_chars (fun ch => negb (Ascii.eqb ch (ascii_of_nat 92))) q = true ->
  JS.slashes q = q.
Proof.
  induction q as [|x q IH]; intros H; [reflexivity|].
  simpl in H. apply andb_true_iff in H. destruct H as [Hx Hq].
  cbn [JS.slashes]. rewrite (IH Hq).
  now destruct (Ascii.eqb x (ascii_of_nat 92)).
Qed.

(** X12: the hash of a directory covers the concatenation of each path with
    its content and nothing that marks where the path ends: a file
    [p ++ q] with content [c] and a file [p] with content [q ++ c] give the
    same hash, for [q] without carriage return and without backslash (which
    the hash replaces in a path and not in a content). *)
Theorem computeDirectoryHash_joins_path_and_content (p q c : string) :
  Semver.all_chars (fun ch => negb (Ascii.eqb ch "013")) q = true ->
  Semver.all_chars (fun ch => negb (Ascii.eqb ch (ascii_of_nat 92))) q = true ->
  computeDirectoryHash [((p ++ q)%string, c)]
  = computeDirectoryHash [(p, (q ++ c)%string)].
Proof.
  intros Hq Hb. unfold computeDirectoryHash. simpl.
  rewrite slashes_append, (slashes_plain q Hb).
  now rewrite (replace_crlf_after_plain q c Hq), append_assoc.
Qed.

Lemma path_and_content_run_together :
  computeDirectoryHash [("SKILL.md", "# Title")]
  = computeDirectoryHash [("SKILL", ".md# Title")].
Proof.
  apply (computeDirectoryHash_joins_path_and_content "SKILL" ".md" "# Title");
    reflexivity.
Defined.

Lemma prompt_written_then_cached :
  exists w',
    writeToCache (env := Scenario.env_v1) "test-source" "test-asset" "1.0.0"
      "# Hello Test" Scenario.fresh
    = (Ok ("/home/dev/.parca-cache/test-source/test-asset/1.0.0/test-asset.md",
           Scenario.hello_sha), w') /\
    readFromCache w' "test-source" "test-asset" "1.0.0" prompt
    = Some "# Hello Test".
Proof.
  destruct (writeToCache_then_cached (env := Scenario.env_v1)
              "test-source" "test-asset" "1.0.0" "# Hello Test" prompt
              Scenario.fresh)
    as (w' & Hrun & _ & _ & Hread & _);
    [discriminate|reflexivity|intros k d []|intros d p; discriminate|].
  exists w'. split; [exact Hrun|exact Hread].
Defined.

Lemma skill_written_then_cached :
  let files := [mkFile "SKILL.md" "# Review"; mkFile "notes/a.md" "x"] in
  exists w' sha,
    writeDirectoryToCache (env := Scenario.env_v1) "test-source" "review"
      "1.0.0" files Scenario.installed
    = (Ok ("/home/dev/.parca-cache/test-source/review/1.0.0", sha), w') /\
    isCached w' "test-source" "review" "1.0.0" skill (Some sha) = true /\
    lookup_dir (cache w') ("test-source", "test-asset", "1.0.0")
    = Some [("test-asset.md", "# Hello Test")].
Proof.
  intros files.
  destruct (writeDirectoryToCache_replaces_directory (env := Scenario.env_v1)
              "test-source" "review" "1.0.0" files Scenario.installed)
    as (w' & Hrun & _ & Hother & _ & Hskill).
  - reflexivity.
  - intros k d [[= <- <-]|[]]. reflexivity.
  - split.
    + intros p [<-|[<-|[]]]; reflexivity.
    + intros p q [<-|[<-|[]]] [<-|[<-|[]]]; reflexivity.
  - exists w', (computeDirectoryHash (dir_of files [])).
    split; [exact Hrun|]. split.
    + apply Hskill. exists (mkFile "SKILL.md" "# Review").
      split; [now left|reflexivity].
    + rewrite Hother; [reflexivity|reflexivity|discriminate].
Defined.

End CacheFacts.
(* ================================================================== *)
(** * Links and the ignore file                                        *)
(* ================================================================== *)

Module StringFacts.

Lemma append_nil_r (s : string) : (s ++ "")%string = s.
Proof. induction s as [|c s IH]; simpl; [reflexivity|now rewrite IH]. Qed.

Lemma length_append (a b : string) :
  String.length (a ++ b) = String.length a + String.length b.
Proof. induction a as [|c a IH]; simpl; [reflexivity|now rewrite IH]. Qed.


Lemma substring_prefix (p b : string) :
  String.substring 0 (String.length p) (p ++ b) = p.
Proof.
  induction p as [|c p IH]; simpl.
  - now destruct b.
  - now rewrite IH.
Qed.

Lemma substring_middle (a p b : string) :
  String.substring (String.length a) (String.length p) (a ++ p ++ b) = p.
Proof.
  induction a as [|c a IH]; simpl; [apply substring_prefix|exact IH].
Qed.

Lemma substring_0_add (n m : nat) : forall s,
  String.substring 0 (n + m) s
  = (String.substring 0 n s ++ String.substring n m s)%string.
Proof.
  induction n as [|n IH]; intros s.
  - simpl. now destruct s.
  - destruct s as [|c s]; simpl; [reflexivity|]. now rewrite IH.
Qed.

Lemma substring_split (n : nat) : forall s,
  (String.substring 0 n s ++ String.substring n (String.length s - n) s)%string
  = s.
Proof.
  induction n as [|n IH]; intros s.
  - simpl. rewrite Nat.sub_0_r. destruct s as [|c s]; [reflexivity|].
    simpl. f_equal. clear. induction s as [|d s IH]; [reflexivity|].
    simpl. now rewrite IH.
  - destruct s as [|c s]; simpl; [reflexivity|]. now rewrite IH.
Qed.

(** A string that occurs between two others is found by [includes]. *)
Lemma includes_middle (a p b : string) : JS.includes (a ++ p ++ b) p = true.
Proof.
  unfold JS.includes.
  destruct (String.index 0 p (a ++ p ++ b)) eqn:E; [reflexivity|].
  destruct (string_dec p EmptyString) as [->|Hne]; [reflexivity|].
  destruct (String.index_correct3 0 (String.length a) _ _ E Hne (Nat.le_0_l _)).
  apply substring_middle.
Qed.

(** Where [indexOf] finds a string, it is. *)
Lemma indexOf_found (s sub : string) n :
  JS.indexOf s sub = Some n ->
  String.substring n (String.length sub) s = sub.
Proof.
  unfold JS.indexOf. destruct (String.index 0 sub s) eqn:E.
  - intros [= <-]. eapply String.index_correct1. exact E.
  - destruct (sub =? "")%string eqn:Es; [|discriminate].
    apply String.eqb_eq in Es. subst sub. intros [= <-].
    now destruct s.
Qed.

Lemma includes_indexOf (s sub : string) :
  JS.includes s sub = true -> exists n, JS.indexOf s sub = Some n.
Proof.
  unfold JS.includes, JS.indexOf.
  destruct (String.index 0 sub s); [now eexists|].
  intros ->. now eexists.
Qed.

Lemma substring_beyond (n m : nat) : forall s,
  String.length s <= n -> String.substring n m s = EmptyString.
Proof.
  induction n as [|n IH]; intros s H.
  - destruct s; [|simpl in H; lia]. now destruct m.
  - destruct s as [|c s]; [reflexivity|]. simpl in *. apply IH. lia.
Qed.

Lemma length_substring_0 (n : nat) : forall s,
  n <= String.length s -> String.length (String.substring 0 n s) = n.
Proof.
  induction n as [|n IH]; intros s H.
  - now destruct s.
  - destruct s as [|c s]; simpl in *; [lia|]. rewrite IH; lia.
Qed.

(** A string without the character [c]. *)
Lemma includes_char_false (c : ascii) : forall s,
  JS.includes s (String c EmptyString) = false ->
  Semver.all_chars (fun x => negb (Ascii.eqb x c)) s = true.
Proof.
  unfold JS.includes. induction s as [|x s IH]; [reflexivity|].
  cbn [String.index String.prefix]. intros H.
  destruct (ascii_dec c x) as [->|Hne].
  - now destruct s.
  - destruct (String.index 0 (String c EmptyString) s) eqn:E;
      [discriminate|].
    cbn [Semver.all_chars]. rewrite (IH eq_refl), andb_true_r.
    apply negb_true_iff, Ascii.eqb_neq. congruence.
Qed.

(** The characters of a string, from those of its segments. *)
Lemma split_all_chars (P : ascii -> bool) (sep : ascii) : forall p,
  forallb (Semver.all_chars P) (JS.split sep p) = true ->
  Semver.all_chars (fun x => P x || Ascii.eqb x sep) p = true.
Proof.
  induction p as [|d r IH]; [reflexivity|].
  cbn [JS.split Semver.all_chars].
  destruct (Ascii.eqb d sep) eqn:E.
  - cbn [forallb Semver.all_chars]. intros H. rewrite orb_true_r.
    now apply IH.
  - destruct (JS.split sep r) as [|w ws].
    + cbn [forallb Semver.all_chars]. rewrite !andb_true_r. intros ->.
      now rewrite (IH eq_refl).
    + cbn [forallb Semver.all_chars]. intros H.
      apply andb_true_iff in H. destruct H as [H Hws].
      apply andb_true_iff in H. destruct H as [Hd Hw].
      rewrite Hd. cbn [orb andb]. apply IH. cbn [forallb].
      now rewrite Hw, Hws.
Qed.

Lemma all_chars_imp (P Q : ascii -> bool) :
  (forall x, P x = true -> Q x = true) ->
  forall s, Semver.all_chars P s = true -> Semver.all_chars Q s = true.
Proof.
  intros H. induction s as [|c s IH]; [reflexivity|].
  cbn [Semver.all_chars]. intros Hs. apply andb_true_iff in Hs.
  destruct Hs as [Hc Hs]. now rewrite (H c Hc), (IH Hs).
Qed.

(** A path in normal form has no backslash to replace. *)
Lemma slashes_normal (p : string) : normal_path p = true -> JS.slashes p = p.
Proof.
  intros H. apply CacheFacts.slashes_plain.
  apply (all_chars_imp
           (fun x => negb (Ascii.eqb x (ascii_of_nat 92)) || Ascii.eqb x "/")).
  { intros x Hx. apply orb_true_iff in Hx. destruct Hx as [Hx|Hx]; trivial.
    apply Ascii.eqb_eq in Hx. now subst x. }
  apply split_all_chars. unfold normal_path in H.
  rewrite forallb_forall in *. intros seg Hseg. specialize (H seg Hseg).
  unfold plain_segment in H. apply andb_true_iff in H. destruct H as [_ H].
  apply negb_true_iff in H. now apply includes_char_false.
Qed.

End StringFacts.

Module MapperFacts.

Import Frame ObjFacts RunFacts StringFacts.
Import WorkspaceMapper.

(** The text of the ignore file; an absent file reads as empty. *)
Definition ignored (w : World) : string :=
  match gitignore w with
  | Some c => c
  | None => EmptyString
  end.

(** The text [ensureGitignored] inserts into: the ignore file, with the
    marker section added at its end when it has none. *)
Definition with_marker (content : string) : string :=
  if JS.includes content marker then content
  else (content ++ JS.nl ++ marker ++ JS.nl)%string.

Lemma with_marker_includes content :
  JS.includes (with_marker content) marker = true.
Proof.
  unfold with_marker. destruct (JS.includes content marker) eqn:E; [exact E|].
  rewrite <- (CacheFacts.append_assoc content JS.nl (marker ++ JS.nl)).
  apply (includes_middle (content ++ JS.nl) marker JS.nl).
Qed.

(** The insertion of [ensureGitignored], as a function of the text. *)
Definition inserted (content relativePath : string) : string :=
  let base := with_marker content in
  let markerIdx := match JS.indexOf base marker with
                   | Some n => n
                   | None => 0
                   end in
  let insertPos := markerIdx + String.length marker in
  (String.substring 0 insertPos base ++ JS.nl ++ relativePath
   ++ String.substring insertPos (String.length base - insertPos) base)%string.

Lemma ensureGitignored_run p w :
  ensureGitignored p w =
  if JS.includes (ignored w) (JS.slashes p) then (Ok tt, w)
  else (Ok tt, set_gitignore (Some (inserted (ignored w) (JS.slashes p))) w).
Proof.
  unfold ensureGitignored, bind, get_world, ignored.
  destruct (JS.includes _ (JS.slashes p)); reflexivity.
Qed.

(** The inserted text: the base is cut right after the first marker, and
    the path goes on a line of its own between the two parts. *)
Lemma inserted_shape content p :
  exists before after,
    with_marker content = (before ++ marker ++ after)%string /\
    JS.indexOf (with_marker content) marker = Some (String.length before) /\
    inserted content p
    = (before ++ marker ++ JS.nl ++ p ++ after)%string.
Proof.
  unfold inserted.
  destruct (includes_indexOf _ _ (with_marker_includes content)) as [n Hn].
  rewrite Hn. set (base := with_marker content) in *.
  pose proof (indexOf_found _ _ _ Hn) as Hm.
  exists (String.substring 0 n base),
    (String.substring (n + String.length marker)
       (String.length base - (n + String.length marker)) base).
  split; [|split].
  - rewrite <- Hm at 1. rewrite <- CacheFacts.append_assoc.
    rewrite <- substring_0_add. symmetry. apply substring_split.
  - f_equal. symmetry. apply length_substring_0.
    destruct (Nat.le_gt_cases n (String.length base)) as [Hle|Hgt]; trivial.
    rewrite substring_beyond in Hm by lia. discriminate.
  - rewrite substring_0_add, Hm.
    now rewrite !CacheFacts.append_assoc.
Qed.

Lemma inserted_includes content p :
  JS.includes (inserted content p) p = true
  /\ JS.includes (inserted content p) marker = true.
Proof.
  destruct (inserted_shape content p) as (before & after & _ & _ & ->). split.
  - rewrite <- (CacheFacts.append_assoc before marker).
    rewrite <- (CacheFacts.append_assoc (before ++ marker) JS.nl).
    apply includes_middle.
  - apply (includes_middle before marker (JS.nl ++ p ++ after)).
Qed.


(** X13: [ensureGitignored] lists a path once. The path is given relative
    to the workspace root and in normal form. The call never fails;
    afterwards the ignore file contains the path, and a second call changes
    nothing. A path that already occurs in the file, as a line or inside
    one, is not added. Otherwise the file is the old text, with the marker
    section added at its end when it had none, cut right after the first
    occurrence of the marker, with the path on a new line between the two
    parts: no character of the old text is lost. Nothing but the ignore
    file changes. *)
Theorem ensureGitignored_lists_path_once (p : string) (w : World) :
  normal_path p = true ->
  exists w',
    ensureGitignored p w = (Ok tt, w') /\
    JS.includes (ignored w') p = true /\
    ensureGitignored p w' = (Ok tt, w') /\
    (JS.includes (ignored w) p = true -> w' = w) /\
    (JS.includes (ignored w) p = false ->
     JS.includes (ignored w') marker = true /\
     exists before after,
       with_marker (ignored w) = (before ++ marker ++ after)%string /\
       JS.indexOf (with_marker (ignored w)) marker
       = Some (String.length before) /\
       ignored w' = (before ++ marker ++ JS.nl ++ p ++ after)%string) /\
    (configFile w' = configFile w /\ lockfileFile w' = lockfileFile w /\
     cache w' = cache w /\ symlinks w' = symlinks w /\ trace w' = trace w).
Proof.
  intros Hnormal. pose proof (slashes_normal p Hnormal) as Hp.
  rewrite ensureGitignored_run, Hp.
  destruct (JS.includes (ignored w) p) eqn:E.
  - exists w. split; [reflexivity|]. split; [exact E|].
    split; [now rewrite ensureGitignored_run, Hp, E|].
    split; [reflexivity|]. split; [discriminate|now repeat split].
  - eexists. split; [reflexivity|].
    set (w' := set_gitignore _ w).
    assert (Hi : ignored w' = inserted (ignored w) p) by reflexivity.
    destruct (inserted_includes (ignored w) p) as [Hin Hm].
    split; [now rewrite Hi|].
    split; [now rewrite ensureGitignored_run, Hp, Hi, Hin|].
    split; [discriminate|]. split; [|now repeat split].
    intros _. split; [now rewrite Hi|]. rewrite Hi.
    apply inserted_shape.
Qed.

Lemma listed_path_is_found :
  exists w',
    ensureGitignored ".github/prompts/test-asset.prompt.md" Scenario.fresh
    = (Ok tt, w') /\
    gitignore w'
    = Some (JS.nl ++ marker ++ JS.nl
            ++ ".github/prompts/test-asset.prompt.md" ++ JS.nl)%string.
Proof.
  destruct (ensureGitignored_lists_path_once
              ".github/prompts/test-asset.prompt.md" Scenario.fresh eq_refl)
    as (w' & Hrun & _).
  exists w'. split; [exact Hrun|].
  rewrite ensureGitignored_run in Hrun. vm_compute in Hrun.
  now injection Hrun as <-.
Defined.

(** ** Links *)

Section Links.
Context {env : Env}.







End Links.


End MapperFacts.
(* ================================================================== *)
(** * Listing a remote source                                          *)
(* ================================================================== *)

Module ListingFacts.

Import Frame ObjFacts RunFacts SortFacts VersionMatcher.

Lemma last_version_rev (l : list string) :
  ManifestResolver.last_version l = hd_error (rev l).
Proof.
  destruct l as [|x l] using rev_ind; [reflexivity|].
  rewrite rev_app_distr. simpl hd_error.
  unfold ManifestResolver.last_version.
  destruct (l ++ [x]) eqn:E; [now destruct l|]. rewrite <- E.
  rewrite length_app. simpl. rewrite Nat.add_sub.
  rewrite nth_error_app2 by lia. now rewrite Nat.sub_diag.
Qed.

Lemma sort_permutation (l : list string) : Permutation (JS.sort l) l.
Proof. exact (CacheFacts.sort_by_permutation string (fun x => x) l). Qed.

(** The entry of the listing for one asset of the manifest. *)
Definition info_of (id : string) (asset : ParcaManifestAsset)
    (info : RemoteAssetInfo) : Prop :=
  let declared := JS.keys (asset_versions asset) in
  info_id info = id /\
  info_kind info = asset_kind asset /\
  info_description info = JS.or_default (asset_description asset) EmptyString /\
  Permutation (info_versions info) declared /\
  ascending (info_versions info) /\
  (declared = [] -> info_latestVersion info = "unknown") /\
  (forall g, greatest declared g ->
     info_latestVersion info = if (g =? "")%string then "unknown" else g).

Lemma listed_info id asset :
  let versions := JS.sort (JS.keys (asset_versions asset)) in
  info_of id asset
    (mkInfo id (asset_kind asset)
       (JS.or_default (asset_description asset) EmptyString)
       (JS.or_default (ManifestResolver.last_version versions) "unknown")
       versions None).
Proof.
  intros versions. unfold info_of. cbn [info_id info_kind info_description
    info_versions info_latestVersion].
  split; [reflexivity|]. split; [reflexivity|]. split; [reflexivity|].
  split; [apply sort_permutation|]. split; [apply sort_ascending|].
  split.
  - intros E. unfold versions. now rewrite E.
  - intros g [Hin Hmax]. rewrite last_version_rev.
    destruct (hd_error (rev versions)) as [m|] eqn:Em.
    + destruct (@ascending_last versions m (sort_ascending _) Em) as [Hm Hle].
      assert (m = g).
      { apply (@greatest_unique (JS.keys (asset_versions asset)) m g).
        - split.
          + apply (Permutation_in _ (sort_permutation _)). exact Hm.
          + intros x Hx. apply Hle.
            apply (Permutation_in _ (Permutation_sym (sort_permutation _))).
            exact Hx.
        - now split. }
      subst m. reflexivity.
    + exfalso.
      assert (Hg : In g versions)
        by (apply (Permutation_in _ (Permutation_sym (sort_permutation _)));
            exact Hin).
      apply in_rev in Hg. destruct (rev versions); [destruct Hg|discriminate].
Qed.

Lemma map_fst_entries {V} (o : JS.Obj V) : map fst (JS.entries o) = JS.keys o.
Proof.
  unfold JS.entries.
  assert (H : forall k, In k (JS.keys o) -> exists v, JS.get o k = Some v)
    by (intros k; apply in_keys_get).
  induction (JS.keys o) as [|k ks IH]; [reflexivity|].
  simpl. destruct (H k (or_introl eq_refl)) as [v ->]. simpl.
  f_equal. apply IH. intros k' Hk'. apply H. now right.
Qed.

Definition passes (kindFilter : option AssetKind) (asset : ParcaManifestAsset)
  : Prop :=
  forall k, kindFilter = Some k -> asset_kind asset = k.

Lemma kind_eqb_eq a b : kind_eqb a b = true <-> a = b.
Proof. destruct a, b; simpl; split; congruence. Qed.

Lemma filtered_out kindFilter asset :
  match kindFilter with
  | Some k => negb (kind_eqb (asset_kind asset) k)
  | None => false
  end = false <-> passes kindFilter asset.
Proof.
  unfold passes. destruct kindFilter as [k|].
  - rewrite negb_false_iff, kind_eqb_eq. split.
    + now intros -> k' [= <-].
    + intros H. now apply H.
  - split; [discriminate|reflexivity].
Qed.

(** X15: [listAssets] lists exactly the assets of the manifest that pass
    the kind filter; without a filter these are the keys of the manifest,
    one entry each, in the order of [Object.keys]. An entry carries the kind of the
    asset, its description (empty when absent) and its declared versions in
    the ascending order of [sort], which compares UTF-16 code units;
    [latestVersion] is the greatest declared version in that order, which
    need not be the SemVer maximum, and
    [unknown] when no version is declared or that greatest string is
    empty. *)
Theorem listAssets_lists_filtered_assets
    (manifest : ParcaManifest) (kindFilter : option AssetKind) :
  (forall info,
     In info (ManifestResolver.listAssets manifest kindFilter) ->
     info_resolvedCommit info = None /\
     exists asset,
       JS.get (manifest_assets manifest) (info_id info) = Some asset /\
       passes kindFilter asset /\ info_of (info_id info) asset info)
  /\
  (forall id asset,
     JS.get (manifest_assets manifest) id = Some asset ->
     passes kindFilter asset ->
     exists info,
       In info (ManifestResolver.listAssets manifest kindFilter) /\
       info_of id asset info)
  /\
  map info_id (ManifestResolver.listAssets manifest None)
  = JS.keys (manifest_assets manifest).
Proof.
  unfold ManifestResolver.listAssets. split; [|split].
  - intros info Hin. apply in_flat_map in Hin.
    destruct Hin as ([id asset] & He & Hin).
    apply ConfigFacts.in_entries in He. destruct He as [_ Hg].
    destruct (match kindFilter with Some _ => _ | None => _ end) eqn:Ef;
      [destruct Hin|].
    destruct Hin as [<-|[]]. split; [reflexivity|].
    exists asset. cbn [info_id]. split; [exact Hg|].
    split; [now apply filtered_out|apply listed_info].
  - intros id asset Hg Hp. eexists. split; [|apply (listed_info id asset)].
    apply in_flat_map. exists (id, asset). split.
    + apply ConfigFacts.in_entries. split; [|exact Hg].
      apply in_keys_get. now exists asset.
    + apply filtered_out in Hp. rewrite Hp. now left.
  - rewrite <- (map_fst_entries (manifest_assets manifest)).
    induction (JS.entries (manifest_assets manifest)) as [|[id asset] l IH];
      [reflexivity|].
    simpl. now rewrite IH.
Qed.

Section WithEnv.
Context {env : Env} {L : Libs}.

(** X16: [listRemote] resolves [main] once and reads the manifest at the
    commit it got, and touches no file of the workspace or the cache. When
    both calls are answered it returns the listing of that manifest, every
    entry stamped with the commit; when one is refused it throws. *)
Theorem listRemote_reads_registry_at_resolved_commit
    (url : string) (kindFilter : option AssetKind) (w : World) :
  let git := AssetResolver.createGitProvider (ConfigLoader.inferProvider url) url in
  exists r w',
    AssetResolver.listRemote url kindFilter w = (r, w') /\
    same_files w w' /\
    match repo_resolveRef (remote url) "main" with
    | Failed m =>
        r = Throw (ExternalError m) /\
        trace w' = trace w ++ [ResolveRef url "main"]
    | Found commit =>
        trace w' =
          trace w ++ [ResolveRef url "main";
                      FetchFile url ManifestResolver.MANIFEST_FILENAME commit] /\
        match manifest_at git commit with
        | Throw e => r = Throw e
        | Ok manifest =>
            exists infos,
              r = Ok infos /\
              map info_id infos
              = map info_id (ManifestResolver.listAssets manifest kindFilter) /\
              (forall info, In info infos ->
                 info_resolvedCommit info = Some commit /\
                 exists listed,
                   In listed (ManifestResolver.listAssets manifest kindFilter) /\
                   info_id info = info_id listed /\
                   info_kind info = info_kind listed /\
                   info_description info = info_description listed /\
                   info_latestVersion info = info_latestVersion listed /\
                   info_versions info = info_versions listed)
        end
    end.
Proof.
  intros git. subst git.
  unfold AssetResolver.listRemote, AssetResolver.createGitProvider.
  unfold bind at 1. rewrite resolveRef_run. cbn [GitProvider.repoUrl].
  destruct (repo_resolveRef (remote url) "main") as [commit|m].
  - unfold bind at 1. rewrite fetchManifest_run. cbn [GitProvider.repoUrl].
    destruct (manifest_at _ commit) as [manifest|e].
    + do 2 eexists. split; [reflexivity|]. split; [now repeat split|].
      split; [cbn [trace add_event]; now rewrite <- app_assoc|].
      eexists. split; [reflexivity|]. split.
      * rewrite map_map. reflexivity.
      * intros info Hin. apply in_map_iff in Hin.
        destruct Hin as (listed & <- & Hl). split; [reflexivity|].
        exists listed. now repeat split.
    + do 2 eexists. split; [reflexivity|]. split; [now repeat split|].
      split; [cbn [trace add_event]; now rewrite <- app_assoc|reflexivity].
  - do 2 eexists. split; [reflexivity|]. split; [now repeat split|].
    split; reflexivity.
Qed.

End WithEnv.

(** [latestVersion] follows the string order: with [9.0.0] and [10.0.0]
    declared the listing shows [9.0.0], while an install of [latest] takes
    [10.0.0]. *)
Example latestVersion_is_not_what_install_takes :
  let manifest :=
    mkManifest "1.0" None
      [("test-asset",
        mkAsset prompt None
          [("9.0.0", mkVersion None "prompts/test.md" None);
           ("10.0.0", mkVersion None "prompts/test.md" None)])] in
  map info_latestVersion (ManifestResolver.listAssets manifest None)
  = ["9.0.0"]
  /\ AssetResolver.pickVersion (L := Scenario.libs) "test-asset"
       ["9.0.0"; "10.0.0"] "latest" = Ok "10.0.0".
Proof. split; reflexivity. Qed.

End ListingFacts.
(* ================================================================== *)
(** * Grouping the declared assets by source                           *)
(* ================================================================== *)

Module GroupingFacts.

(** The distinct strings of a list, each at its first occurrence. *)
Fixpoint first_occurrences (l : list string) : list string :=
  match l with
  | [] => []
  | x :: r => x :: filter (fun y => negb (y =? x)%string) (first_occurrences r)
  end.

Definition from_source (alias : string) (a : ParcaAssetEntry) : bool :=
  (entry_source a =? alias)%string.

(** The groups, read off the list of assets: one per source alias, in the
    order the aliases first occur, each with the assets of that alias in
    the order they are declared. *)
Definition groups_of (assets : list ParcaAssetEntry)
  : list (string * list ParcaAssetEntry) :=
  map (fun alias => (alias, filter (from_source alias) assets))
    (first_occurrences (map entry_source assets)).

Lemma in_first_occurrences x l : In x (first_occurrences l) <-> In x l.
Proof.
  induction l as [|y l IH]; simpl; [tauto|].
  rewrite filter_In, IH, negb_true_iff, String.eqb_neq.
  destruct (string_dec y x); intuition congruence.
Qed.

Lemma first_occurrences_nodup l : NoDup (first_occurrences l).
Proof.
  induction l as [|y l IH]; simpl; constructor.
  - rewrite filter_In, negb_true_iff, String.eqb_neq. tauto.
  - now apply NoDup_filter.
Qed.

Lemma filter_id {A} (p : A -> bool) l :
  (forall x, In x l -> p x = true) -> filter p l = l.
Proof.
  induction l as [|x l IH]; intros H; simpl; [reflexivity|].
  rewrite (H x (or_introl eq_refl)). f_equal. apply IH.
  intros y Hy. apply H. now right.
Qed.

Lemma first_occurrences_snoc l x :
  first_occurrences (l ++ [x]) =
  if in_dec string_dec x l then first_occurrences l
  else first_occurrences l ++ [x].
Proof.
  induction l as [|y l IH]; simpl.
  - reflexivity.
  - rewrite IH. destruct (in_dec string_dec x l) as [Hin|Hnin].
    + destruct (string_dec y x); reflexivity.
    + rewrite filter_app. simpl.
      destruct (string_dec y x) as [->|Hne].
      * rewrite String.eqb_refl. simpl. now rewrite app_nil_r.
      * rewrite (proj2 (String.eqb_neq x y)) by congruence. reflexivity.
Qed.

Lemma filter_none {A} (p : A -> bool) l :
  (forall x, In x l -> p x = false) -> filter p l = [].
Proof.
  induction l as [|x l IH]; intros H; simpl; [reflexivity|].
  rewrite (H x (or_introl eq_refl)). apply IH.
  intros y Hy. apply H. now right.
Qed.

(** [pushGroup] on a list of groups with distinct aliases. *)
Lemma pushGroup_map (f : string -> list ParcaAssetEntry) a : forall aliases,
  NoDup aliases ->
  AssetResolver.pushGroup (map (fun alias => (alias, f alias)) aliases) a =
  if in_dec string_dec (entry_source a) aliases
  then map (fun alias =>
              (alias, if (alias =? entry_source a)%string
                      then f alias ++ [a] else f alias)) aliases
  else map (fun alias => (alias, f alias)) aliases ++ [(entry_source a, [a])].
Proof.
  induction aliases as [|x aliases IH]; intros Hnd; [reflexivity|].
  inversion Hnd as [|? ? Hx Hnd']; subst. cbn [map AssetResolver.pushGroup].
  destruct (x =? entry_source a)%string eqn:E.
  - apply String.eqb_eq in E. subst x.
    destruct (in_dec string_dec (entry_source a) (entry_source a :: aliases))
      as [_|Hn]; [|exfalso; apply Hn; apply in_eq].
    cbn [map]. f_equal.
    apply map_ext_in. intros y Hy.
    destruct (y =? entry_source a)%string eqn:Ey; [|reflexivity].
    apply String.eqb_eq in Ey. subst y. contradiction.
  - rewrite (IH Hnd'). apply String.eqb_neq in E.
    destruct (in_dec string_dec (entry_source a) aliases) as [Hin|Hnin];
      destruct (in_dec string_dec (entry_source a) (x :: aliases))
        as [Hin'|Hnin']; cbn [map].
    + reflexivity.
    + exfalso. apply Hnin'. now apply in_cons.
    + destruct Hin' as [->|Hin']; [exfalso; now apply E|contradiction].
    + reflexivity.
Qed.

Lemma filter_from_source_snoc alias assets a :
  filter (from_source alias) (assets ++ [a]) =
  if (alias =? entry_source a)%string
  then filter (from_source alias) assets ++ [a]
  else filter (from_source alias) assets.
Proof.
  rewrite filter_app. cbn [filter]. unfold from_source at 2.
  rewrite String.eqb_sym.
  destruct (alias =? entry_source a)%string; [reflexivity|apply app_nil_r].
Qed.

Lemma pushGroup_groups_of assets a :
  AssetResolver.pushGroup (groups_of assets) a = groups_of (assets ++ [a]).
Proof.
  unfold groups_of at 1.
  rewrite pushGroup_map by apply first_occurrences_nodup.
  unfold groups_of. rewrite map_app. cbn [map].
  rewrite first_occurrences_snoc.
  destruct (in_dec string_dec (entry_source a)
              (first_occurrences (map entry_source assets))) as [Hin|Hnin];
    destruct (in_dec string_dec (entry_source a) (map entry_source assets))
      as [Hin'|Hnin'].
  - apply map_ext. intros alias. now rewrite filter_from_source_snoc.
  - apply (proj1 (in_first_occurrences _ _)) in Hin. contradiction.
  - apply (proj2 (in_first_occurrences _ _)) in Hin'. contradiction.
  - rewrite map_app. cbn [map]. f_equal.
    + apply map_ext_in. intros alias Halias.
      rewrite filter_from_source_snoc.
      destruct (alias =? entry_source a)%string eqn:E; [|reflexivity].
      apply String.eqb_eq in E. subst alias. contradiction.
    + rewrite filter_from_source_snoc, String.eqb_refl.
      rewrite filter_none; [reflexivity|].
      intros x Hx. unfold from_source. apply String.eqb_neq. intros E.
      apply Hnin'. rewrite <- E. now apply in_map.
Qed.

Lemma fold_pushGroup rest : forall assets,
  fold_left AssetResolver.pushGroup rest (groups_of assets)
  = groups_of (assets ++ rest).
Proof.
  induction rest as [|a rest IH]; intros assets; simpl.
  - now rewrite app_nil_r.
  - rewrite pushGroup_groups_of, IH, <- app_assoc. reflexivity.
Qed.

Lemma filter_disjoint_union {A} (p q : A -> bool) l :
  (forall x, p x = true -> q x = true -> False) ->
  Permutation (filter p l ++ filter q l) (filter (fun x => p x || q x) l).
Proof.
  intros Hd. induction l as [|x l IH]; simpl; [reflexivity|].
  destruct (p x) eqn:Ep; destruct (q x) eqn:Eq; simpl.
  - destruct (Hd x Ep Eq).
  - now constructor.
  - rewrite <- Permutation_middle. now constructor.
  - exact IH.
Qed.

(** The groups of distinct aliases hold, between them, the assets declared
    for one of the aliases. *)
Lemma groups_cover (assets : list ParcaAssetEntry) : forall aliases,
  NoDup aliases ->
  Permutation
    (flat_map (fun alias => filter (from_source alias) assets) aliases)
    (filter (fun a => existsb (fun y => (entry_source a =? y)%string) aliases)
       assets).
Proof.
  induction aliases as [|x aliases IH]; intros Hnd.
  - simpl. rewrite filter_none; [reflexivity|reflexivity].
  - inversion Hnd as [|? ? Hx Hnd']; subst. cbn [flat_map existsb].
    rewrite (IH Hnd'). apply filter_disjoint_union.
    intros a Hp Hq. unfold from_source in Hp. apply String.eqb_eq in Hp.
    apply existsb_exists in Hq. destruct Hq as (y & Hy & E).
    apply String.eqb_eq in E. congruence.
Qed.

Lemma groupBySource_groups_of assets :
  AssetResolver.groupBySource assets = groups_of assets.
Proof. apply (fold_pushGroup assets []). Qed.

Lemma groups_of_member assets alias group :
  In (alias, group) (groups_of assets) ->
  group = filter (from_source alias) assets /\ group <> [].
Proof.
  intros Hin. unfold groups_of in Hin.
  apply in_map_iff in Hin. destruct Hin as (x & [= -> <-] & Hx).
  split; [reflexivity|].
  apply in_first_occurrences, in_map_iff in Hx.
  destruct Hx as (a & Ha & Hin). intros Hnil.
  assert (Hf : In a (filter (from_source alias) assets)).
  { apply filter_In. split; [exact Hin|].
    unfold from_source. now apply String.eqb_eq. }
  rewrite Hnil in Hf. destruct Hf.
Qed.

Lemma groups_of_permutation assets :
  Permutation (flat_map snd (groups_of assets)) assets.
Proof.
  unfold groups_of. rewrite flat_map_concat_map, map_map. cbn [snd].
  rewrite <- flat_map_concat_map.
  rewrite groups_cover by apply first_occurrences_nodup.
  rewrite filter_id; [reflexivity|].
  intros a Ha. apply existsb_exists. exists (entry_source a).
  split; [|apply String.eqb_refl].
  apply in_first_occurrences. now apply in_map.
Qed.

(** X17: the grouping of [resolveAll]. The [Map] it builds has one group
    per source alias, in the order the aliases first occur among the
    declared assets, and a group holds exactly the assets declared for its
    alias, in the order of their declaration: no asset is dropped,
    repeated or moved to another source. *)
Theorem groupBySource_is_stable_partition (assets : list ParcaAssetEntry) :
  AssetResolver.groupBySource assets = groups_of assets /\
  NoDup (map fst (AssetResolver.groupBySource assets)) /\
  (forall alias group,
     In (alias, group) (AssetResolver.groupBySource assets) ->
     group = filter (from_source alias) assets /\ group <> []) /\
  Permutation (flat_map snd (AssetResolver.groupBySource assets)) assets.
Proof.
  rewrite groupBySource_groups_of. split; [reflexivity|]. split; [|split].
  - unfold groups_of. rewrite map_map. cbn [fst]. rewrite map_id.
    apply first_occurrences_nodup.
  - apply groups_of_member.
  - apply groups_of_permutation.
Qed.

End GroupingFacts.
(* ================================================================== *)
(** * The outcome of a resolution run, asset by asset                  *)
(* ================================================================== *)

Module Outcomes.

Import Frame ObjFacts RunFacts ResolveAsset GroupingFacts.













Section WithEnv.
Context {env : Env} {L : Libs}.










(** ** One asset *)







(** ** The assets of one source, and all sources *)





End WithEnv.


End Outcomes.
(* ================================================================== *)
(** * What a successful resolution leaves behind                       *)
(* ================================================================== *)

Module ResolutionFacts.

Import Frame ObjFacts RunFacts ResolveAsset.

Section WithEnv.
Context {env : Env} {L : Libs}.

(** The content the slow path fetched is in the cache when it returns. *)
Lemma fetchAndCache_cached git entry kind versionMeta ref w sha p content w' :
  AssetResolver.fetchAndCache git entry kind versionMeta ref w
  = (Ok (sha, p, content), w') ->
  CacheManager.isCached w' (entry_source entry) (entry_id entry)
    (entry_version entry) kind (Some sha) = true /\
  p = CacheManager.path_string (cache_path entry kind) /\
  configFile w' = configFile w /\ lockfileFile w' = lockfileFile w /\
  symlinks w' = symlinks w /\ gitignore w' = gitignore w.
Proof.
  assert (Hfile : kind <> skill ->
    (content0 <- GitProvider.fetchFile git (version_path versionMeta) ref ;;
     cacheResult <- CacheManager.writeToCache (entry_source entry)
                      (entry_id entry) (entry_version entry) content0 ;;
     ret (snd cacheResult, fst cacheResult, content0)) w
    = (Ok (sha, p, content), w') ->
    CacheManager.isCached w' (entry_source entry) (entry_id entry)
      (entry_version entry) kind (Some sha) = true /\
    p = CacheManager.path_string (cache_path entry kind) /\
    configFile w' = configFile w /\ lockfileFile w' = lockfileFile w /\
    symlinks w' = symlinks w /\ gitignore w' = gitignore w).
  { intros Hkind H. apply bind_inv in H.
    destruct H as [(c & w1 & Hfetch & H)|(e & _ & [=])].
    pose proof (fetchFile_only_logs _ _ _ _ Hfetch)
      as [(Hc1 & Hl1 & _ & Hs1 & Hg1) _].
    destruct (CacheFacts.writeToCache_cache (entry_source entry)
                (entry_id entry) (entry_version entry) c w1)
      as (w2 & Hrun & Hread & _ & (Hc2 & Hl2 & Hs2 & Hg2 & _)).
    unfold bind in H. rewrite Hrun in H. injection H as <- <- <- <-.
    split; [now apply CacheFacts.file_cached|]. split.
    { unfold cache_path. now destruct kind. }
    repeat split; congruence. }
  unfold AssetResolver.fetchAndCache.
  destruct kind; [now apply Hfile| |now apply Hfile].
  intros H. apply bind_inv in H.
  destruct H as [(files & w1 & Hfetch & H)|(e & _ & [=])].
  pose proof (fetchDirectory_only_logs _ _ _ _ Hfetch)
    as [(Hc1 & Hl1 & _ & Hs1 & Hg1) _].
  destruct (find _ files) as [skillFile|] eqn:Ef; [|discriminate].
  destruct (CacheFacts.writeDirectoryToCache_cache
              (entry_source entry) (entry_id entry) (entry_version entry)
              files w1)
    as (w2 & Hrun & Hdir & _ & (Hc2 & Hl2 & Hs2 & Hg2 & _)).
  unfold bind in H. rewrite Hrun in H. injection H as <- <- <- <-.
  split.
  { apply (CacheFacts.skill_directory_cached _ _ _ files []); [exact Hdir|].
    apply find_some in Ef. destruct Ef as [Hin Hlow].
    exists skillFile. split; [exact Hin|now apply String.eqb_eq]. }
  split; [reflexivity|]. repeat split; congruence.
Qed.

Lemma integrityGate_ok locked entry sha allowUpdate w u w' :
  AssetResolver.integrityGate locked entry sha allowUpdate w = (Ok u, w') ->
  w' = w.
Proof.
  unfold AssetResolver.integrityGate. destruct locked as [l|].
  - destruct (_ && _); [discriminate|now intros [= _ <-]].
  - now intros [= _ <-].
Qed.

(** The lockfile entry the slow path writes. *)
Definition locked_entry (entry : ParcaAssetEntry) (manifest : ParcaManifest)
    (commit sha : string) : ParcaLockedAsset :=
  mkLocked (entry_id entry) (entry_version entry) (entry_source entry) commit
    sha (CacheManager.computeHashFromString (JSON_stringify manifest)) now.

(** A successful resolution, taken apart: the asset and the version are
    declared, the ref resolves, and the run went down one of the two
    paths. *)
Lemma resolveAsset_ok_inv entry manifest git manifestRef allowUpdate w r w' :
  AssetResolver.resolveAsset entry manifest git manifestRef allowUpdate w
  = (Ok r, w') ->
  exists assetMeta versionMeta commit,
    JS.get (manifest_assets manifest) (entry_id entry) = Some assetMeta /\
    JS.get (asset_versions assetMeta) (entry_version entry) = Some versionMeta /\
    repo_resolveRef (remote (GitProvider.repoUrl git))
      (AssetResolver.effectiveRef versionMeta manifestRef) = Found commit /\
    let kind := asset_kind assetMeta in
    let ref := AssetResolver.effectiveRef versionMeta manifestRef in
    let w0 := add_event (ResolveRef (GitProvider.repoUrl git) ref) w in
    let cachedPath := CacheManager.path_string (cache_path entry kind) in
    (AssetResolver.fastPath w (locked_for w entry) entry commit kind
       allowUpdate = true /\
     allowUpdate = false /\
     AssetResolver.linkIfMapped entry cachedPath kind w0 = (Ok tt, w') /\
     r = mkResolved (entry_id entry) (entry_version entry)
           (entry_source entry) commit
           (match locked_for w entry with
            | Some l => locked_sha256 l
            | None => EmptyString
            end)
           (JS.or_default
              (CacheManager.readFromCache w (entry_source entry)
                 (entry_id entry) (entry_version entry) kind)
              EmptyString)
           cachedPath (entry_mapping entry))
    \/
    (AssetResolver.fastPath w (locked_for w entry) entry commit kind
       allowUpdate = false /\
     exists sha content w1,
       AssetResolver.fetchAndCache git entry kind versionMeta ref w0
       = (Ok (sha, cachedPath, content), w1) /\
       AssetResolver.linkIfMapped entry cachedPath kind
         (set_lockfileFile
            (Some (LockfileManager.upsertAsset (current_lockfile w)
                     (locked_entry entry manifest commit sha))) w1)
       = (Ok tt, w') /\
       r = mkResolved (entry_id entry) (entry_version entry)
             (entry_source entry) commit sha content cachedPath
             (entry_mapping entry)).
Proof.
  intros H.
  destruct (JS.get (manifest_assets manifest) (entry_id entry))
    as [assetMeta|] eqn:H1;
    [|unfold AssetResolver.resolveAsset in H; rewrite H1 in H; discriminate].
  destruct (JS.get (asset_versions assetMeta) (entry_version entry))
    as [versionMeta|] eqn:H2;
    [|unfold AssetResolver.resolveAsset in H; rewrite H1, H2 in H;
      discriminate].
  destruct (repo_resolveRef (remote (GitProvider.repoUrl git))
              (AssetResolver.effectiveRef versionMeta manifestRef))
    as [commit|m] eqn:H3.
  2:{ rewrite (resolveAsset_unfold _ _ _ _ _ _ _ H1 H2) in H.
      unfold bind in H. rewrite resolveRef_run, H3 in H. discriminate. }
  exists assetMeta, versionMeta, commit.
  split; [first [reflexivity|exact H1]|]. split; [exact H2|].
  split; [first [reflexivity|exact H3]|].
  intros kind ref w0 cachedPath.
  pose proof (resolveAsset_paths entry manifest git manifestRef allowUpdate w
                assetMeta versionMeta commit H1 H2 H3) as Hp.
  cbv zeta in Hp. rewrite Hp in H. clear Hp.
  fold kind ref w0 cachedPath in H.
  destruct (AssetResolver.fastPath w (locked_for w entry) entry commit kind
              allowUpdate) eqn:Hfast.
  - left. split; [reflexivity|].
    assert (Hu : allowUpdate = false).
    { unfold AssetResolver.fastPath in Hfast.
      destruct (locked_for w entry); [|discriminate].
      destruct allowUpdate; [|reflexivity].
      rewrite andb_false_r in Hfast. discriminate. }
    split; [exact Hu|].
    apply bind_inv in H. destruct H as [(u & w2 & Hlink & H)|(e & _ & [=])].
    destruct u. unfold bind, get_world, ret in H. injection H as <- <-.
    split; [exact Hlink|].
    f_equal. f_equal. apply readFromCache_ext.
    pose proof (linkIfMapped_only_links _ _ _ _ Hlink) as (_ & _ & Hk & _).
    now rewrite Hk.
  - right. split; [reflexivity|].
    apply bind_inv in H.
    destruct H as [([[sha p] content] & w1 & Hfetch & H)|(e & _ & [=])].
    destruct (fetchAndCache_cached _ _ _ _ _ _ _ _ _ _ Hfetch)
      as (_ & Hpath & _).
    fold cachedPath in Hpath. subst p.
    exists sha, content, w1. split; [exact Hfetch|].
    apply bind_inv in H. destruct H as [(u & w2 & Hgate & H)|(e & _ & [=])].
    apply integrityGate_ok in Hgate. subst w2.
    unfold bind at 1 in H. unfold LockfileManager.save, modify in H.
    apply bind_inv in H. destruct H as [(u' & w3 & Hlink & H)|(e & _ & [=])].
    destruct u'. injection H as <- <-. now split.
Qed.

(** ** The link after a resolution *)






Lemma existsPath_ext w w' p :
  cache w' = cache w ->
  CacheManager.existsPath w' p = CacheManager.existsPath w p.
Proof. intros H. unfold CacheManager.existsPath. now rewrite H. Qed.

End WithEnv.

Section Twice.
Context {env : Env} {L : Libs}.



End Twice.
End ResolutionFacts.
(* ================================================================== *)
(** * install: what it leaves behind                                   *)
(* ================================================================== *)

Module InstallFacts.

Import Frame ObjFacts RunFacts ResolveAsset Install ConfigFacts StringFacts
  MapperFacts ResolutionFacts.


Lemma set_configFile_same c w :
  configFile w = Some c -> set_configFile (Some c) w = w.
Proof. destruct w; simpl. now intros ->. Qed.

Section WithEnv.
Context {env : Env} {L : Libs}.



(** The configuration with [url] registered, as [ensureSource] leaves it. *)
Definition registered (c : ParcaConfig) (url : string) : ParcaConfig :=
  match find (matches_url url) (JS.entries (config_sources c)) with
  | Some _ => c
  | None =>
      with_source c (ConfigLoader.deriveAlias url)
        (ConfigLoader.inferProvider url) url
  end.

(** The configuration with an entry added, as [addAsset] leaves it. *)
Definition added (c : ParcaConfig) (entry : ParcaAssetEntry) : ParcaConfig :=
  mkConfig (config_schema c) (config_sources c)
    (filter (fun a => negb ((entry_id a =? entry_id entry)
                            && (entry_source a =? entry_source entry))%string)
       (config_assets c)
     ++ [entry]).

(** The entry [install] builds. *)
Definition installed_entry (c : ParcaConfig) (url assetId version : string)
    (assetMeta : ParcaManifestAsset) : ParcaAssetEntry :=
  mkEntry assetId (alias_for c url) version
    (Some (AssetResolver.getDefaultMapping (asset_kind assetMeta) assetId)).

(** [install] past the already-installed check. *)
Definition install_rest (url assetId : string) (manifest : ParcaManifest)
    (assetMeta : ParcaManifestAsset) (commit version : string)
  : M InstallResult :=
  let provider := ConfigLoader.inferProvider url in
  let git := AssetResolver.createGitProvider provider url in
  sourced <- ConfigLoader.ensureSource url provider ;;
  let '(updatedConfig, alias) := sourced in
  let defaultMapping :=
    AssetResolver.getDefaultMapping (asset_kind assetMeta) assetId in
  let entry := mkEntry assetId alias version (Some defaultMapping) in
  resolved <- AssetResolver.resolveAsset entry manifest git commit true ;;
  ConfigLoader.addAsset updatedConfig entry ;;;
  ret (Installed resolved).

Lemma install_cases url assetId versionRange forceReinstall w :
  AssetResolver.install url assetId versionRange forceReinstall w =
  match install_prefix url assetId versionRange w with
  | (Throw e, w2) => (Throw e, w2)
  | (Ok (manifest, assetMeta, commit, version), w2) =>
      match configFile w2 with
      | None => (Throw (ConfigNotFound ConfigLoader.configPath), w2)
      | Some c =>
          match ConfigLoader.check c with
          | Some e => (Throw e, w2)
          | None =>
              match find (fun a => (entry_id a =? assetId)%string)
                      (config_assets c), forceReinstall with
              | Some existing, false =>
                  (Ok (AlreadyInstalled existing version), w2)
              | _, _ =>
                  install_rest url assetId manifest assetMeta commit version w2
              end
          end
      end
  end.
Proof.
  rewrite install_run.
  destruct (install_prefix url assetId versionRange w)
    as [[[[[manifest assetMeta] commit] version]|e] w2]; [|reflexivity].
  unfold bind at 1. rewrite config_load_run.
  destruct (configFile w2) as [c|]; [|reflexivity].
  destruct (ConfigLoader.check c); [reflexivity|].
  destruct (find _ (config_assets c)) as [existing|];
    destruct forceReinstall; reflexivity.
Qed.

Lemma alias_for_registered c url :
  exists s, JS.get (config_sources (registered c url)) (alias_for c url) = Some s
            /\ source_url s = url.
Proof.
  unfold registered, alias_for. fold (matches_url url).
  destruct (find (matches_url url) (JS.entries (config_sources c)))
    as [[alias s]|] eqn:Hf.
  - apply find_some in Hf. destruct Hf as [Hin Hp].
    apply in_entries in Hin. destruct Hin as [_ Hg].
    exists s. split; [exact Hg|now apply String.eqb_eq].
  - eexists. split; [apply get_set_same|reflexivity].
Qed.


Lemma install_rest_run url assetId manifest assetMeta commit version w2 c :
  configFile w2 = Some c -> ConfigLoader.check c = None ->
  let entry := installed_entry c url assetId version assetMeta in
  let git :=
    AssetResolver.createGitProvider (ConfigLoader.inferProvider url) url in
  let w3 := set_configFile (Some (registered c url)) w2 in
  install_rest url assetId manifest assetMeta commit version w2 =
  match AssetResolver.resolveAsset entry manifest git commit true w3 with
  | (Throw e, w4) => (Throw e, w4)
  | (Ok r, w4) =>
      (Ok (Installed r),
       set_configFile (Some (added (registered c url) entry)) w4)
  end.
Proof.
  intros Hc Hk entry git w3. unfold install_rest.
  unfold bind at 1.
  rewrite (ensureSource_loaded url (ConfigLoader.inferProvider url) w2 c Hc Hk).
  unfold w3, entry, installed_entry, registered, alias_for.
  fold (matches_url url).
  destruct (find (matches_url url) (JS.entries (config_sources c)))
    as [[alias s]|].
  - rewrite (set_configFile_same c w2 Hc). unfold bind. fold git.
    destruct (AssetResolver.resolveAsset _ manifest git commit true w2)
      as [[r|e] w4]; reflexivity.
  - cbv zeta. unfold bind. fold git.
    destruct (AssetResolver.resolveAsset _ manifest git commit true _)
      as [[r|e] w4]; reflexivity.
Qed.


(** X21: without a configuration file [install] cannot succeed, for any
    URL, asset and version, forced or not: it throws and leaves every file
    as it was. When the manifest is served and a version is selected, the
    error is the not-found error of the configuration: [install] never
    creates the file. *)
Theorem install_without_configuration_fails
    (url assetId versionRange : string) (forceReinstall : bool) (w : World) :
  configFile w = None ->
  exists e w',
    AssetResolver.install url assetId versionRange forceReinstall w
    = (Throw e, w') /\
    same_files w w' /\
    (forall commit manifest assetMeta version,
       repo_resolveRef (remote url) "main" = Found commit ->
       manifest_at
         (AssetResolver.createGitProvider (ConfigLoader.inferProvider url) url)
         commit = Ok manifest ->
       JS.get (manifest_assets manifest) assetId = Some assetMeta ->
       AssetResolver.pickVersion assetId (JS.keys (asset_versions assetMeta))
         versionRange = Ok version ->
       e = ConfigNotFound ConfigLoader.configPath).
Proof.
  intros Hnone. rewrite install_cases.
  destruct (install_prefix url assetId versionRange w)
    as [[[[[manifest assetMeta] commit] version]|e0] w2] eqn:Hp.
  - pose proof (install_prefix_only_logs _ _ _ _ _ _ Hp) as [Hsame _].
    destruct Hsame as (Hc & Hrest). rewrite Hc, Hnone.
    do 2 eexists. split; [reflexivity|]. split; [split; assumption|].
    reflexivity.
  - pose proof (install_prefix_only_logs _ _ _ _ _ _ Hp) as [Hsame _].
    do 2 eexists. split; [reflexivity|]. split; [exact Hsame|].
    intros commit manifest assetMeta version H1 H2 H3 H4.
    unfold install_prefix in Hp. rewrite H1, H2, H3, H4 in Hp. discriminate.
Qed.


End WithEnv.
End InstallFacts.
(* ================================================================== *)
(** * Runs of the scenario                                             *)
(* ================================================================== *)

Module RunWitnesses.

Import Frame RunFacts ResolveAsset.





(** A workspace without configuration file. *)
Definition unconfigured : World := mkWorld None None [] [] None [].

(** The asset the baseline install returns. *)
Definition resolved_v1 : ResolvedAsset :=
  mkResolved "test-asset" "1.0.0" "test-source" "mock-sha-123"
    Scenario.hello_sha "# Hello Test"
    "/home/dev/.parca-cache/test-source/test-asset/1.0.0/test-asset.md"
    (Some ".github/prompts/test-asset.prompt.md").





Lemma install_into_unconfigured_workspace_fails :
  exists w',
    AssetResolver.install (env := Scenario.env_v1) (L := Scenario.libs)
      Scenario.url "test-asset" "latest" false unconfigured
    = (Throw (ConfigNotFound "/work/.parca-assets.yaml"), w') /\
    configFile w' = None /\ cache w' = [] /\ lockfileFile w' = None.
Proof.
  destruct (InstallFacts.install_without_configuration_fails
              (env := Scenario.env_v1) (L := Scenario.libs)
              Scenario.url "test-asset" "latest" false unconfigured eq_refl)
    as (e & w' & Hrun & (Hc & Hl & Hk & _) & He).
  rewrite (He "mock-sha-123" Scenario.manifest_v1
             (mkAsset prompt (Some "Test prompt")
                [("1.0.0", mkVersion None "prompts/test.md" None)])
             "1.0.0" eq_refl eq_refl eq_refl eq_refl) in Hrun.
  exists w'. split; [exact Hrun|]. split; [exact Hc|]. split; [exact Hk|exact Hl].
Defined.


End RunWitnesses.
(* ================================================================== *)
(** * Repository URLs and source aliases                               *)
(* ================================================================== *)

Module UrlFacts.

Section WithLibs.
Context {L : Libs}.

Lemma strip_suffix_none s suffix :
  JS.endsWith s suffix = false -> JS.strip_suffix s suffix = s.
Proof. unfold JS.strip_suffix. now intros ->. Qed.

(** X23: the alias of a source against the repository its URL names. For a
    GitHub URL whose path is an owner and a repository (a trailing [.git]
    apart) [parseGitHubRepo] returns the two and [deriveAlias] is the owner,
    so that all repositories of one owner share an alias. For an Azure
    DevOps URL of the documented format
    [https://dev.azure.com/{org}/{project}/_git/{repo}] [parseAzureRepo]
    returns the organisation, the project and the repository, while
    [deriveAlias] is [_git], the segment before the last: every Azure
    DevOps repository gets this one alias. *)
Theorem alias_against_parsed_repository (url pathname : string)
    (provider : Provider) :
  URL_pathname url = Some pathname ->
  (forall owner repo,
     GitProvider.segments (JS.strip_suffix pathname ".git") = [owner; repo] ->
     GitProvider.parseGitHubRepo (GitProvider.mk provider url)
     = Ok (owner, repo)
     /\ ConfigLoader.deriveAlias url = owner)
  /\
  (forall org project repo,
     GitProvider.segments pathname = [org; project; "_git"; repo] ->
     JS.endsWith pathname ".git" = false ->
     org <> "_git" -> project <> "_git" ->
     GitProvider.parseAzureRepo (GitProvider.mk provider url)
     = Ok (org, project, Some repo)
     /\ ConfigLoader.deriveAlias url = "_git").
Proof.
  intros Hp. split.
  - intros owner repo Hs. split.
    + unfold GitProvider.parseGitHubRepo. cbn [GitProvider.repoUrl].
      now rewrite Hp, Hs.
    + unfold ConfigLoader.deriveAlias. rewrite Hp.
      fold (GitProvider.segments (JS.strip_suffix pathname ".git")).
      now rewrite Hs.
  - intros org project repo Hs Hgit Ho Hpr. split.
    + unfold GitProvider.parseAzureRepo. cbn [GitProvider.repoUrl].
      rewrite Hp, Hs. cbn [JS.array_indexOf].
      rewrite (proj2 (String.eqb_neq _ _) Ho), (proj2 (String.eqb_neq _ _) Hpr).
      reflexivity.
    + unfold ConfigLoader.deriveAlias.
      rewrite Hp, (strip_suffix_none _ _ Hgit).
      fold (GitProvider.segments pathname). now rewrite Hs.
Qed.

End WithLibs.

Lemma azure_repositories_are_all_named_git :
  GitProvider.parseAzureRepo (L := Scenario.libs)
    (GitProvider.mk azure "https://dev.azure.com/org/proj/_git/repo")
  = Ok ("org", "proj", Some "repo")
  /\ ConfigLoader.deriveAlias (L := Scenario.libs)
       "https://dev.azure.com/org/proj/_git/repo" = "_git".
Proof.
  apply (proj2 (alias_against_parsed_repository (L := Scenario.libs)
                  "https://dev.azure.com/org/proj/_git/repo"
                  "/org/proj/_git/repo" azure eq_refl));
    try reflexivity; discriminate.
Defined.

End UrlFacts.
(* ================================================================== *)
(** * Printing numbers and versions, and reading them back             *)
(* ================================================================== *)

Module DecimalFacts.

Import StringFacts.

Definition digit_char (d : N) : ascii := ascii_of_N (48 + d).

Lemma digit_char_spec d :
  (d < 10)%N ->
  JS.is_digit (digit_char d) = true /\
  (N_of_ascii (digit_char d) - 48 = d)%N /\
  (d <> 0%N -> digit_char d <> "0"%char).
Proof.
  intros H.
  assert (Hd : (d = 0 \/ d = 1 \/ d = 2 \/ d = 3 \/ d = 4 \/ d = 5 \/ d = 6
                \/ d = 7 \/ d = 8 \/ d = 9)%N) by lia.
  repeat destruct Hd as [->|Hd]; try subst d;
    (split; [reflexivity | split; [reflexivity | intros Hz]]);
    first [now destruct Hz | discriminate].
Qed.

Lemma all_chars_append p a b :
  Semver.all_chars p (a ++ b) = Semver.all_chars p a && Semver.all_chars p b.
Proof.
  induction a as [|c a IH]; simpl; [reflexivity|].
  now rewrite IH, andb_assoc.
Qed.

Lemma all_chars_weaken (p q : ascii -> bool) s :
  (forall c, p c = true -> q c = true) ->
  Semver.all_chars p s = true -> Semver.all_chars q s = true.
Proof.
  intros H. induction s as [|c s IH]; simpl; [reflexivity|].
  rewrite !andb_true_iff. intros [Hc Hs]. split; [now apply H|now apply IH].
Qed.

(** The decimal numeral of [n]: digits, most significant first, without
    leading zero. *)
Record numeral (n : N) (s : string) : Prop := {
  numeral_digits : Semver.all_chars JS.is_digit s = true;
  numeral_value : forall a rest,
    JS.digits_value a (s ++ rest)
    = JS.digits_value (a * 10 ^ N.of_nat (String.length s) + n) rest;
  numeral_head : forall r, s = String "0" r -> n = 0%N /\ r = EmptyString;
  numeral_nonempty : s <> EmptyString
}.

Lemma numeral_digit d : (d < 10)%N -> numeral d (String (digit_char d) "").
Proof.
  intros H. destruct (digit_char_spec d H) as (Hd & Hv & Hz). split.
  - simpl. now rewrite Hd.
  - intros a rest. simpl. rewrite Hd, Hv. f_equal; lia.
  - intros r [= Hc <-]. split; [|reflexivity].
    destruct (N.eq_dec d 0) as [E|E]; [exact E|]. now destruct (Hz E).
  - discriminate.
Qed.

Lemma numeral_snoc n s d :
  numeral n s -> n <> 0%N -> (d < 10)%N ->
  numeral (n * 10 + d) (s ++ String (digit_char d) "").
Proof.
  intros [Hdig Hval Hhead Hne] Hn H.
  destruct (digit_char_spec d H) as (Hd & Hv & _). split.
  - rewrite all_chars_append, Hdig. simpl. now rewrite Hd.
  - intros a rest. rewrite CacheFacts.append_assoc, Hval. simpl.
    rewrite Hd, Hv. f_equal. rewrite length_append. simpl.
    rewrite Nat.add_1_r, Nat2N.inj_succ, N.pow_succ_r'. lia.
  - intros r Hs. destruct s as [|c s]; [now destruct Hne|].
    simpl in Hs. injection Hs as -> _.
    destruct (Hhead s eq_refl) as [Hz _]. contradiction.
  - destruct s; [now destruct Hne|discriminate].
Qed.

Lemma digits_onto_spec fuel : forall n acc,
  (n < 2 ^ N.of_nat fuel)%N -> (0 < fuel)%nat ->
  exists s, JS.digits_onto fuel n acc = (s ++ acc)%string /\ numeral n s /\
            (String.length s <= fuel)%nat.
Proof.
  induction fuel as [|fuel IH]; intros n acc Hn Hf; [lia|].
  cbn [JS.digits_onto].
  assert (Hmod : (n mod 10 < 10)%N) by (apply N.mod_lt; lia).
  destruct (n / 10 =? 0)%N eqn:E.
  - apply N.eqb_eq in E.
    assert (Hlt : (n < 10)%N).
    { assert (H10 : (10 <> 0)%N) by discriminate.
      pose proof (N.div_mod n 10 H10) as Hdm. rewrite E in Hdm.
      rewrite N.mul_0_r, N.add_0_l in Hdm. now rewrite Hdm. }
    rewrite (N.mod_small n 10 Hlt).
    exists (String (digit_char n) ""). split; [reflexivity|].
    split; [now apply numeral_digit|simpl; lia].
  - apply N.eqb_neq in E.
    assert (Hdiv : (n / 10 < 2 ^ N.of_nat fuel)%N).
    { rewrite Nat2N.inj_succ, N.pow_succ_r' in Hn.
      apply N.Div0.div_lt_upper_bound. lia. }
    assert (Hfuel : (0 < fuel)%nat).
    { destruct fuel; [|lia]. exfalso. apply E.
      change (2 ^ N.of_nat 0)%N with 1%N in Hdiv. now apply N.lt_1_r. }
    destruct (IH (n / 10)%N (String (digit_char (n mod 10)) acc) Hdiv Hfuel)
      as (s & Hs & Hnum & Hlen).
    exists (s ++ String (digit_char (n mod 10)) "")%string.
    split; [|split].
    + unfold digit_char in *. rewrite Hs.
      now rewrite CacheFacts.append_assoc.
    + assert (Hn' : n = (n / 10 * 10 + n mod 10)%N).
      { rewrite (N.div_mod n 10) at 1 by lia. lia. }
      rewrite Hn' at 1. now apply numeral_snoc.
    + rewrite length_append. simpl. lia.
Qed.

(** [String(n)] is the decimal numeral of [n]. *)
Lemma number_to_string_numeral n :
  numeral n (JS.number_to_string n) /\
  (String.length (JS.number_to_string n) <= S (N.to_nat (N.log2 n)))%nat.
Proof.
  unfold JS.number_to_string.
  destruct (digits_onto_spec (S (N.to_nat (N.log2 n))) n EmptyString)
    as (s & Hs & Hnum & Hlen).
  - rewrite Nat2N.inj_succ, N2Nat.id.
    destruct (N.eq_dec n 0) as [->|Hn]; [reflexivity|].
    apply N.log2_spec. lia.
  - lia.
  - rewrite Hs, append_nil_r. now split.
Qed.

(** Reading the numeral back. *)
Lemma canonical_numeral_number_to_string n :
  JS.canonical_numeral (JS.number_to_string n) = Some n.
Proof.
  destruct (number_to_string_numeral n) as [[Hdig Hval Hhead Hne] _].
  unfold JS.canonical_numeral.
  destruct (JS.number_to_string n) as [|c r] eqn:E; [now destruct Hne|].
  assert (Hv : JS.digits_value 0 (String c r) = Some n).
  { rewrite <- (append_nil_r (String c r)), Hval. simpl. f_equal; lia. }
  destruct (Ascii.eqb c "0") eqn:Ec; [|exact Hv].
  apply Ascii.eqb_eq in Ec. subst c.
  destruct (Hhead r eq_refl) as [_ ->]. exact Hv.
Qed.

End DecimalFacts.
(* ================================================================== *)
(** * Proposing the next version                                       *)
(* ================================================================== *)

Module ProposeFacts.

Import OrderFacts SortFacts SemverFacts ObjFacts VersionMatcher PublisherFacts
  PublishInvariant StringFacts DecimalFacts.

(** ** Reading a printed version back *)

(** The characters of a printed version without prerelease tag. *)
Definition main_char (c : ascii) : bool := JS.is_digit c || Ascii.eqb c ".".

Lemma main_char_plain c :
  main_char c = true ->
  JS.is_space c = false /\ Ascii.eqb c "v" = false /\
  Ascii.eqb c "+" = false /\ Ascii.eqb c "-" = false.
Proof.
  destruct c as [[] [] [] [] [] [] [] []]; vm_compute; intros H;
    first [discriminate H | repeat split].
Qed.

Lemma digit_is_main c : JS.is_digit c = true -> main_char c = true.
Proof. unfold main_char. now intros ->. Qed.

Lemma digit_is_no_dot c : JS.is_digit c = true -> negb (Ascii.eqb c ".") = true.
Proof.
  destruct c as [[] [] [] [] [] [] [] []]; vm_compute; intros H;
    first [discriminate H | reflexivity].
Qed.

Lemma rev_onto_involutive s : forall acc acc',
  JS.string_rev_onto (JS.string_rev_onto s acc) acc'
  = JS.string_rev_onto acc (s ++ acc').
Proof.
  induction s as [|c s IH]; intros acc acc'; simpl; [reflexivity|].
  now rewrite IH.
Qed.

Lemma string_rev_involutive s : JS.string_rev (JS.string_rev s) = s.
Proof.
  unfold JS.string_rev. rewrite rev_onto_involutive. simpl.
  apply append_nil_r.
Qed.

Lemma all_chars_rev_onto p s : forall acc,
  Semver.all_chars p (JS.string_rev_onto s acc)
  = Semver.all_chars p s && Semver.all_chars p acc.
Proof.
  induction s as [|c s IH]; intros acc; simpl; [reflexivity|].
  rewrite IH. simpl.
  now destruct (p c), (Semver.all_chars p s), (Semver.all_chars p acc).
Qed.

Lemma trim_start_plain s :
  Semver.all_chars (fun c => negb (JS.is_space c)) s = true ->
  JS.trim_start s = s.
Proof.
  destruct s as [|c s]; simpl; [reflexivity|].
  rewrite andb_true_iff, negb_true_iff. now intros [-> _].
Qed.

Lemma trim_plain s :
  Semver.all_chars (fun c => negb (JS.is_space c)) s = true -> JS.trim s = s.
Proof.
  intros H. unfold JS.trim. rewrite (trim_start_plain s H).
  rewrite trim_start_plain; [apply string_rev_involutive|].
  unfold JS.string_rev. rewrite all_chars_rev_onto, H. reflexivity.
Qed.

Lemma cut_none c s :
  Semver.all_chars (fun ch => negb (Ascii.eqb ch c)) s = true ->
  Semver.cut c s = (s, None).
Proof.
  induction s as [|d s IH]; simpl; [reflexivity|].
  rewrite andb_true_iff, negb_true_iff. intros [-> Hs].
  now rewrite (IH Hs).
Qed.

Lemma split_plain c a :
  Semver.all_chars (fun ch => negb (Ascii.eqb ch c)) a = true ->
  JS.split c a = [a].
Proof.
  induction a as [|d a IH]; simpl; [reflexivity|].
  rewrite andb_true_iff, negb_true_iff. intros [-> Ha].
  now rewrite (IH Ha).
Qed.

Lemma split_at_separator c a rest :
  Semver.all_chars (fun ch => negb (Ascii.eqb ch c)) a = true ->
  JS.split c (a ++ String c rest) = a :: JS.split c rest.
Proof.
  induction a as [|d a IH]; simpl.
  - intros _. now rewrite Ascii.eqb_refl.
  - rewrite andb_true_iff, negb_true_iff. intros [-> Ha].
    now rewrite (IH Ha).
Qed.

Lemma log2_safe n :
  (n <= Semver.MAX_SAFE_INTEGER)%N -> (N.to_nat (N.log2 n) <= 52)%nat.
Proof.
  intros H. apply N.log2_le_mono in H.
  change (N.log2 Semver.MAX_SAFE_INTEGER) with 52%N in H. lia.
Qed.

Lemma main_number_printed n :
  (n <= Semver.MAX_SAFE_INTEGER)%N ->
  Semver.main_number (JS.number_to_string n) = Some n.
Proof.
  intros H. unfold Semver.main_number.
  rewrite canonical_numeral_number_to_string.
  now rewrite (proj2 (N.leb_le _ _) H).
Qed.

(** A printed version without prerelease tag is read back as it was. *)
Lemma parse_format_main v :
  Semver.prerelease v = [] ->
  (Semver.major v <= Semver.MAX_SAFE_INTEGER)%N ->
  (Semver.minor v <= Semver.MAX_SAFE_INTEGER)%N ->
  (Semver.patch v <= Semver.MAX_SAFE_INTEGER)%N ->
  Semver.parse (Semver.format_main v) = Some v.
Proof.
  intros Hpre Hx Hy Hz.
  destruct (number_to_string_numeral (Semver.major v)) as [[Ha _ _ Hna] Hla].
  destruct (number_to_string_numeral (Semver.minor v)) as [[Hb _ _ _] Hlb].
  destruct (number_to_string_numeral (Semver.patch v)) as [[Hc _ _ _] Hlc].
  pose proof (log2_safe _ Hx). pose proof (log2_safe _ Hy).
  pose proof (log2_safe _ Hz).
  set (A := JS.number_to_string (Semver.major v)) in *.
  set (B := JS.number_to_string (Semver.minor v)) in *.
  set (C := JS.number_to_string (Semver.patch v)) in *.
  assert (Hs : Semver.format_main v = (A ++ String "." (B ++ String "." C))%string)
    by reflexivity.
  assert (Hmain : Semver.all_chars main_char (Semver.format_main v) = true).
  { rewrite Hs, all_chars_append. simpl. rewrite all_chars_append. simpl.
    rewrite (all_chars_weaken _ _ A digit_is_main Ha),
      (all_chars_weaken _ _ B digit_is_main Hb),
      (all_chars_weaken _ _ C digit_is_main Hc). reflexivity. }
  assert (Hno : forall q : ascii -> bool,
            (forall c, main_char c = true -> q c = true) ->
            Semver.all_chars q (Semver.format_main v) = true)
    by (intros q Hq; now apply (all_chars_weaken main_char)).
  unfold Semver.parse.
  assert (Hlen : (Semver.MAX_LENGTH <? String.length (Semver.format_main v))%nat
                 = false).
  { apply Nat.ltb_ge. rewrite Hs, length_append. simpl.
    rewrite length_append. simpl. unfold Semver.MAX_LENGTH. lia. }
  rewrite Hlen.
  rewrite trim_plain
    by (apply Hno; intros c Hc0; destruct (main_char_plain c Hc0) as [-> _];
        reflexivity).
  assert (Hhead : match Semver.format_main v with
                  | String c r => if Ascii.eqb c "v" then r
                                  else Semver.format_main v
                  | EmptyString => Semver.format_main v
                  end = Semver.format_main v).
  { destruct (Semver.format_main v) as [|c r] eqn:E; [reflexivity|].
    simpl in Hmain. apply andb_true_iff in Hmain. destruct Hmain as [Hc0 _].
    destruct (main_char_plain c Hc0) as (_ & -> & _). reflexivity. }
  rewrite Hhead.
  rewrite (cut_none "+")
    by (apply Hno; intros c Hc0;
        destruct (main_char_plain c Hc0) as (_ & _ & -> & _); reflexivity).
  rewrite (cut_none "-")
    by (apply Hno; intros c Hc0;
        destruct (main_char_plain c Hc0) as (_ & _ & _ & ->); reflexivity).
  rewrite Hs.
  rewrite (split_at_separator "." A)
    by (apply (all_chars_weaken JS.is_digit); [apply digit_is_no_dot|exact Ha]).
  rewrite (split_at_separator "." B)
    by (apply (all_chars_weaken JS.is_digit); [apply digit_is_no_dot|exact Hb]).
  rewrite (split_plain "." C)
    by (apply (all_chars_weaken JS.is_digit); [apply digit_is_no_dot|exact Hc]).
  unfold A, B, C.
  rewrite !main_number_printed by assumption.
  destruct v as [x y z pre]. simpl in Hpre. now subst pre.
Qed.

Lemma format_main_nonempty v : Semver.format_main v <> EmptyString.
Proof.
  unfold Semver.format_main.
  destruct (number_to_string_numeral (Semver.major v)) as [[_ _ _ Hne] _].
  destruct (JS.number_to_string (Semver.major v)); [now destruct Hne|].
  discriminate.
Qed.

(** ** Increments *)

Lemma inc_version_stable v level :
  Semver.prerelease (Semver.inc_version v level) = [].
Proof.
  unfold Semver.inc_version.
  destruct level; repeat match goal with |- context [if ?b then _ else _] =>
    destruct b end; reflexivity.
Qed.

Lemma inc_version_greater v level :
  Semver.prerelease v = [] ->
  Semver.compare v (Semver.inc_version v level) = Lt.
Proof.
  intros Hpre. unfold Semver.inc_version. rewrite Hpre.
  unfold Semver.compare, Semver.compareMain.
  destruct level; cbn [negb orb].
  - rewrite !N.compare_refl. cbn [Semver.lex Semver.patch].
    assert (H : (Semver.patch v ?= Semver.patch v + 1)%N = Lt)
      by (apply N.compare_lt_iff; lia).
    now rewrite H.
  - rewrite orb_true_r. cbn [Semver.major Semver.minor].
    rewrite N.compare_refl. cbn [Semver.lex].
    assert (H : (Semver.minor v ?= Semver.minor v + 1)%N = Lt)
      by (apply N.compare_lt_iff; lia).
    now rewrite H.
  - rewrite !orb_true_r. cbn [Semver.major].
    assert (H : (Semver.major v ?= Semver.major v + 1)%N = Lt)
      by (apply N.compare_lt_iff; lia).
    now rewrite H.
Qed.

Lemma inc_version_bounded v level :
  (Semver.major v < Semver.MAX_SAFE_INTEGER)%N ->
  (Semver.minor v < Semver.MAX_SAFE_INTEGER)%N ->
  (Semver.patch v < Semver.MAX_SAFE_INTEGER)%N ->
  let v' := Semver.inc_version v level in
  (Semver.major v' <= Semver.MAX_SAFE_INTEGER)%N /\
  (Semver.minor v' <= Semver.MAX_SAFE_INTEGER)%N /\
  (Semver.patch v' <= Semver.MAX_SAFE_INTEGER)%N.
Proof.
  intros Hx Hy Hz. unfold Semver.inc_version, Semver.MAX_SAFE_INTEGER in *.
  destruct level; repeat match goal with |- context [if ?b then _ else _] =>
    destruct b end; cbn [Semver.major Semver.minor Semver.patch]; lia.
Qed.

Lemma le_lt_trans a b c :
  le a b -> Semver.compare b c = Lt -> Semver.compare a c = Lt.
Proof.
  unfold le. intros Hab Hbc.
  destruct (Semver.compare a b) eqn:E; [| |now destruct Hab].
  - apply (ord_eq compare_order) in E. now subst.
  - exact (ord_lt_trans compare_order _ _ _ E Hbc).
Qed.

Section WithLibs.
Context {L : Libs}.

(** The numbers of the declared versions leave room for an increment. *)
Definition below_limit (asset : ParcaManifestAsset) : Prop :=
  forall k sv,
    In k (Publisher.existingVersions asset) -> Semver.parse k = Some sv ->
    (Semver.major sv < Semver.MAX_SAFE_INTEGER)%N /\
    (Semver.minor sv < Semver.MAX_SAFE_INTEGER)%N /\
    (Semver.patch sv < Semver.MAX_SAFE_INTEGER)%N.

Lemma stable_first : stable "1.0.0".
Proof. eexists. split; reflexivity. Qed.

Lemma stable_satisfies k sk :
  Semver.parse k = Some sk -> Semver.prerelease sk = [] ->
  Semver.testRange rangeTest "*" sk = true.
Proof. intros _ H. unfold Semver.testRange. simpl. now rewrite H. Qed.

(** What a proposal is worth: a stable version above every stable version
    the asset declares. *)
Definition fresh_proposal (asset : ParcaManifestAsset) (p : string) : Prop :=
  stable p /\
  forall k, In k (JS.keys (asset_versions asset)) -> stable k -> vlt k p.

Lemma fresh_proposal_not_declared asset p :
  fresh_proposal asset p -> JS.get (asset_versions asset) p = None.
Proof.
  intros [Hs Hall]. destruct (JS.get (asset_versions asset) p) eqn:E;
    [|reflexivity].
  assert (Hin : In p (JS.keys (asset_versions asset)))
    by (apply (proj2 (in_keys_get _ _)); eexists; exact E).
  destruct (Hall p Hin Hs) as (sa & sb & Ha & Hb & Hlt).
  rewrite Ha in Hb. injection Hb as <-.
  now rewrite (order_refl compare_order) in Hlt.
Qed.

Lemma proposal_for_declared asset level :
  below_limit asset ->
  Publisher.existingVersions asset <> [] ->
  exists latest lv,
    Publisher.previousVersion (Publisher.existingVersions asset) = Some latest /\
    Semver.parse latest = Some lv /\
    fresh_proposal asset (Semver.format_main (Semver.inc_version lv level)).
Proof.
  intros Hlim Hne.
  destruct (previousVersion_spec Hne)
    as (latest & Hprev & Hin & Hsel).
  assert (Hvalid : Semver.valid latest = true)
    by (apply existing_in in Hin; tauto).
  unfold Semver.valid in Hvalid.
  destruct (Semver.parse latest) as [lv|] eqn:Hlv; [|discriminate].
  exists latest, lv. split; [exact Hprev|]. split; [exact Hlv|].
  destruct (Hlim latest lv Hin Hlv) as (Hx & Hy & Hz).
  destruct (inc_version_bounded lv level Hx Hy Hz) as (Bx & By & Bz).
  pose proof (parse_format_main _ (inc_version_stable lv level) Bx By Bz)
    as Hparse.
  split.
  { eexists. split; [exact Hparse|apply inc_version_stable]. }
  intros k Hk [sk [Hsk Hpre]].
  assert (Hkin : In k (Publisher.existingVersions asset)).
  { apply existing_in. split; [now apply in_keys_get|].
    unfold Semver.valid. now rewrite Hsk. }
  destruct Hsel as [(_ & sv & Hsv & Hsat & Hmax)|[Hnone _]].
  - rewrite Hlv in Hsv. injection Hsv as <-.
    assert (Hstable : Semver.prerelease lv = []).
    { unfold Semver.testRange in Hsat. simpl in Hsat.
      now destruct (Semver.prerelease lv). }
    exists sk, (Semver.inc_version lv level).
    split; [exact Hsk|]. split; [exact Hparse|].
    apply (le_lt_trans sk lv).
    + apply (Hmax k sk Hkin Hsk). now apply (stable_satisfies k sk).
    + now apply inc_version_greater.
  - destruct (Hnone k Hkin). now exists sk.
Qed.

(** A version is not the name of a member every object inherits. *)
Lemma stable_not_inherited p : stable p -> JS.inherited p = false.
Proof.
  intros (sv & Hp & _). destruct (JS.inherited p) eqn:E; [|reflexivity].
  unfold JS.inherited in E. apply existsb_exists in E.
  destruct E as (k & Hin & Hk). apply String.eqb_eq in Hk. subst k.
  unfold JS.prototype_members in Hin.
  repeat (destruct Hin as [<-|Hin]; [vm_compute in Hp; discriminate Hp|]).
  destruct Hin.
Qed.

(** X24: the version [proposeNextVersion] proposes is new. Under an id
    that is not declared and names a member every object inherits (such as
    [constructor]) there are no versions to list, and the call throws.
    Otherwise, provided the numbers of the declared versions are below the
    largest safe integer, the proposal (for a patch, minor or major release,
    for a known or an unknown asset) is a stable SemVer version above every
    stable version the asset declares; it is not declared yet, so that
    [publishVersion] accepts it and never answers with the duplicate error.
    Without a valid declared version, and for an unknown asset, the
    proposal is [1.0.0]. *)
Theorem proposeNextVersion_is_new
    (manifest : ParcaManifest) (assetId : string)
    (level : Semver.ReleaseType) (kind : AssetKind) :
  let asset := asset_or_new manifest assetId kind in
  below_limit asset ->
  (JS.member (manifest_assets manifest) assetId = JS.Inherited ->
   Publisher.proposeNextVersion manifest assetId level
   = Throw (ExternalError "Cannot convert undefined or null to object"))
  /\
  (JS.member (manifest_assets manifest) assetId <> JS.Inherited ->
   exists proposal,
     Publisher.proposeNextVersion manifest assetId level = Ok proposal /\
     stable proposal /\
     (forall k, In k (JS.keys (asset_versions asset)) -> stable k ->
                vlt k proposal) /\
     JS.get (asset_versions asset) proposal = None /\
     (Publisher.existingVersions asset = [] -> proposal = "1.0.0") /\
     (forall head filePath,
        exists manifest',
          Publisher.publishVersion head manifest assetId proposal filePath kind
          = Ok manifest')).
Proof.
  intros asset Hlim. split.
  { unfold Publisher.proposeNextVersion.
    destruct (JS.member (manifest_assets manifest) assetId);
      [discriminate|reflexivity|discriminate]. }
  intros Hm.
  assert (Hgoal : forall proposal,
    Publisher.proposeNextVersion manifest assetId level = Ok proposal ->
    fresh_proposal asset proposal ->
    (Publisher.existingVersions asset = [] -> proposal = "1.0.0") ->
    exists proposal0,
      Publisher.proposeNextVersion manifest assetId level = Ok proposal0 /\
      stable proposal0 /\
      (forall k, In k (JS.keys (asset_versions asset)) -> stable k ->
                 vlt k proposal0) /\
      JS.get (asset_versions asset) proposal0 = None /\
      (Publisher.existingVersions asset = [] -> proposal0 = "1.0.0") /\
      (forall head filePath,
         exists manifest',
           Publisher.publishVersion head manifest assetId proposal0 filePath
             kind
           = Ok manifest')).
  { intros proposal Hrun Hfresh Hfirst. exists proposal.
    split; [exact Hrun|].
    pose proof (fresh_proposal_not_declared asset proposal Hfresh) as Hnew.
    destruct Hfresh as [Hs Hall].
    split; [exact Hs|]. split; [exact Hall|]. split; [exact Hnew|].
    split; [exact Hfirst|].
    intros head filePath. rewrite publishVersion_run.
    destruct (JS.member (manifest_assets manifest) assetId);
      [|now destruct Hm|];
      cbv zeta; fold asset; unfold JS.member;
      rewrite Hnew, (stable_not_inherited _ Hs); now eexists. }
  unfold JS.member in Hm.
  destruct (JS.get (manifest_assets manifest) assetId) as [a|] eqn:E.
  - assert (Ha : asset = a) by (unfold asset, asset_or_new; now rewrite E).
    rewrite Ha in *.
    destruct (Publisher.existingVersions a) as [|k0 rest] eqn:Hex.
    + apply (Hgoal "1.0.0").
      * unfold Publisher.proposeNextVersion, JS.member. now rewrite E, Hex.
      * split; [apply stable_first|].
        intros k Hk [sk [Hsk _]]. exfalso.
        assert (Hin : In k (Publisher.existingVersions a)).
        { apply existing_in. split; [now apply in_keys_get|].
          unfold Semver.valid. now rewrite Hsk. }
        rewrite Hex in Hin. destruct Hin.
      * reflexivity.
    + destruct (proposal_for_declared a level Hlim) as
        (latest & lv & Hprev & Hlv & Hf); [rewrite Hex; discriminate|].
      apply (Hgoal (Semver.format_main (Semver.inc_version lv level))).
      * unfold Publisher.proposeNextVersion, JS.member. rewrite E, Hex.
        cbn [List.length Nat.eqb]. rewrite Hex in Hprev. rewrite Hprev.
        unfold Semver.inc. rewrite Hlv. unfold JS.or_default.
        now rewrite (proj2 (String.eqb_neq _ _) (format_main_nonempty _)).
      * exact Hf.
      * discriminate.
  - destruct (JS.inherited assetId) eqn:Ei; [now destruct Hm|].
    apply (Hgoal "1.0.0").
    + unfold Publisher.proposeNextVersion, JS.member. now rewrite E, Ei.
    + split; [apply stable_first|].
      unfold asset, asset_or_new. rewrite E. intros k [].
    + reflexivity.
Qed.

End WithLibs.

Lemma next_minor_of_the_baseline_asset_is_new :
  Publisher.proposeNextVersion (L := Scenario.libs) Scenario.manifest_v1
    "test-asset" Semver.minor_release = Ok "1.1.0"
  /\ exists manifest',
       Publisher.publishVersion (L := Scenario.libs) (Some "abc123")
         Scenario.manifest_v1 "test-asset" "1.1.0" "prompts/test.md" prompt
       = Ok manifest'.
Proof.
  split; [reflexivity|].
  destruct (proposeNextVersion_is_new (L := Scenario.libs)
              Scenario.manifest_v1 "test-asset" Semver.minor_release prompt)
    as [_ Hnew].
  - intros k sv Hin Hp. vm_compute in Hin. destruct Hin as [<-|[]].
    vm_compute in Hp. injection Hp as <-. vm_compute. now repeat split.
  - destruct Hnew as (proposal & Hrun & _ & _ & _ & _ & Hpublish);
      [vm_compute; discriminate|].
    vm_compute in Hrun. injection Hrun as <-.
    exact (Hpublish (Some "abc123") "prompts/test.md").
Defined.

End ProposeFacts.
(* ================================================================== *)
(** * The manifest file of the maintainer                              *)
(* ================================================================== *)

Module PublishFileFacts.

Import ObjFacts PublisherFacts.

Section WithLibs.
Context {L : Libs}.

(** X25: a published version is saved and final. When [publishVersion]
    succeeds, the manifest file holds the manifest as the call left it, so
    that [loadManifest] returns it; the manifest declares the new version
    with the given path and without ref; and publishing the same version of
    the same asset again, with whatever path, kind or head commit, fails
    with the duplicate error and changes nothing. When [publishVersion]
    throws, the file is as it was. Under a declared asset the error is the
    duplicate error and the manifest is unchanged. Under an id that is not
    declared the error is the duplicate error as well, for a version named
    like a member every object inherits, and the manifest the caller holds
    then has the new asset, without versions; unless the id itself is such
    a name: then reading its versions fails and the manifest is
    unchanged. *)
Theorem published_version_is_saved_and_final
    (head : option string) (assetId version filePath manifestPath : string)
    (kind : AssetKind) (s : Publisher.State) :
  match Publisher.publish head assetId version filePath kind s with
  | (Ok _, s') =>
      Publisher.isSourceRepo s' = true /\
      Publisher.loadManifest manifestPath s' = Ok (Publisher.manifestObject s') /\
      (exists asset,
         JS.get (manifest_assets (Publisher.manifestObject s')) assetId
         = Some asset /\
         JS.get (asset_versions asset) version
         = Some (mkVersion None filePath None)) /\
      (forall head' filePath' kind',
         Publisher.publish head' assetId version filePath' kind' s'
         = (Throw (DuplicateVersion version assetId), s'))
  | (Throw e, s') =>
      Publisher.manifestFile s' = Publisher.manifestFile s /\
      match JS.member (manifest_assets (Publisher.manifestObject s)) assetId with
      | JS.Own _ =>
          e = DuplicateVersion version assetId /\
          Publisher.manifestObject s' = Publisher.manifestObject s
      | JS.Inherited =>
          e = Publisher.undefinedProperty version /\
          Publisher.manifestObject s' = Publisher.manifestObject s
      | JS.Absent =>
          e = DuplicateVersion version assetId /\
          JS.inherited version = true /\
          Publisher.manifestObject s'
          = Publisher.set_assets (Publisher.manifestObject s)
              (JS.set (manifest_assets (Publisher.manifestObject s)) assetId
                 (mkAsset kind None []))
      end
  end.
Proof.
  unfold Publisher.publish.
  destruct (Publisher.publishVersion head (Publisher.manifestObject s) assetId
              version filePath kind) as [m|e] eqn:Hrun.
  - apply publishVersion_ok in Hrun. cbv zeta in Hrun.
    destruct Hrun as (_ & _ & _ & ->).
    set (asset' := Publisher.set_versions _ _).
    assert (Hasset : JS.get (manifest_assets
                               (Publisher.set_assets (Publisher.manifestObject s)
                                  (JS.set (manifest_assets
                                             (Publisher.manifestObject s))
                                     assetId asset'))) assetId = Some asset')
      by apply get_set_same.
    assert (Hversion : JS.get (asset_versions asset') version
                       = Some (mkVersion None filePath None))
      by apply get_set_same.
    split; [reflexivity|]. split; [reflexivity|].
    split; [exists asset'; now split|].
    intros head' filePath' kind'. cbn [Publisher.manifestObject].
    rewrite publishVersion_run. unfold Publisher.ensureAsset, JS.member.
    rewrite Hasset. cbv zeta. unfold asset_or_new. rewrite Hasset, Hversion.
    reflexivity.
  - split; [reflexivity|]. cbn [Publisher.manifestObject].
    rewrite publishVersion_run in Hrun. unfold Publisher.ensureAsset.
    destruct (JS.member (manifest_assets (Publisher.manifestObject s)) assetId)
      as [a| |] eqn:Em.
    + split; [|reflexivity]. cbv zeta in Hrun.
      destruct (JS.member _ version); [|now injection Hrun|discriminate];
        now injection Hrun.
    + split; [|reflexivity]. now injection Hrun.
    + cbv zeta in Hrun. unfold asset_or_new in Hrun. unfold JS.member in Em.
      destruct (JS.get (manifest_assets (Publisher.manifestObject s)) assetId);
        [discriminate|].
      cbn [asset_versions] in Hrun. unfold JS.member in Hrun.
      cbn [JS.get] in Hrun.
      destruct (JS.inherited version); [|discriminate].
      injection Hrun as <-. now repeat split.
Qed.

End WithLibs.
End PublishFileFacts.
(* ================================================================== *)
(** * install: the configuration it writes, read again                 *)
(* ================================================================== *)

Module InstalledFacts.

Import Frame ObjFacts RunFacts ResolveAsset Install ConfigFacts
  ResolutionFacts InstallFacts.

Section WithEnv.
Context {env : Env} {L : Libs}.

(** Every complaint of [validate] is a [ConfigInvalid]. *)
Lemma check_assets_invalid c assets e :
  ConfigLoader.check_assets c assets = Some e ->
  exists msg, e = ConfigInvalid msg.
Proof.
  induction assets as [|a assets IH]; simpl; [discriminate|].
  destruct ((entry_id a =? "") || (entry_source a =? "")
            || (entry_version a =? ""))%string.
  - intros [= <-]. now eexists.
  - destruct (JS.get (config_sources c) (entry_source a)); [exact IH|].
    intros [= <-]. now eexists.
Qed.

Lemma check_invalid c e :
  ConfigLoader.check c = Some e -> exists msg, e = ConfigInvalid msg.
Proof.
  unfold ConfigLoader.check. destruct (config_schema c =? "")%string.
  - intros [= <-]. now eexists.
  - apply check_assets_invalid.
Qed.

Lemma registered_well_formed c url :
  well_formed c -> well_formed (registered c url).
Proof.
  intros H. unfold registered.
  destruct (find _ _); [exact H|now apply with_source_well_formed].
Qed.

(** Adding an entry to a valid configuration gives a valid configuration
    exactly when the entry is one [validate] accepts. *)
Lemma added_well_formed c entry :
  well_formed c ->
  (exists s, JS.get (config_sources c) (entry_source entry) = Some s) ->
  well_formed (added c entry) <->
  entry_id entry <> EmptyString /\ entry_source entry <> EmptyString /\
  entry_version entry <> EmptyString.
Proof.
  intros [Hs Ha] Hsrc. unfold well_formed, added.
  cbn [config_schema config_assets config_sources]. split.
  - intros [_ H].
    destruct (H entry) as (H1 & H2 & H3 & _);
      [apply in_or_app; right; apply in_eq|now repeat split].
  - intros (H1 & H2 & H3). split; [exact Hs|]. intros a Hin.
    apply in_app_or in Hin. destruct Hin as [Hin|[<-|[]]].
    + apply filter_In in Hin. now apply Ha.
    + now repeat split.
Qed.

(** The version [install] selects is never the empty string. *)
Lemma pickVersion_not_empty assetId versions versionRange version :
  AssetResolver.pickVersion assetId versions versionRange = Ok version ->
  version <> EmptyString.
Proof.
  unfold AssetResolver.pickVersion.
  destruct (AssetResolver.selectVersion versions versionRange)
    as [[[|c v]|] sorted]; simpl; try discriminate.
  now intros [= <-].
Qed.

(** What a successful [install] has written to the configuration file. *)
Lemma install_ok_config url assetId versionRange forceReinstall w w' r :
  AssetResolver.install url assetId versionRange forceReinstall w
  = (Ok (Installed r), w') ->
  exists c version assetMeta,
    configFile w = Some c /\ ConfigLoader.check c = None /\
    version <> EmptyString /\
    let entry := installed_entry c url assetId version assetMeta in
    configFile w' = Some (added (registered c url) entry) /\
    r = mkResolved (entry_id entry) (entry_version entry) (entry_source entry)
          (resolved_commit r) (resolved_sha256 r) (resolved_content r)
          (resolved_cachePath r) (entry_mapping entry).
Proof.
  intros H. rewrite install_cases in H.
  destruct (install_prefix url assetId versionRange w)
    as [[[[[manifest assetMeta] commit] version]|e0] w2] eqn:Hp; [|discriminate].
  assert (Hversion : version <> EmptyString).
  { unfold install_prefix in Hp.
    destruct (repo_resolveRef (remote url) "main"); [|discriminate].
    destruct (manifest_at _ _) as [manifest0|]; [|discriminate].
    destruct (JS.get (manifest_assets manifest0) assetId) as [assetMeta0|];
      [|discriminate].
    destruct (AssetResolver.pickVersion _ _ _) as [version0|] eqn:Hv;
      [|discriminate].
    injection Hp as _ _ _ <- _. exact (pickVersion_not_empty _ _ _ _ Hv). }
  apply install_prefix_only_logs in Hp. destruct Hp as [(Hc2 & _) _].
  rewrite <- Hc2.
  destruct (configFile w2) as [c|] eqn:Hc; [|discriminate].
  destruct (ConfigLoader.check c) as [e1|] eqn:Hk; [discriminate|].
  assert (Hrest :
    install_rest url assetId manifest assetMeta commit version w2
    = (Ok (Installed r), w')).
  { destruct (find _ (config_assets c)) as [existing|];
      destruct forceReinstall; try discriminate; exact H. }
  clear H.
  pose proof (install_rest_run url assetId manifest assetMeta commit version
                w2 c Hc Hk) as Hrun.
  cbv zeta in Hrun. rewrite Hrun in Hrest. clear Hrun.
  destruct (AssetResolver.resolveAsset _ manifest _ commit true _)
    as [[r0|e2] w4] eqn:Hres; [|discriminate].
  injection Hrest as <- <-.
  exists c, version, assetMeta.
  split; [reflexivity|]. split; [exact Hk|]. split; [exact Hversion|].
  intros entry. split; [reflexivity|].
  destruct (resolveAsset_ok_inv _ _ _ _ _ _ _ _ Hres)
    as (assetMeta' & versionMeta & commit' & _ & _ & _ & Hpaths).
  cbv zeta in Hpaths.
  destruct Hpaths as [(_ & [=] & _)|(_ & sha & content & w1 & _ & _ & ->)].
  reflexivity.
Qed.

(** X26: the configuration a successful [install] writes, read again. The
    file declares the entry of the asset returned, whose version is never
    empty. It passes validation, so that [load] and [listInstalled] return
    it, exactly when the id and the source alias of that asset are not
    empty; when one of them is empty (the manifest may declare an asset
    under the empty key, the configuration a source under the empty alias),
    [install] has succeeded and left a configuration that [listInstalled]
    and [resolveAll] refuse as invalid. *)
Theorem installed_configuration_is_read_again
    (url assetId versionRange : string) (forceReinstall : bool)
    (w w' : World) (r : ResolvedAsset) :
  AssetResolver.install url assetId versionRange forceReinstall w
  = (Ok (Installed r), w') ->
  exists c',
    configFile w' = Some c' /\
    In (mkEntry (resolved_id r) (resolved_source r) (resolved_version r)
          (resolved_mapping r))
       (config_assets c') /\
    resolved_version r <> EmptyString /\
    (resolved_id r <> EmptyString -> resolved_source r <> EmptyString ->
     ConfigLoader.load w' = (Ok c', w') /\
     AssetResolver.listInstalled w' = (Ok (config_assets c'), w')) /\
    (resolved_id r = EmptyString \/ resolved_source r = EmptyString ->
     exists msg,
       AssetResolver.listInstalled w' = (Throw (ConfigInvalid msg), w') /\
       AssetResolver.resolveAll w' = (Throw (ConfigInvalid msg), w')).
Proof.
  intros H.
  destruct (install_ok_config _ _ _ _ _ _ _ H)
    as (c & version & assetMeta & Hc & Hk & Hne & Hc' & Hr).
  cbv zeta in Hc', Hr.
  set (entry := installed_entry c url assetId version assetMeta) in *.
  exists (added (registered c url) entry). split; [exact Hc'|].
  assert (Hwf : well_formed (added (registered c url) entry) <->
                entry_id entry <> EmptyString /\
                entry_source entry <> EmptyString /\
                entry_version entry <> EmptyString).
  { apply added_well_formed.
    - apply registered_well_formed. now apply check_none.
    - destruct (alias_for_registered c url) as (s & Hs & _). now exists s. }
  assert (Hlist : AssetResolver.listInstalled w' =
                  match ConfigLoader.load w' with
                  | (Ok c', w1) => (Ok (config_assets c'), w1)
                  | (Throw e, w1) => (Throw e, w1)
                  end).
  { unfold AssetResolver.listInstalled, ConfigLoader.getInstalledAssets.
    unfold bind at 1. unfold get_world at 1. unfold ConfigLoader.exists_.
    rewrite Hc'. cbn [negb]. unfold bind.
    now destruct (ConfigLoader.load w') as [[c1|e] w1]. }
  assert (Hid : resolved_id r = entry_id entry) by now rewrite Hr.
  assert (Hsource : resolved_source r = entry_source entry) by now rewrite Hr.
  assert (Hversion : resolved_version r = entry_version entry)
    by now rewrite Hr.
  assert (Hmapping : resolved_mapping r = entry_mapping entry)
    by now rewrite Hr.
  rewrite Hid, Hsource, Hversion, Hmapping. clear Hr.
  split.
  { cbn [added config_assets]. apply in_or_app. right.
    destruct entry. now left. }
  split; [exact Hne|]. split.
  - intros H1 H2.
    assert (Hcheck : ConfigLoader.check (added (registered c url) entry) = None)
      by (apply check_none, Hwf; now repeat split).
    rewrite Hlist, config_load_run, Hc', Hcheck. now split.
  - intros Hempty.
    destruct (ConfigLoader.check (added (registered c url) entry))
      as [e|] eqn:Hcheck.
    + destruct (check_invalid _ _ Hcheck) as (msg & ->). exists msg.
      rewrite Hlist. unfold AssetResolver.resolveAll. unfold bind at 1.
      rewrite config_load_run, Hc', Hcheck. now split.
    + apply check_none, Hwf in Hcheck. destruct Hcheck as (H1 & H2 & H3).
      destruct Hempty as [E|E]; contradiction.
Qed.

End WithEnv.

(** A source whose manifest declares a prompt under the empty id. *)
Definition manifest_nameless : ParcaManifest :=
  mkManifest "1.0" None
    [(EmptyString,
      mkAsset prompt None [("1.0.0", mkVersion None "prompts/test.md" None)])].

#[local] Instance libs_nameless : Libs := {|
  rangeTest := Semver.exactRangeTest;
  yaml_load_manifest := fun text =>
    if (text =? "manifest nameless")%string then Found manifest_nameless
    else Failed "YAMLException";
  JSON_stringify := fun m => JS.join "," (JS.keys (manifest_assets m));
  JSON_stringify_entry := entry_id;
  URL_pathname := Scenario.pathname
|}.

Definition env_nameless : Env :=
  Scenario.environment
    (Scenario.repository "manifest nameless" "mock-sha-123" "# Hello Test").

Lemma baseline_install_is_listed :
  let run :=
    AssetResolver.install (env := Scenario.env_v1) (L := Scenario.libs)
      Scenario.url "test-asset" "latest" false Scenario.fresh in
  fst run = Ok (Installed RunWitnesses.resolved_v1) /\
  AssetResolver.listInstalled (env := Scenario.env_v1) (L := Scenario.libs)
    (snd run)
  = (Ok [Scenario.entry_v1], snd run).
Proof.
  intros run.
  assert (Hrun : run = (Ok (Installed RunWitnesses.resolved_v1), snd run))
    by (vm_compute; reflexivity).
  split; [now rewrite Hrun|].
  destruct (installed_configuration_is_read_again
              (env := Scenario.env_v1) (L := Scenario.libs)
              Scenario.url "test-asset" "latest" false Scenario.fresh
              (snd run) RunWitnesses.resolved_v1 Hrun)
    as (c' & Hc' & _ & _ & Hgood & _).
  destruct Hgood as [_ Hlist]; [discriminate..|].
  rewrite Hlist. f_equal. f_equal.
  assert (E : configFile (snd run)
              = Some (mkConfig "1.0" Scenario.sources [Scenario.entry_v1]))
    by (vm_compute; reflexivity).
  rewrite E in Hc'. now injection Hc' as <-.
Defined.

(** Installing the asset of the empty id succeeds; the configuration it
    leaves is refused from then on. *)
Example install_of_nameless_asset_breaks_configuration :
  let run :=
    AssetResolver.install (env := env_nameless) (L := libs_nameless)
      Scenario.url EmptyString "latest" false Scenario.fresh in
  (exists r, fst run = Ok (Installed r) /\ resolved_id r = EmptyString) /\
  fst (AssetResolver.resolveAll (env := env_nameless) (L := libs_nameless)
         (snd run))
  = Throw (ConfigInvalid
             "PARCA asset entry missing required fields (id, source, version): ").
Proof.
  intros run. split; [eexists; split|]; vm_compute; reflexivity.
Qed.

End InstalledFacts.
